(** * blackhole: the host-file generator [updateBlackholeFile.py]

    A shallow embedding of the parts of [updateBlackholeFile.py] that the
    specification speaks about, together with the theorems that relate the
    two, and of [updateReadme.py], which writes the readme files from the
    data that the generator leaves.  Python values are modelled as follows:

    - a [str] is a list of Unicode code points ([pystr]);
    - a [dict] with string keys is a [gmap string pyval];
    - a [set] of strings is a [gset pystr];
    - an exception is the left summand of a result type;
    - [re] patterns are parsed from their source text into a small
      abstract syntax and matched with derivatives. *)

From Stdlib Require Import NArith ZArith Ascii String List Bool Lia.
From Stdlib Require Import DecimalPos DecimalN.
From stdpp Require Import base option list gmap strings sorting.
Import ListNotations.

Local Open Scope N_scope.
Local Open Scope list_scope.

(* ================================================================== *)
(** * Python strings *)
(* ================================================================== *)

(** A Python 3 [str] is a sequence of code points. *)
Definition codepoint := N.
Definition pystr := list N.

(** An ASCII literal of the source text, as a [str]. *)
Fixpoint u (s : string) : pystr :=
  match s with
  | EmptyString => []
  | String a s' => N_of_ascii a :: u s'
  end.

Definition pystr_eqb (a b : pystr) : bool := bool_decide (a = b).

(** [c] is the ASCII character [a]. *)
Definition chr_is (c : N) (a : ascii) : bool := N.eqb c (N_of_ascii a).

Definition is_ascii (c : N) : bool := c <? 128.

(** Code points [z] with decimal value zero in the Unicode character
    database (category Nd, version 14.0.0, the one of CPython 3.11); each
    is followed by the digits one to nine of its script. *)
Definition unicode_zero_digits : list N :=
  [ 48; 1632; 1776; 1984; 2406; 2534; 2662; 2790; 2918; 3046; 3174; 3302;
    3430; 3558; 3664; 3792; 3872; 4160; 4240; 6112; 6160; 6470; 6608; 6784;
    6800; 6992; 7088; 7232; 7248; 42528; 43216; 43264; 43472; 43504; 43600;
    44016; 65296; 66720; 68912; 69734; 69872; 69942; 70096; 70384; 70736;
    70864; 71248; 71360; 71472; 71904; 72016; 72784; 73040; 73120; 92768;
    92864; 93008; 120782; 120792; 120802; 120812; 120822; 123200; 123632;
    125264; 130032 ].

(** [str.isdecimal] on one character: what [\d] matches in a [str]
    pattern compiled without [re.ASCII]. *)
Definition unicode_isdecimal (c : N) : bool :=
  existsb (fun z => (z <=? c) && (c <? z + 10)) unicode_zero_digits.

(** Lexicographic order on code points: the order of [sorted] on [str]. *)
Fixpoint pystr_leb (a b : pystr) : bool :=
  match a, b with
  | [], _ => true
  | _ :: _, [] => false
  | x :: a', y :: b' =>
      if x <? y then true else if y <? x then false else pystr_leb a' b'
  end.

Definition pystr_le (a b : pystr) : Prop := pystr_leb a b = true.
Definition pystr_lt (a b : pystr) : Prop := pystr_le a b /\ a <> b.

#[global] Instance pystr_le_dec (a b : pystr) : Decision (pystr_le a b) :=
  decide (pystr_leb a b = true).

(* ================================================================== *)
(** * Python's [re]: the fragment used by the exclusion patterns *)
(* ================================================================== *)

Module Re.

(** Members of a bracketed set, named after [sre_parse]'s opcodes. *)
Inductive set_item : Type :=
| RANGE (lo hi : N)
| LITERAL (c : N)
| CATEGORY_DIGIT.

(** What consumes exactly one character. *)
Inductive atom : Type :=
| Lit (c : N)                                (* a literal character *)
| AnyChar                                    (* [.], without DOTALL *)
| Category_digit                             (* [\d] *)
| In (negate : bool) (items : list set_item) (* [[...]] and [[^...]] *).

Inductive regex : Type :=
| Empty
| Eps
| Atom (a : atom)
| Cat (r1 r2 : regex)
| Alt (r1 r2 : regex)
| Star (r : regex).

Definition item_matches (i : set_item) (c : N) : bool :=
  match i with
  | RANGE lo hi => (lo <=? c) && (c <=? hi)
  | LITERAL x => c =? x
  | CATEGORY_DIGIT => unicode_isdecimal c
  end.

Definition atom_matches (a : atom) (c : N) : bool :=
  match a with
  | Lit x => c =? x
  | AnyChar => negb (c =? 10)
  | Category_digit => unicode_isdecimal c
  | In negate items => xorb negate (existsb (fun i => item_matches i c) items)
  end.

(** ** Matching by derivatives *)

Fixpoint nullable (r : regex) : bool :=
  match r with
  | Empty => false
  | Eps => true
  | Atom _ => false
  | Cat r1 r2 => nullable r1 && nullable r2
  | Alt r1 r2 => nullable r1 || nullable r2
  | Star _ => true
  end.

Fixpoint deriv (c : N) (r : regex) : regex :=
  match r with
  | Empty => Empty
  | Eps => Empty
  | Atom a => if atom_matches a c then Eps else Empty
  | Cat r1 r2 =>
      if nullable r1 then Alt (Cat (deriv c r1) r2) (deriv c r2)
      else Cat (deriv c r1) r2
  | Alt r1 r2 => Alt (deriv c r1) (deriv c r2)
  | Star r1 => Cat (deriv c r1) (Star r1)
  end.

(** [re.fullmatch]: the whole string is in the language of [r]. *)
Fixpoint fullmatch (r : regex) (s : pystr) : bool :=
  match s with
  | [] => nullable r
  | c :: s' => fullmatch (deriv c r) s'
  end.

(** The language of a pattern, as a relation. *)
Inductive lang : regex -> pystr -> Prop :=
| lang_eps : lang Eps []
| lang_atom a c : atom_matches a c = true -> lang (Atom a) [c]
| lang_cat r1 r2 s1 s2 :
    lang r1 s1 -> lang r2 s2 -> lang (Cat r1 r2) (s1 ++ s2)
| lang_alt_l r1 r2 s : lang r1 s -> lang (Alt r1 r2) s
| lang_alt_r r1 r2 s : lang r2 s -> lang (Alt r1 r2) s
| lang_star_nil r : lang (Star r) []
| lang_star_app r s1 s2 :
    lang r s1 -> lang (Star r) s2 -> lang (Star r) (s1 ++ s2).

(** ** Parsing the pattern text *)

(** Sequencing that leaves no [Eps] on either side. *)
Definition seq (r1 r2 : regex) : regex :=
  match r1, r2 with
  | Eps, _ => r2
  | _, Eps => r1
  | _, _ => Cat r1 r2
  end.

Fixpoint power (n : nat) (r : regex) : regex :=
  match n with
  | O => Eps
  | S n' => seq r (power n' r)
  end.

Fixpoint upto (n : nat) (r : regex) : regex :=
  match n with
  | O => Eps
  | S n' => Alt Eps (seq r (upto n' r))
  end.

(** [r{lo,hi}]; [hi = None] is an open upper bound. *)
Definition repeat_range (lo : nat) (hi : option nat) (r : regex) : regex :=
  match hi with
  | None => seq (power lo r) (Star r)
  | Some h => seq (power lo r) (upto (h - lo)%nat r)
  end.

Definition is_digit (c : N) : bool := (48 <=? c) && (c <=? 57).

(** What the parser makes of a pattern text: a result; [re.error]; or a
    text outside the fragment, of which the model says nothing ([re] may
    compile it, or raise). *)
Inductive parse (A : Type) : Type :=
| Parsed (x : A)
| ReError
| Outside.
Arguments Parsed {A} x.
Arguments ReError {A}.
Arguments Outside {A}.

(** [sre_constants.MAXREPEAT]: a count from here on raises
    [OverflowError], which is not an [re.error]. *)
Definition MAXREPEAT : N := 4294967295.

(** Leading ASCII digits of [s] as a number, and what follows them. *)
Fixpoint read_digits (acc : option N) (s : pystr) : option N * pystr :=
  match s with
  | c :: s' =>
      if is_digit c
      then read_digits (Some (10 * default 0 acc + (c - 48))) s'
      else (acc, s)
  | [] => (acc, s)
  end.

(** The text after an opening brace, when it is a repeat count:
    [m}], [m,}], [,n}], [m,n}] or [,}]. *)
Definition read_braces (s : pystr) : option (N * option N * pystr) :=
  let '(lo, s1) := read_digits None s in
  match s1 with
  | c :: s2 =>
      if chr_is c "}" then
        match lo with
        | Some m => Some (m, Some m, s2)
        | None => None
        end
      else if chr_is c "," then
        let '(hi, s3) := read_digits None s2 in
        match s3 with
        | c' :: s4 =>
            if chr_is c' "}" then Some (default 0 lo, hi, s4) else None
        | [] => None
        end
      else None
  | [] => None
  end.

(** A count that [re] refuses as too large. *)
Definition too_large (lo : N) (hi : option N) : bool :=
  (MAXREPEAT <=? lo) || (MAXREPEAT <=? default 0 hi).

(** The text starts with a quantifier. *)
Definition at_quantifier (s : pystr) : bool :=
  match s with
  | c :: s' =>
      chr_is c "*" || chr_is c "+" || chr_is c "?"
      || (chr_is c "{" && bool_decide (is_Some (read_braces s')))
  | [] => false
  end.

(** What [re] says of a quantifier that has nothing to apply to, or that
    follows a quantifier: the count is read first, and a count that is
    too large is no [re.error]. *)
Definition misplaced_quantifier {A : Type} (s : pystr) : parse A :=
  match s with
  | c :: s' =>
      if chr_is c "{" then
        match read_braces s' with
        | Some (lo, hi, _) => if too_large lo hi then Outside else ReError
        | None => ReError
        end
      else ReError
  | [] => ReError
  end.

(** After a quantifier: a second one is the error [multiple repeat]; a
    [?] or a [+] makes the quantifier lazy or possessive, which is
    outside the fragment. *)
Definition no_suffix (res : regex * pystr) : parse (regex * pystr) :=
  match snd res with
  | c :: _ =>
      if chr_is c "?" || chr_is c "+" then Outside
      else if at_quantifier (snd res) then misplaced_quantifier (snd res)
      else Parsed res
  | [] => Parsed res
  end.

(** A quantifier after the item [r], if there is one.  A bound with
    [hi < lo] is an error. *)
Definition read_quantifier (r : regex) (s : pystr)
  : parse (regex * pystr) :=
  match s with
  | c :: s' =>
      if chr_is c "*" then no_suffix (Star r, s')
      else if chr_is c "+" then no_suffix (seq r (Star r), s')
      else if chr_is c "?" then no_suffix (Alt Eps r, s')
      else if chr_is c "{" then
        match read_braces s' with
        | Some (lo, hi, s'') =>
            if too_large lo hi then Outside
            else
              match hi with
              | Some h =>
                  if h <? lo then ReError
                  else no_suffix (repeat_range (N.to_nat lo)
                                    (Some (N.to_nat h)) r, s'')
              | None => no_suffix (repeat_range (N.to_nat lo) None r, s'')
              end
        | None => Parsed (r, s)
        end
      else Parsed (r, s)
  | [] => Parsed (r, s)
  end.

Definition is_alnum (c : N) : bool :=
  is_digit c || ((65 <=? c) && (c <=? 90)) || ((97 <=? c) && (c <=? 122)).

(** One member of a bracketed set: a character, an escaped character
    or [\d].  The other escapes by a letter or a digit are outside the
    fragment; a pattern that ends here is an error. *)
Definition read_set_member (s : pystr) : parse (set_item * pystr) :=
  match s with
  | c :: s' =>
      if chr_is c "\" then
        match s' with
        | e :: s'' =>
            if chr_is e "d" then Parsed (CATEGORY_DIGIT, s'')
            else if is_alnum e then Outside
            else Parsed (LITERAL e, s'')
        | [] => ReError
        end
      else Parsed (LITERAL c, s')
  | [] => ReError
  end.

(** The members of a set up to its closing bracket.  [first] holds
    before the first member, where a closing bracket is a literal.  A
    set that is not closed is an error, and so is a range whose ends are
    not both characters or are in the wrong order. *)
Fixpoint read_set (fuel : nat) (first : bool) (s : pystr)
  : parse (list set_item * pystr) :=
  match fuel with
  | O => Outside
  | S fuel' =>
      match s with
      | [] => ReError
      | c :: s' =>
          if chr_is c "]" && negb first then Parsed ([], s')
          else
            match read_set_member s with
            | ReError => ReError
            | Outside => Outside
            | Parsed (lo, s1) =>
                match s1 with
                | d :: s2 =>
                    if chr_is d "-" then
                      match s2 with
                      | [] => ReError
                      | e :: s3 =>
                          if chr_is e "]"
                          then Parsed ([lo; LITERAL 45], s3)
                          else
                            match read_set_member s2 with
                            | Parsed (LITERAL h, s4) =>
                                match lo with
                                | LITERAL l =>
                                    if h <? l then ReError
                                    else
                                      match read_set fuel' false s4 with
                                      | Parsed (items, rest) =>
                                          Parsed (RANGE l h :: items, rest)
                                      | ReError => ReError
                                      | Outside => Outside
                                      end
                                | _ => ReError
                                end
                            | Parsed (_, _) => ReError
                            | ReError => ReError
                            | Outside => Outside
                            end
                      end
                    else
                      match read_set fuel' false s1 with
                      | Parsed (items, rest) => Parsed (lo :: items, rest)
                      | ReError => ReError
                      | Outside => Outside
                      end
                | [] => ReError
                end
            end
      end
  end.

Definition read_bracket (s : pystr) : parse (regex * pystr) :=
  let '(negate, s1) :=
    match s with
    | c :: s' => if chr_is c "^" then (true, s') else (false, s)
    | [] => (false, s)
    end in
  match read_set (S (length s1)) true s1 with
  | Parsed (items, rest) => Parsed (Atom (In negate items), rest)
  | ReError => ReError
  | Outside => Outside
  end.

(** Alternatives, sequences and single items; [fuel] bounds the depth
    of the descent. *)
Fixpoint parse_alt (fuel : nat) (s : pystr) : parse (regex * pystr) :=
  match fuel with
  | O => Outside
  | S fuel' =>
      match parse_seq fuel' s with
      | Parsed (r1, s1) =>
          match s1 with
          | c :: s2 =>
              if chr_is c "|" then
                match parse_alt fuel' s2 with
                | Parsed (r2, s3) => Parsed (Alt r1 r2, s3)
                | ReError => ReError
                | Outside => Outside
                end
              else Parsed (r1, s1)
          | [] => Parsed (r1, s1)
          end
      | ReError => ReError
      | Outside => Outside
      end
  end
with parse_seq (fuel : nat) (s : pystr) : parse (regex * pystr) :=
  match fuel with
  | O => Outside
  | S fuel' =>
      match s with
      | [] => Parsed (Eps, s)
      | c :: _ =>
          if chr_is c ")" || chr_is c "|" then Parsed (Eps, s)
          else
            match parse_item fuel' s with
            | Parsed (r1, s1) =>
                match read_quantifier r1 s1 with
                | Parsed (q, s2) =>
                    match parse_seq fuel' s2 with
                    | Parsed (r2, s3) => Parsed (seq q r2, s3)
                    | ReError => ReError
                    | Outside => Outside
                    end
                | ReError => ReError
                | Outside => Outside
                end
            | ReError => ReError
            | Outside => Outside
            end
      end
  end
with parse_item (fuel : nat) (s : pystr) : parse (regex * pystr) :=
  match fuel with
  | O => Outside
  | S fuel' =>
      match s with
      | [] => Outside
      | c :: s' =>
          if chr_is c "(" then
            match s' with
            | q :: _ =>
                if chr_is q "?" then Outside     (* an extension *)
                else
                  match parse_alt fuel' s' with
                  | Parsed (r, d :: s'') =>
                      if chr_is d ")" then Parsed (r, s'') else Outside
                  | Parsed (_, []) => ReError    (* missing parenthesis *)
                  | ReError => ReError
                  | Outside => Outside
                  end
            | [] => ReError                      (* missing parenthesis *)
            end
          else if chr_is c "[" then read_bracket s'
          else if chr_is c "\" then
            match s' with
            | e :: s'' =>
                if chr_is e "d" then Parsed (Atom Category_digit, s'')
                else if is_alnum e then Outside
                else Parsed (Atom (Lit e), s'')
            | [] => ReError                      (* bad escape *)
            end
          else if chr_is c "." then Parsed (Atom AnyChar, s')
          else if at_quantifier s
          then misplaced_quantifier s            (* nothing to repeat *)
          else if chr_is c "^" || chr_is c "$" then Outside
          else Parsed (Atom (Lit c), s')
      end
  end.

(** [re.compile] on the fragment: groups, alternation, sets with ranges
    and [\d], escaped punctuation, [.], and the greedy quantifiers.
    [ReError] is [re.error]: a quantifier with nothing to repeat or after
    a quantifier, a count with its bounds in the wrong order, a set that
    is not closed or holds a bad range, a parenthesis without its match,
    a backslash at the end.  [Outside] is a pattern that the fragment
    does not cover (anchors, extensions [(?...)], lazy and possessive
    quantifiers, the escapes by a letter or a digit other than [\d],
    counts from [MAXREPEAT] on): [re] compiles some of these and
    refuses others. *)
Definition compile (pattern : pystr) : parse regex :=
  match parse_alt (4 * S (length pattern)) pattern with
  | Parsed (r, []) => Parsed r
  | Parsed (_, c :: _) =>
      if chr_is c ")" then ReError               (* unbalanced *)
      else Outside
  | ReError => ReError
  | Outside => Outside
  end.

End Re.

(* ================================================================== *)
(** * Python values, dictionaries and exceptions *)
(* ================================================================== *)

#[local] Set Warnings "-register-all".

Inductive pyval : Type :=
| VNone
| VBool (b : bool)
| VInt (z : Z)
| VStr (s : pystr)
| VList (l : list pyval)
| VDict (d : list (string * pyval))
| VObj (name : string) (* a file object or another opaque handle *)
| VFloat (repr : pystr) (* a float, by the text that [repr] gives it *).

(** A [float] is known by its [repr], which is also its [str]: no two
    floats share one, the payloads of the NaNs apart.  Its arithmetic
    is not modelled. *)

(** Truth value of an object in a condition. *)
Definition truthy (v : pyval) : bool :=
  match v with
  | VNone => false
  | VBool b => b
  | VInt z => negb (z =? 0)%Z
  | VStr s => match s with [] => false | _ => true end
  | VList l => match l with [] => false | _ => true end
  | VDict d => match d with [] => false | _ => true end
  | VObj _ => true
  | VFloat repr =>
      negb (pystr_eqb repr (u "0.0") || pystr_eqb repr (u "-0.0"))
  end.

Definition strs (l : list pystr) : pyval := VList (map VStr l).

(** The [str] elements of a list value. *)
Definition as_strs (v : pyval) : list pystr :=
  match v with
  | VList l => omap (fun x => match x with VStr s => Some s | _ => None end) l
  | _ => []
  end.

Inductive exception : Type :=
| KeyError (key : string)
| SystemExit (code : Z)
| Unmodelled (* a use of a library that the model does not cover *).

Definition result (A : Type) : Type := exception + A.

Abbreviation dict := (gmap string pyval).

(** [d[key]] *)
Definition getitem (d : dict) (key : string) : result pyval :=
  match d !! key with
  | Some v => inr v
  | None => inl (KeyError key)
  end.

(** [d.update(other)]: the entries of [other] win. *)
Definition update (d other : dict) : dict := other ∪ d.

(** [a.startswith(p)] *)
Fixpoint startswith (a p : pystr) : bool :=
  match p, a with
  | [], _ => true
  | _ :: _, [] => false
  | y :: p', x :: a' => (x =? y) && startswith a' p'
  end.

(** [s.split(sep, 1)] for a one-character separator that occurs in [s]:
    the text before the first [sep] and the text after it. *)
Fixpoint split_once (sep : N) (s : pystr) : option (pystr * pystr) :=
  match s with
  | [] => None
  | c :: s' =>
      if c =? sep then Some ([], s')
      else
        match split_once sep s' with
        | Some (a, b) => Some (c :: a, b)
        | None => None
        end
  end.

(** [posixpath.basename]: what follows the last slash. *)
Fixpoint basename_from (acc : pystr) (p : pystr) : pystr :=
  match p with
  | [] => acc
  | c :: p' => if chr_is c "/" then basename_from p' p' else basename_from acc p'
  end.

Definition basename (p : pystr) : pystr := basename_from p p.

(* ================================================================== *)
(** * [argparse]: the options of the command line *)
(* ================================================================== *)

Module Argparse.

Inductive action : Type :=
| store        (* one value, the default action *)
| store_star   (* [nargs="*"]: the values up to the next option *)
| store_true
| store_false
| help         (* [-h], [--help], added by the parser itself *).

Record argument : Type := Argument {
  option_strings : list string;
  dest : string;
  act : action;
  default_value : option pyval (* [None]: no attribute is set *)
}.

Definition is_long (name : string) : bool :=
  match name with
  | String "-" (String "-" _) => true
  | _ => false
  end.

Fixpoint lstrip_dashes (name : string) : string :=
  match name with
  | String "-" rest => lstrip_dashes rest
  | _ => name
  end.

Fixpoint dashes_to_underscores (name : string) : string :=
  match name with
  | EmptyString => EmptyString
  | String c rest =>
      String (if Ascii.eqb c "-" then "_"%char else c)
             (dashes_to_underscores rest)
  end.

(** The attribute name of an optional when no [dest] is given: the first
    long option string, or else the first one, without its leading
    dashes and with inner dashes turned into underscores. *)
Definition infer_dest (names : list string) : string :=
  let chosen :=
    match filter (fun n => is_long n = true) names with
    | n :: _ => n
    | [] => match names with n :: _ => n | [] => EmptyString end
    end in
  dashes_to_underscores (lstrip_dashes chosen).

Definition add_argument (names : list string) (a : action)
    (default : pyval) : argument :=
  {| option_strings := names; dest := infer_dest names; act := a;
     default_value := Some default |}.

Definition help_argument : argument :=
  {| option_strings := ["-h"; "--help"]%string; dest := "help"%string;
     act := help; default_value := None |}.

(** The option strings of a parser, each with its argument. *)
Definition option_table (parser : list argument)
  : list (string * argument) :=
  flat_map (fun a => map (fun n => (n, a)) (option_strings a)) parser.

Inductive token : Type :=
| Positional                               (* not an option: a value *)
| Option (a : argument) (explicit : option pystr)
| Ambiguous                                (* several long options fit *)
| Unknown                                  (* no option fits *)
| Outside                                  (* not covered by the model *).

Definition find_exact (parser : list argument) (t : pystr)
  : option argument :=
  snd <$> List.find (fun na => bool_decide (u (fst na) = t))
                    (option_table parser).

(** How the parser reads one word of the command line.  Covered: words
    that do not start with a dash, exact option strings, and words with
    two dashes, which may abbreviate a long option and may carry a value
    after an equals sign.  The bare double dash, words with a single
    dash that are not an option string (clusters of short options,
    negative numbers) and words with a blank are outside the model. *)
Definition classify (parser : list argument) (t : pystr) : token :=
  match t with
  | [] => Positional
  | c :: rest =>
      if negb (chr_is c "-") then Positional
      else
        match rest with
        | [] => Positional
        | c' :: rest' =>
            match find_exact parser t with
            | Some a => Option a None
            | None =>
                if negb (chr_is c' "-") then Outside
                else if bool_decide (rest' = []) then Outside
                else if existsb (fun x => chr_is x " ") t then Outside
                else
                  let '(prefix, explicit) :=
                    match split_once 61 t with
                    | Some (p, v) => (p, Some v)
                    | None => (t, None)
                    end in
                  match explicit, find_exact parser prefix with
                  | Some _, Some a => Option a explicit
                  | _, _ =>
                      match filter (fun na => startswith (u (fst na)) prefix
                                              = true)
                                   (option_table parser) with
                      | [] => Unknown
                      | [na] => Option (snd na) explicit
                      | _ => Ambiguous
                      end
                  end
            end
        end
  end.

(** Every failure of the parser is [parser.error], which exits with
    status 2. *)
Definition error {A} : result A := inl (SystemExit 2).

(** What the parser waits for between two words. *)
Inductive mode : Type :=
| Top                                      (* an option *)
| Value (a : argument)                     (* the value of [a] *)
| Values (a : argument) (vs : list pystr)  (* further values of [a] *).

(** The parser between two words: what it waits for, the namespace so
    far, and whether a word was left over. *)
Record state : Type := State {
  waiting : mode;
  namespace : dict;
  extras : bool
}.

(** An option has been read at the top level. *)
Definition open_option (a : argument) (explicit : option pystr)
    (ns : dict) (ex : bool) : result state :=
  match act a, explicit with
  | help, _ => inl (SystemExit 0)
  | store_true, None => inr (State Top (<[dest a := VBool true]> ns) ex)
  | store_false, None => inr (State Top (<[dest a := VBool false]> ns) ex)
  | store_true, Some _ | store_false, Some _ =>
      error                                (* ignored explicit argument *)
  | store, Some v => inr (State Top (<[dest a := VStr v]> ns) ex)
  | store, None => inr (State (Value a) ns ex)
  | store_star, Some v => inr (State Top (<[dest a := strs [v]]> ns) ex)
  | store_star, None => inr (State (Values a []) ns ex)
  end.

Definition at_top (tok : token) (ns : dict) (ex : bool) : result state :=
  match tok with
  | Positional | Unknown => inr (State Top ns true)
  | Ambiguous => error
  | Outside => inl Unmodelled
  | Option a explicit => open_option a explicit ns ex
  end.

(** One word of the command line. *)
Definition step (parser : list argument) (st : state) (t : pystr)
  : result state :=
  let tok := classify parser t in
  match waiting st with
  | Top => at_top tok (namespace st) (extras st)
  | Value a =>
      match tok with
      | Positional =>
          inr (State Top (<[dest a := VStr t]> (namespace st)) (extras st))
      | Outside => inl Unmodelled
      | _ => error                         (* expected one argument *)
      end
  | Values a vs =>
      match tok with
      | Positional => inr (State (Values a (vs ++ [t])) (namespace st)
                                 (extras st))
      | _ => at_top tok (<[dest a := strs vs]> (namespace st)) (extras st)
      end
  end.

(** The end of the command line; words left over are an error
    (unrecognized arguments). *)
Definition finish (st : state) : result dict :=
  match waiting st with
  | Value _ => error                       (* expected one argument *)
  | Top => if extras st then error else inr (namespace st)
  | Values a vs =>
      if extras st then error
      else inr (<[dest a := strs vs]> (namespace st))
  end.

Fixpoint consume (parser : list argument) (st : state)
    (argv : list pystr) : result dict :=
  match argv with
  | [] => finish st
  | t :: argv' =>
      match step parser st t with
      | inl e => inl e
      | inr st' => consume parser st' argv'
      end
  end.

(** The namespace before any word is read: every default. *)
Definition defaults (parser : list argument) : dict :=
  fold_left (fun ns a =>
               match default_value a with
               | Some v => if bool_decide (is_Some (ns !! dest a)) then ns
                           else <[dest a := v]> ns
               | None => ns
               end)
            parser ∅.

Definition has_token (parser : list argument) (p : token -> bool)
    (argv : list pystr) : bool :=
  existsb (fun t => p (classify parser t)) argv.

Definition is_outside (tok : token) : bool :=
  match tok with Outside => true | _ => false end.

Definition is_ambiguous (tok : token) : bool :=
  match tok with Ambiguous => true | _ => false end.

(** [vars(parser.parse_args(argv))].  The parser first reads every word
    on its own, where an ambiguous abbreviation is an error, and then
    consumes the words from left to right. *)
Definition parse_args (parser : list argument) (argv : list pystr)
  : result dict :=
  if has_token parser is_outside argv then inl Unmodelled
  else if has_token parser is_ambiguous argv then error
  else consume parser (State Top (defaults parser) false) argv.

End Argparse.

(* ================================================================== *)
(** * [updateBlackholeFile.py] *)
(* ================================================================== *)

(** What the script takes from outside the two functions below: the
    directory of the script, and the helper functions that the file
    refers to without defining them.  [path_join_robust] and
    [list_dir_no_hidden] are used for their results; the other helpers
    are called through [helper], by name. *)
Class Environment : Type := {
  BASEDIR_PATH : pystr;
  path_join_robust : pyval -> pyval -> pyval;
  list_dir_no_hidden : pyval -> list pystr;
  helper : string -> list pyval -> pyval
}.

(** A call of a helper, of [open] or of [tempfile]. *)
Record call : Type := Call {
  callee : string;
  arguments : list pyval
}.

(** Computations of [main]: they may raise, and they leave a trace of
    the calls made so far. *)
Definition M (A : Type) : Type := list call -> result A * list call.

#[global] Instance M_ret : MRet M := fun A (x : A) tr => (inr x, tr).

#[global] Instance M_bind : MBind M :=
  fun A B (f : A -> M B) (m : M A) tr =>
    match m tr with
    | (inl e, tr') => (inl e, tr')
    | (inr x, tr') => f x tr'
    end.

Definition lift {A} (r : result A) : M A := fun tr => (r, tr).

Definition invoke `{Environment} (name : string) (args : list pyval)
  : M pyval :=
  fun tr => (inr (helper name args), tr ++ [Call name args]).

Local Open Scope string_scope.

Section Script.
Context `{Environment}.

Definition BASEDIR : pyval := VStr BASEDIR_PATH.

(** Return default settings for the script. *)
Definition get_defaults : dict :=
  list_to_map
    [ ("numberofrules", VInt 0);
      ("datapath", path_join_robust BASEDIR (VStr (u "data")));
      ("freshen", VBool true);
      ("replace", VBool false);
      ("backup", VBool false);
      ("skipstaticblackhole", VBool false);
      ("keepdomaincomments", VBool true);
      ("extensionspath", path_join_robust BASEDIR (VStr (u "extensions")));
      ("extensions", VList []);
      ("nounifiedblackhole", VBool false);
      ("compress", VBool false);
      ("minimise", VBool false);
      ("outputsubfolder", VStr (u ""));
      ("hostfilename", VStr (u "blackhole"));
      ("targetip", VStr (u "0.0.0.0"));
      ("sourcedatafilename", VStr (u "update.json"));
      ("sourcesdata", VList []);
      ("readmefilename", VStr (u "readme.md"));
      ("readmetemplate",
        path_join_robust BASEDIR (VStr (u "readme_template.md")));
      ("readmedata", VDict []);
      ("readmedatafilename",
        path_join_robust BASEDIR (VStr (u "readmeData.json")));
      ("exclusionpattern", VStr (u "([a-zA-Z\d-]+\.){0,}"));
      ("exclusionregexes", VList []);
      ("exclusions", VList []);
      ("commonexclusions", VList [VStr (u "hulu.com")]);
      ("blacklistfile", path_join_robust BASEDIR (VStr (u "blacklist")));
      ("whitelistfile", path_join_robust BASEDIR (VStr (u "whitelist"))) ].

(** The parser of [main], with the help option that [ArgumentParser]
    adds first. *)
Definition parser : list Argparse.argument :=
  let add := Argparse.add_argument in
  [ Argparse.help_argument;
    add ["--auto"; "-a"] Argparse.store_true (VBool false);
    add ["--backup"; "-b"] Argparse.store_true (VBool false);
    add ["--extensions"; "-e"] Argparse.store_star (VList []);
    add ["--nounifiedblackhole"] Argparse.store_true (VBool false);
    add ["--ip"; "-i"] Argparse.store (VStr (u "0.0.0.0"));
    add ["--keepdomaincomments"; "-k"] Argparse.store_false (VBool true);
    add ["--noupdate"; "-n"] Argparse.store_true (VBool false);
    add ["--skipstaticblackhole"; "-s"] Argparse.store_true (VBool false);
    add ["--nogendata"; "-g"] Argparse.store_true (VBool false);
    add ["--output"; "-o"] Argparse.store (VStr (u ""));
    add ["--replace"; "-r"] Argparse.store_true (VBool false);
    add ["--flush-dns-cache"; "-f"] Argparse.store_true (VBool false);
    add ["--compress"; "-c"] Argparse.store_true (VBool false);
    add ["--minimise"; "-m"] Argparse.store_true (VBool false);
    add ["--whitelist"; "-w"] Argparse.store
        (path_join_robust BASEDIR (VStr (u "whitelist")));
    add ["--blacklist"; "-x"] Argparse.store
        (path_join_robust BASEDIR (VStr (u "blacklist"))) ].

(** [sorted(set(requested).intersection(available))] *)
Definition sorted_intersection (requested available : list pystr)
  : list pystr :=
  merge_sort pystr_le
    (elements ((list_to_set requested : gset pystr) ∩ list_to_set available)).

(** Lines 105 to 109 of [main]: the options completed, and laid over
    the defaults. *)
Definition merge_options (options : dict) : result (dict * dict) :=
  match getitem options "outputsubfolder" with
  | inl e => inl e
  | inr sub =>
      let options := <["outputpath" := path_join_robust BASEDIR sub]> options in
      match getitem options "noupdate" with
      | inl e => inl e
      | inr noupdate =>
          let options :=
            <["freshen" := VBool (negb (truthy noupdate))]> options in
          inr (options, update get_defaults options)
      end
  end.

(** Lines 111 to 119 of [main]: the sources and the extensions found in
    the directories. *)
Definition find_sources (options settings : dict) : result dict :=
  match getitem settings "datapath" with
  | inl e => inl e
  | inr data_path =>
      match getitem settings "extensionspath" with
      | inl e => inl e
      | inr extensions_path =>
          let settings :=
            <["sources" := strs (list_dir_no_hidden data_path)]> settings in
          let settings :=
            <["extensionsources" :=
                strs (list_dir_no_hidden extensions_path)]> settings in
          match getitem options "extensions" with
          | inl e => inl e
          | inr requested =>
              inr (<["extensions" :=
                       strs (sorted_intersection
                               (as_strs requested)
                               (map basename
                                    (list_dir_no_hidden extensions_path)))]>
                     settings)
          end
      end
  end.

(** Lines 148 to 159 of [main]: the final file, written through at most
    one of the two transforms. *)
Definition write_final_file (settings : dict)
    (merge_file exclusion_regexes : pyval) : M pyval :=
  compress ← lift (getitem settings "compress");
  if truthy compress then
    outputpath ← lift (getitem settings "outputpath");
    final_file ← invoke "open"
      [path_join_robust outputpath (VStr (u "blackhole")); VStr (u "w+b")];
    compressed_file ← invoke "tempfile.NamedTemporaryFile" [];
    _ ← invoke "remove_dups_and_excl"
      [merge_file; exclusion_regexes; compressed_file];
    targetip ← lift (getitem settings "targetip");
    _ ← invoke "compress_file" [compressed_file; targetip; final_file];
    mret final_file
  else
    minimise ← lift (getitem settings "minimise");
    if truthy minimise then
      outputpath ← lift (getitem settings "outputpath");
      final_file ← invoke "open"
        [path_join_robust outputpath (VStr (u "blackhole")); VStr (u "w+b")];
      minimised_file ← invoke "tempfile.NamedTemporaryFile" [];
      _ ← invoke "remove_dups_and_excl"
        [merge_file; exclusion_regexes; minimised_file];
      targetip ← lift (getitem settings "targetip");
      _ ← invoke "minimise_file" [minimised_file; targetip; final_file];
      mret final_file
    else
      invoke "remove_dups_and_excl" [merge_file; exclusion_regexes].

(** Lines 121 to 195 of [main], from the settings on.  The helpers may
    change the global settings, [numberofrules] above all; the model
    reads the settings as [main] left them. *)
Definition run_with (settings : dict) : M unit :=
  auto ← lift (getitem settings "auto");
  exclusion_regexes ← lift (getitem settings "exclusionregexes");
  source_data_filename ← lift (getitem settings "sourcedatafilename");
  no_unified_blackhole ← lift (getitem settings "nounifiedblackhole");
  freshen ← lift (getitem settings "freshen");
  update_sources ← invoke "prompt_for_update" [freshen; auto];
  _ ← (if truthy update_sources then
         hostfilename ← lift (getitem settings "hostfilename");
         invoke "update_all_sources" [source_data_filename; hostfilename]
       else mret VNone);
  gather_exclusions ← invoke "prompt_for_exclusions" [auto];
  exclusion_regexes ←
    (if truthy gather_exclusions then
       commonexclusions ← lift (getitem settings "commonexclusions");
       exclusionpattern ← lift (getitem settings "exclusionpattern");
       invoke "display_exclusion_options"
         [commonexclusions; exclusionpattern; exclusion_regexes]
     else mret exclusion_regexes);
  extensions ← lift (getitem settings "extensions");
  sourcesdata ← lift (getitem settings "sourcesdata");
  data_path ← lift (getitem settings "datapath");
  extensions_path ← lift (getitem settings "extensionspath");
  sources_data ← invoke "update_sources_data"
    [sourcesdata; data_path; extensions; extensions_path;
     source_data_filename; no_unified_blackhole];
  merge_file ← invoke "create_initial_file" [no_unified_blackhole];
  outputpath ← lift (getitem settings "outputpath");
  backup ← lift (getitem settings "backup");
  _ ← invoke "remove_old_blackhole_file"
    [outputpath; VStr (u "blackhole"); backup];
  final_file ← write_final_file settings merge_file exclusion_regexes;
  numberofrules ← lift (getitem settings "numberofrules");
  outputsubfolder ← lift (getitem settings "outputsubfolder");
  skipstaticblackhole ← lift (getitem settings "skipstaticblackhole");
  _ ← invoke "write_opening_header"
    [final_file; extensions; numberofrules; outputsubfolder;
     skipstaticblackhole; no_unified_blackhole];
  _ ← invoke "close" [final_file];
  nogendata ← lift (getitem settings "nogendata");
  _ ← (if negb (truthy nogendata) then
         readmedatafilename ← lift (getitem settings "readmedatafilename");
         invoke "update_readme_data"
           [readmedatafilename; extensions; numberofrules; outputsubfolder;
            sources_data; no_unified_blackhole]
       else mret VNone);
  _ ← invoke "print_success" [outputsubfolder; numberofrules];
  replace ← lift (getitem settings "replace");
  move_file ← invoke "prompt_for_move"
    [final_file; auto; replace; skipstaticblackhole];
  if truthy move_file then
    flush_cache ← lift (getitem settings "flushdnscache");
    _ ← invoke "prompt_for_flush_dns_cache"
      [flush_cache; VBool (negb (truthy auto))];
    mret tt
  else mret tt.

Definition main (argv : list pystr) : M unit :=
  options ← lift (Argparse.parse_args parser argv);
  '(options, settings) ← lift (merge_options options);
  settings ← lift (find_sources options settings);
  run_with settings.

End Script.

Local Close Scope string_scope.

(* ================================================================== *)
(** * The merge, dedupe and exclude pipeline *)
(* ================================================================== *)

(** The functions that read, exclude, merge and format are among the
    helpers that [updateBlackholeFile.py] refers to without defining them.
    This module states them as the specification describes them. *)
Module Core.

(** ** Data model *)

(** Modelled from the spec: a source file, whose reader is not in the
    file.  [content] is the text by lines; a file that cannot be opened
    has none. *)
Record SourceFile : Type := {
  path : pystr;
  variant : option pystr;
  content : option (list pystr)
}.

(** Modelled from the spec: a normalized record of the Source Reader. *)
Record NormalizedEntry : Type := {
  domain : pystr;
  comment : option pystr;
  sourceOrder : nat
}.

(** Modelled from the spec: a blacklist line, told apart once when the
    file is loaded. *)
Inductive BlacklistEntry : Type :=
| Literal (d : pystr)
| Pattern (p : pystr).

(** A compiled pattern: one of the fragment of [Re], or one that [re]
    compiled outside the fragment, known by its [fullmatch]. *)
Inductive CompiledPattern : Type :=
| Modelled (r : Re.regex)
| Foreign (m : pystr -> bool).

Definition matches (p : CompiledPattern) (d : pystr) : bool :=
  match p with
  | Modelled r => Re.fullmatch r d
  | Foreign m => m d
  end.

(** Modelled from the spec: the exclusion set.  The whitelist is kept
    with it, since [isExcluded] consults it first. *)
Record ExclusionSet : Type := {
  literalDomains : gset pystr;
  regexPatterns : list CompiledPattern;
  whitelisted : gset pystr
}.

(** Modelled from the spec: the merged table, entries in the order in
    which they were accepted. *)
Definition MergedTable : Type := list NormalizedEntry.

Record Config : Type := {
  targetIp : pystr;
  keepDomainComments : bool;
  skipStaticBlackhole : bool;
  compress : bool;
  minimise : bool;
  exclusionPattern : pystr
}.

Record Inputs : Type := {
  sources : list SourceFile;
  blacklist : list BlacklistEntry;
  whitelist : list pystr;
  commonExclusions : list pystr
}.

Inductive Error : Type :=
| SourceUnreadable
| MalformedLine
| InvalidConfiguration
| ExclusionPatternInvalid
| OutputWriteFailure.

(** The errors that end a run. *)
Definition fatal (e : Error) : bool :=
  match e with
  | SourceUnreadable | MalformedLine => false
  | InvalidConfiguration | ExclusionPatternInvalid | OutputWriteFailure =>
      true
  end.

Inductive OutputMode : Type := Full | Compressed | Minimized.

Record OutputArtifact : Type := {
  stream : list pystr;              (* the primary artifact, by lines *)
  derivative : option (list pystr); (* its compressed or minimized form *)
  entryCount : nat;
  skippedSources : nat;
  malformedLines : nat
}.

(** The collaborators outside the core: the check of the options; the
    clock, whose reading is the generation timestamp; the template of
    the header, which is given the timestamp, the entry count and the
    names of the sources; the destination; the layout of the compressed
    lines, which the specification leaves open; the lower-casing of
    Unicode text ([str.lower], whose tables are not part of the model);
    and [re.compile] on the patterns outside the fragment of [Re]:
    [None] when it raises, else the [fullmatch] of what it compiled. *)
Class Collaborators : Type := {
  valid_configuration : Config -> bool;
  clock : pystr;
  render_header : pystr -> nat -> list pystr -> list pystr;
  compress_lines : pystr -> list pystr -> list pystr;
  destination_writable : list pystr -> bool;
  lowercase : pystr -> pystr;
  compile_outside : pystr -> option (pystr -> bool)
}.

(** ** Source Reader *)

(** The white space of [str.split] and [str.strip]. *)
Definition is_space (c : N) : bool :=
  ((9 <=? c) && (c <=? 13)) || ((28 <=? c) && (c <=? 32))
  || (c =? 133) || (c =? 160) || (c =? 5760)
  || ((8192 <=? c) && (c <=? 8202))
  || (c =? 8232) || (c =? 8233) || (c =? 8239) || (c =? 8287)
  || (c =? 12288).

Fixpoint lstrip (s : pystr) : pystr :=
  match s with
  | c :: s' => if is_space c then lstrip s' else s
  | [] => []
  end.

Definition strip (s : pystr) : pystr := rev (lstrip (rev (lstrip s))).

(** The words of [s], with [cur] the word being read, reversed. *)
Fixpoint words_from (cur : pystr) (s : pystr) : list pystr :=
  match s with
  | [] => match cur with [] => [] | _ => [rev cur] end
  | c :: s' =>
      if is_space c
      then match cur with
           | [] => words_from [] s'
           | _ => rev cur :: words_from [] s'
           end
      else words_from (c :: cur) s'
  end.

Definition words (s : pystr) : list pystr := words_from [] s.

(** A character of the name of a protocol: a letter, a digit, [+], [-]
    or [.]. *)
Definition scheme_char (c : N) : bool :=
  Re.is_alnum c || chr_is c "+" || chr_is c "-" || chr_is c ".".

(** What follows the name of a protocol and its [://]. *)
Fixpoint after_scheme (s : pystr) : option pystr :=
  match s with
  | c :: s' =>
      if chr_is c ":" then
        match s' with
        | a :: b :: rest =>
            if chr_is a "/" && chr_is b "/" then Some rest else None
        | _ => None
        end
      else if scheme_char c then after_scheme s'
      else None
  | [] => None
  end.

(** What follows a protocol prefix such as [http://], whose name begins
    with a letter. *)
Definition after_protocol (s : pystr) : option pystr :=
  match s with
  | c :: _ =>
      if Re.is_alnum c && negb (Re.is_digit c) then after_scheme s else None
  | [] => None
  end.

(** The text without its protocol prefixes. *)
Fixpoint strip_protocols (fuel : nat) (s : pystr) : pystr :=
  match fuel with
  | O => s
  | S fuel' =>
      match after_protocol s with
      | Some rest => strip_protocols fuel' rest
      | None => s
      end
  end.

Definition strip_trailing_dot (s : pystr) : pystr :=
  match rev s with
  | c :: r => if chr_is c "." then rev r else s
  | [] => s
  end.

Inductive LineResult : Type :=
| Blank
| CommentOnly
| Malformed
| Entry (e : NormalizedEntry).

Section Reader.
Context `{Collaborators}.

(** Modelled from the spec: the domain of a record, lower-cased and
    stripped of its protocol prefixes and of a trailing dot. *)
Definition normalise (d : pystr) : pystr :=
  let d' := lowercase d in
  strip_trailing_dot (strip_protocols (length d') d').

(** Modelled from the spec: the normalization rules 1 to 4 of the
    Source Reader, whose code is not in the file. *)
Definition read_line (order : nat) (line : pystr) : LineResult :=
  match strip line with
  | [] => Blank
  | c :: rest =>
      if chr_is c "#" then CommentOnly
      else
        let '(body, remark) :=
          match split_once 35 (c :: rest) with
          | Some (b, r) => (b, Some (strip r))
          | None => (c :: rest, None)
          end in
        let entry (d : pystr) :=
          match normalise d with
          | [] => Malformed
          | d' =>
              if existsb is_space d' then Malformed
              else Entry {| domain := d'; comment := remark;
                            sourceOrder := order |}
          end in
        match words body with
        | [d] => entry d
        | [_; d] => entry d
        | _ => Malformed
        end
  end.

Record Reading : Type := {
  entries : list NormalizedEntry;
  unreadable : nat;
  malformed : nat
}.

Definition no_reading : Reading :=
  {| entries := []; unreadable := 0; malformed := 0 |}.

Definition read_lines (order : nat) (acc : Reading) (lines : list pystr)
  : Reading :=
  fold_left
    (fun acc line =>
       match read_line order line with
       | Entry e => {| entries := entries acc ++ [e];
                       unreadable := unreadable acc;
                       malformed := malformed acc |}
       | Malformed => {| entries := entries acc;
                         unreadable := unreadable acc;
                         malformed := S (malformed acc) |}
       | Blank | CommentOnly => acc
       end)
    lines acc.

(** Modelled from the spec: the failure policy of the Source Reader.  A
    source that cannot be opened is counted and the next one is read. *)
Fixpoint read_sources (order : nat) (acc : Reading)
    (srcs : list SourceFile) : Reading :=
  match srcs with
  | [] => acc
  | src :: srcs' =>
      match content src with
      | None =>
          read_sources (S order)
            {| entries := entries acc; unreadable := S (unreadable acc);
               malformed := malformed acc |} srcs'
      | Some lines =>
          read_sources (S order) (read_lines order acc lines) srcs'
      end
  end.

End Reader.

(** ** Exclusion Engine *)

(** The pattern of one blacklist line: the exclusion pattern prefixed
    onto a literal domain, or the line itself when it is a pattern. *)
Definition entry_pattern (exclusionpattern : pystr) (e : BlacklistEntry)
  : pystr :=
  match e with
  | Literal d => exclusionpattern ++ d
  | Pattern p => p
  end.

Section Exclusion.
Context `{Collaborators}.

(** [re.compile]: [None] is [re.error]. *)
Definition compile_pattern (p : pystr) : option CompiledPattern :=
  match Re.compile p with
  | Re.Parsed r => Some (Modelled r)
  | Re.ReError => None
  | Re.Outside =>
      match compile_outside p with
      | Some m => Some (Foreign m)
      | None => None
      end
  end.

Fixpoint compile_all (patterns : list pystr)
  : option (list CompiledPattern) :=
  match patterns with
  | [] => Some []
  | p :: ps =>
      match compile_pattern p, compile_all ps with
      | Some r, Some rs => Some (r :: rs)
      | _, _ => None
      end
  end.

Definition literals (bl : list BlacklistEntry) : list pystr :=
  omap (fun e => match e with Literal d => Some d | Pattern _ => None end) bl.

(** Modelled from the spec: [build] of the Exclusion Engine, whose code
    is not in the file.  The common exclusions are literal entries;
    [None] is the error ExclusionPatternInvalid. *)
Definition build (bl : list BlacklistEntry) (wl common : list pystr)
    (exclusionpattern : pystr) : option ExclusionSet :=
  match compile_all (map (entry_pattern exclusionpattern)
                         (bl ++ map Literal common)) with
  | Some rs =>
      Some {| literalDomains := list_to_set (literals bl ++ common);
              regexPatterns := rs;
              whitelisted := list_to_set wl |}
  | None => None
  end.

(** Modelled from the spec: [isExcluded] of the Exclusion Engine, whose
    code is not in the file.  The whitelist is checked first; then a
    domain is excluded if it equals a literal entry or matches a
    compiled pattern. *)
Definition isExcluded (es : ExclusionSet) (d : pystr) : bool :=
  if bool_decide (d ∈ whitelisted es) then false
  else bool_decide (d ∈ literalDomains es)
       || existsb (fun r => matches r d) (regexPatterns es).

End Exclusion.

(** ** Merge-Dedupe Engine *)

Definition domains (t : MergedTable) : list pystr := map domain t.

Definition present (d : pystr) (t : MergedTable) : bool :=
  bool_decide (d ∈ domains t).

(** Modelled from the spec: insertion into the merged table, first seen
    wins. *)
Definition insert_entry (t : MergedTable) (e : NormalizedEntry)
  : MergedTable :=
  if present (domain e) t then t else t ++ [e].

Definition accept (es : ExclusionSet) (t : MergedTable)
    (e : NormalizedEntry) : MergedTable :=
  if isExcluded es (domain e) then t else insert_entry t e.

(** Modelled from the spec: [merge] of the Merge-Dedupe Engine, whose
    code is not in the file, over the entries of the sources in the
    order of the sources. *)
Definition merge (es : ExclusionSet) (records : list NormalizedEntry)
  : MergedTable :=
  fold_left (accept es) records [].

(** ** Formatter *)

(** Modelled from the spec: the line of one entry. *)
Definition format_entry (targetip : pystr) (keepComments : bool)
    (e : NormalizedEntry) : pystr :=
  targetip ++ u " " ++ domain e ++
  match comment e with
  | Some c => if keepComments then u " # " ++ c else []
  | None => []
  end.

(** Modelled from the spec: the static entries that it names. *)
Definition static_entries : list pystr :=
  [u "127.0.0.1 localhost"; u "::1 localhost"].

Definition format_body (t : MergedTable) (targetip : pystr)
    (keepComments skipStatic : bool) : list pystr :=
  (if skipStatic then [] else static_entries)
  ++ map (format_entry targetip keepComments) t.

(** Modelled from the spec: [format] of the Formatter, whose code is not
    in the file: the header with the generation timestamp, the entry
    count and the names of the sources, then the static entries, then
    the table. *)
Definition format `{Collaborators} (names : list pystr) (t : MergedTable)
    (targetip : pystr) (keepComments skipStatic : bool) : list pystr :=
  render_header clock (length t) names
  ++ format_body t targetip keepComments skipStatic.

(** ** Post-Processors *)

(** Modelled from the spec: the Minimizer, whose code is not in the
    file: every comment-only and blank line goes. *)
Definition minimise_lines (lines : list pystr) : list pystr :=
  List.filter (fun l => match strip l with
                        | [] => false
                        | c :: _ => negb (chr_is c "#")
                        end) lines.

(** The choice of [main] between its three branches. *)
Definition output_mode (cfg : Config) : OutputMode :=
  if compress cfg then Compressed
  else if minimise cfg then Minimized
  else Full.

(** ** The run *)

Inductive State : Type :=
| Idle
| Reading_
| Excluding (r : Reading)
| Merging (r : Reading) (es : ExclusionSet)
| Formatting (r : Reading) (t : MergedTable)
| PassThrough (r : Reading) (t : MergedTable) (lines : list pystr)
| Compressing (r : Reading) (t : MergedTable) (lines : list pystr)
| Minimizing (r : Reading) (t : MergedTable) (lines : list pystr)
| Done (out : OutputArtifact)
| Aborted (e : Error).

Definition artifact (r : Reading) (t : MergedTable) (lines : list pystr)
    (d : option (list pystr)) : OutputArtifact :=
  {| stream := lines; derivative := d; entryCount := length t;
     skippedSources := unreadable r; malformedLines := malformed r |}.

Definition produced (out : OutputArtifact) : list pystr :=
  match derivative out with
  | Some d => d
  | None => stream out
  end.

Section Run.
Context `{Collaborators}.
Variable cfg : Config.
Variable inp : Inputs.

Definition finish (out : OutputArtifact) : State :=
  if destination_writable (produced out) then Done out
  else Aborted OutputWriteFailure.

(** Modelled from the spec: the state machine of a run. *)
Inductive step : State -> State -> Prop :=
| step_start :
    valid_configuration cfg = true -> step Idle Reading_
| step_reject :
    valid_configuration cfg = false ->
    step Idle (Aborted InvalidConfiguration)
| step_read :
    step Reading_ (Excluding (read_sources 0 no_reading (sources inp)))
| step_build r es :
    build (blacklist inp) (whitelist inp) (commonExclusions inp)
          (exclusionPattern cfg) = Some es ->
    step (Excluding r) (Merging r es)
| step_bad_pattern r :
    build (blacklist inp) (whitelist inp) (commonExclusions inp)
          (exclusionPattern cfg) = None ->
    step (Excluding r) (Aborted ExclusionPatternInvalid)
| step_merge r es :
    step (Merging r es) (Formatting r (merge es (entries r)))
| step_format r t lines next :
    lines = format (map path (sources inp)) t (targetIp cfg)
                   (keepDomainComments cfg) (skipStaticBlackhole cfg) ->
    next = match output_mode cfg with
           | Full => PassThrough r t lines
           | Compressed => Compressing r t lines
           | Minimized => Minimizing r t lines
           end ->
    step (Formatting r t) next
| step_pass r t lines :
    step (PassThrough r t lines) (finish (artifact r t lines None))
| step_compress r t lines :
    step (Compressing r t lines)
         (finish (artifact r t lines
                           (Some (compress_lines (targetIp cfg) lines))))
| step_minimise r t lines :
    step (Minimizing r t lines)
         (finish (artifact r t lines (Some (minimise_lines lines)))).

Inductive steps : State -> State -> Prop :=
| steps_refl s : steps s s
| steps_step s1 s2 s3 : step s1 s2 -> steps s2 s3 -> steps s1 s3.

Definition terminal (s : State) : Prop :=
  match s with
  | Done _ | Aborted _ => True
  | _ => False
  end.

(** A whole run, as a function. *)
Definition run : Error + OutputArtifact :=
  if negb (valid_configuration cfg) then inl InvalidConfiguration
  else
    let r := read_sources 0 no_reading (sources inp) in
    match build (blacklist inp) (whitelist inp) (commonExclusions inp)
                (exclusionPattern cfg) with
    | None => inl ExclusionPatternInvalid
    | Some es =>
        let t := merge es (entries r) in
        let lines := format (map path (sources inp)) t (targetIp cfg)
                       (keepDomainComments cfg) (skipStaticBlackhole cfg) in
        let out :=
          artifact r t lines
            match output_mode cfg with
            | Full => None
            | Compressed => Some (compress_lines (targetIp cfg) lines)
            | Minimized => Some (minimise_lines lines)
            end in
        if destination_writable (produced out) then inr out
        else inl OutputWriteFailure
    end.

Definition outcome (r : Error + OutputArtifact) : State :=
  match r with
  | inl e => Aborted e
  | inr out => Done out
  end.

End Run.

End Core.

(* ================================================================== *)
(** * Python's [str] methods and formats used by [updateReadme.py] *)
(* ================================================================== *)

(** Replacement from the left: [skip] characters of a match that began
    earlier are still to be passed over. *)
Fixpoint replace_from (old new : pystr) (skip : nat) (s : pystr) : pystr :=
  match s with
  | [] => []
  | c :: s' =>
      match skip with
      | S k => replace_from old new k s'
      | O =>
          if startswith s old
          then new ++ replace_from old new (pred (length old)) s'
          else c :: replace_from old new 0 s'
      end
  end.

(** [s.replace(old, new)]: every occurrence of [old], from the left and
    without overlap; an empty [old] matches before every character and at
    the end. *)
Definition str_replace (s old new : pystr) : pystr :=
  match old with
  | [] => new ++ flat_map (fun c => c :: new) s
  | _ :: _ => replace_from old new 0 s
  end.

Fixpoint count_from (sub : pystr) (skip : nat) (s : pystr) : nat :=
  match s with
  | [] => 0
  | c :: s' =>
      match skip with
      | S k => count_from sub k s'
      | O =>
          if startswith s sub
          then S (count_from sub (pred (length sub)) s')
          else count_from sub 0 s'
      end
  end.

(** [s.count(sub)]: the occurrences of [sub] that do not overlap. *)
Definition str_count (s sub : pystr) : nat :=
  match sub with
  | [] => S (length s)
  | _ :: _ => count_from sub 0 s
  end.

(** [sep.join(parts)] *)
Fixpoint str_join (sep : pystr) (parts : list pystr) : pystr :=
  match parts with
  | [] => []
  | [p] => p
  | p :: rest => p ++ sep ++ str_join sep rest
  end.

(** The digits of a decimal number, most significant first. *)
Fixpoint uint_chars (d : Decimal.uint) : pystr :=
  match d with
  | Decimal.Nil => []
  | Decimal.D0 d' => 48 :: uint_chars d'
  | Decimal.D1 d' => 49 :: uint_chars d'
  | Decimal.D2 d' => 50 :: uint_chars d'
  | Decimal.D3 d' => 51 :: uint_chars d'
  | Decimal.D4 d' => 52 :: uint_chars d'
  | Decimal.D5 d' => 53 :: uint_chars d'
  | Decimal.D6 d' => 54 :: uint_chars d'
  | Decimal.D7 d' => 55 :: uint_chars d'
  | Decimal.D8 d' => 56 :: uint_chars d'
  | Decimal.D9 d' => 57 :: uint_chars d'
  end.

(** [str(n)] for a natural number. *)
Definition digits_of (n : N) : pystr := uint_chars (N.to_uint n).

(** [str(z)] for an [int]. *)
Definition str_of_int (z : Z) : pystr :=
  (if (z <? 0)%Z then [45] else []) ++ digits_of (Z.abs_N z).

(** A comma before every group of three digits, over the digits from
    the least significant one; [k] digits of the group are out. *)
Fixpoint commas_from (k : nat) (rev_digits : pystr) : pystr :=
  match rev_digits with
  | [] => []
  | d :: rest =>
      match k with
      | 3%nat => 44 :: d :: commas_from 1 rest
      | _ => d :: commas_from (S k) rest
      end
  end.

(** ["{:,}".format(z)] for an [int]: the digits in groups of three. *)
Definition format_thousands (z : Z) : pystr :=
  (if (z <? 0)%Z then [45] else [])
  ++ rev (commas_from 0 (rev (digits_of (Z.abs_N z)))).

(** The decimal digits at the head of a text, and what follows them. *)
Fixpoint leading_digits (s : pystr) : pystr * pystr :=
  match s with
  | c :: s' =>
      if (48 <=? c) && (c <=? 57)
      then let '(digits, rest) := leading_digits s' in (c :: digits, rest)
      else ([], s)
  | [] => ([], [])
  end.

(** ["{:,}".format(x)] for a [float], from [repr(x)]: the digits before
    the point or the exponent in groups of three; [inf] and [nan] have
    none. *)
Definition format_thousands_float (repr : pystr) : pystr :=
  let '(sign, magnitude) :=
    match repr with
    | c :: rest => if c =? 45 then ([45], rest) else ([], repr)
    | [] => ([], [])
    end in
  let '(digits, rest) := leading_digits magnitude in
  sign ++ rev (commas_from 0 (rev digits)) ++ rest.

(** A code point that UTF-8 does not encode: a surrogate. *)
Definition is_surrogate (c : N) : bool := (55296 <=? c) && (c <=? 57343).

(** [s.encode("utf-8")] returns. *)
Definition encodable (s : pystr) : bool :=
  forallb (fun c => negb (is_surrogate c)) s.

(** [posixpath.join(a, b)] *)
Definition path_join (a b : pystr) : pystr :=
  if startswith b [47] then b
  else
    match rev a with
    | [] => b
    | c :: _ => if c =? 47 then a ++ b else a ++ [47] ++ b
    end.

(** An ASCII string back from its code points. *)
Fixpoint string_of (s : pystr) : string :=
  match s with
  | [] => EmptyString
  | c :: s' => String (ascii_of_N c) (string_of s')
  end.

(* ================================================================== *)
(** * [updateReadme.py] *)
(* ================================================================== *)

Module Readme.

Inductive exception : Type :=
| KeyError (key : pystr)
| ValueError
| TypeError
| AttributeError
| OSError
| UnicodeEncodeError
| UnicodeDecodeError
| Unmodelled (* a value that the model does not cover *).

Definition result (A : Type) : Type := exception + A.

#[global] Instance result_ret : MRet result := fun A x => inr x.

#[global] Instance result_bind : MBind result :=
  fun A B (f : A -> result B) (m : result A) =>
    match m with
    | inl e => inl e
    | inr x => f x
    end.

(** [d[key]] *)
Definition getitem (d : gmap string pyval) (key : string) : result pyval :=
  match d !! key with
  | Some v => inr v
  | None => inl (KeyError (u key))
  end.

(** [str(v)], for the values whose text the model knows. *)
Definition str_of (v : pyval) : result pystr :=
  match v with
  | VStr s => inr s
  | VInt z => inr (str_of_int z)
  | VBool true => inr (u "True")
  | VBool false => inr (u "False")
  | VNone => inr (u "None")
  | VFloat repr => inr repr
  | VList _ | VDict _ | VObj _ => inl Unmodelled
  end.

(** ["{:,}".format(v)] *)
Definition format_number (v : pyval) : result pystr :=
  match v with
  | VInt z => inr (format_thousands z)
  | VBool true => inr (u "1")
  | VBool false => inr (u "0")
  | VFloat repr => inr (format_thousands_float repr)
  | VStr _ => inl ValueError
  | VNone | VList _ | VDict _ | VObj _ => inl TypeError
  end.

(** ** [string.Template] *)

Definition id_start (c : N) : bool :=
  (c =? 95) || ((65 <=? c) && (c <=? 90)) || ((97 <=? c) && (c <=? 122)).

Definition id_char (c : N) : bool := id_start c || ((48 <=? c) && (c <=? 57)).

(** The longest identifier at the head of [s], and what follows it. *)
Fixpoint span_id (s : pystr) : pystr * pystr :=
  match s with
  | c :: s' =>
      if id_char c then let '(name, rest) := span_id s' in (c :: name, rest)
      else ([], s)
  | [] => ([], [])
  end.

Inductive segment : Type :=
| Text (c : N)
| Field (name : pystr)   (* [$name] or [${name}] *)
| Invalid                (* a dollar sign that starts no placeholder *).

(** The template from the left; [skip] characters belong to the
    placeholder before.  After an invalid placeholder nothing is read. *)
Fixpoint segments_from (skip : nat) (s : pystr) : list segment :=
  match s with
  | [] => []
  | c :: s' =>
      match skip with
      | S k => segments_from k s'
      | O =>
          if negb (c =? 36) then Text c :: segments_from 0 s'
          else
            match s' with
            | [] => [Invalid]
            | c' :: s'' =>
                if c' =? 36 then Text 36 :: segments_from 1 s'
                else if id_start c' then
                  let '(name, _) := span_id s' in
                  Field name :: segments_from (length name) s'
                else if c' =? 123 then
                  match span_id s'' with
                  | (b :: name, d :: _) =>
                      if id_start b && (d =? 125)
                      then Field (b :: name)
                           :: segments_from (length name + 3) s'
                      else [Invalid]
                  | _ => [Invalid]
                  end
                else [Invalid]
            end
      end
  end.

Definition segments (template : pystr) : list segment :=
  segments_from 0 template.

(** The text of the segments, from the left: the first placeholder
    without a value, or without a name, ends it. *)
Fixpoint render (mapping : gmap string pyval) (segs : list segment)
  : result pystr :=
  match segs with
  | [] => inr []
  | Text c :: rest =>
      text ← render mapping rest;
      mret (c :: text)
  | Field name :: rest =>
      v ← getitem mapping (string_of name);
      s ← str_of v;
      text ← render mapping rest;
      mret (s ++ text)
  | Invalid :: _ => inl ValueError
  end.

(** [Template(template).substitute(mapping)] *)
Definition substitute (template : pystr) (mapping : gmap string pyval)
  : result pystr :=
  render mapping (segments template).

(** ** The data of [readmeData.json] *)

(** A [dict] keeps its keys in the order of their insertion; the keys
    of the file are [str], its values are the entries. *)
Definition readme_data : Type := list (pystr * gmap string pyval).

Fixpoint lookup_entry (data : readme_data) (key : pystr)
  : option (gmap string pyval) :=
  match data with
  | [] => None
  | (k, entry) :: rest =>
      if pystr_eqb k key then Some entry else lookup_entry rest key
  end.

(** [data[key]] *)
Definition getentry (data : readme_data) (key : pystr)
  : result (gmap string pyval) :=
  match lookup_entry data key with
  | Some entry => inr entry
  | None => inl (KeyError key)
  end.

(** The entry of [key] after its object has been changed in place. *)
Fixpoint store_entry (key : pystr) (entry : gmap string pyval)
    (data : readme_data) : readme_data :=
  match data with
  | [] => []
  | (k, e) :: rest =>
      if pystr_eqb k key then (k, entry) :: rest
      else (k, e) :: store_entry key entry rest
  end.

(** [entry.get("no_unified_blackhole", False)] in a condition. *)
Definition no_unified_blackhole (entry : gmap string pyval) : bool :=
  truthy (default (VBool false) (entry !! "no_unified_blackhole"%string)).

(** ** [sort_keys] *)

(** The key of the sort: the number of hyphens, then the name, both
    without the [-only] suffix. *)
Definition sort_key (item : pystr) : nat * pystr :=
  (str_count (str_replace item (u "-only") (u "")) (u "-"),
   str_replace item (u "-only") (u "")).

(** The order of Python on tuples of an [int] and a [str]. *)
Definition key_leb (a b : nat * pystr) : bool :=
  (a.1 <? b.1)%nat || ((a.1 =? b.1)%nat && pystr_leb a.2 b.2).

(** [list.sort] is stable: an item goes before the first one whose key
    is not smaller, and items come in from the right. *)
Fixpoint insert_key (item : pystr) (sorted : list pystr) : list pystr :=
  match sorted with
  | [] => [item]
  | other :: rest =>
      if key_leb (sort_key item) (sort_key other) then item :: sorted
      else other :: insert_key item rest
  end.

Definition sort_keys (data : readme_data) : list pystr :=
  foldr insert_key [] (map fst data).

(** ** [format_toc_rows] *)

Definition newline : pystr := [10].

Definition toc_template : pystr :=
  u "${description} | [Readme](https://github.com/KhulnaSoft/"
  ++ u "blackhole/blob/master/${location}readme.md) | "
  ++ u "[link](https://raw.githubusercontent.com/KhulnaSoft/"
  ++ u "blackhole/master/${location}blackhole) | "
  ++ u "${fmtentries} | "
  ++ u "[link](http://sbc.io/blackhole/${location}blackhole)".

Definition description (key : pystr) (entry : gmap string pyval) : pystr :=
  if pystr_eqb key (u "base")
  then u "Unified blackhole = **(adware + malware)**"
  else if no_unified_blackhole entry
  then u "**"
       ++ str_replace (str_replace key (u "-only") (u "")) (u "-") (u " + ")
       ++ u "**"
  else u "Unified blackhole **+ " ++ str_replace key (u "-") (u " + ")
       ++ u "**".

(** The receiver of [.replace]: a [str] has the method. *)
Definition with_replace (v : pyval) : result pystr :=
  match v with
  | VStr s => inr s
  | VNone | VBool _ | VInt _ | VFloat _ | VList _ | VDict _ =>
      inl AttributeError
  | VObj _ => inl Unmodelled
  end.

(** The body of the loop, lines 57 to 70: the row of [key], and its
    entry as the loop leaves it. *)
Definition toc_row (key : pystr) (entry : gmap string pyval)
  : result (pystr * gmap string pyval) :=
  entries ← getitem entry "entries";
  fmtentries ← format_number entries;
  let entry := <["fmtentries"%string := VStr fmtentries]> entry in
  let entry :=
    <["description"%string := VStr (description key entry)]> entry in
  location ← getitem entry "location";
  location ← with_replace location;
  let entry :=
    <["location"%string := VStr (str_replace location (u "\") (u "/"))]>
      entry in
  row ← substitute toc_template entry;
  mret (row, entry).

(** The rows of the keys, and the data with the entries that the loop
    has changed in place. *)
Fixpoint toc_rows_of (data : readme_data) (keys : list pystr)
  : result (list pystr * readme_data) :=
  match keys with
  | [] => inr ([], data)
  | key :: keys' =>
      entry ← getentry data key;
      '(row, entry) ← toc_row key entry;
      '(rows, data) ← toc_rows_of (store_entry key entry data) keys';
      mret (row :: rows, data)
  end.

Definition format_toc_rows (data : readme_data) (keys : list pystr)
  : result (pystr * readme_data) :=
  '(rows, data) ← toc_rows_of data keys;
  mret (str_join newline rows ++ newline, data).

(** ** [format_source_rows] *)

Definition row_defaults : gmap string pyval :=
  list_to_map
    [ ("name"%string, VStr (u ""));
      ("homeurl"%string, VStr (u ""));
      ("url"%string, VStr (u ""));
      ("license"%string, VStr (u ""));
      ("issues"%string, VStr (u ""));
      ("description"%string, VStr (u "")) ].

Definition source_template : pystr :=
  u "${name} |[link](${homeurl})"
  ++ u " | [raw](${url}) | ${license} | [issues](${issues})| ${description}".

(** [this_row |= source], for a source that is a [dict]. *)
Definition ior (this_row : gmap string pyval) (source : pyval)
  : result (gmap string pyval) :=
  match source with
  | VDict items => inr (foldl (fun d kv => <[kv.1 := kv.2]> d) this_row items)
  | _ => inl Unmodelled
  end.

Fixpoint source_rows_of (sources : list pyval) : result (list pystr) :=
  match sources with
  | [] => inr []
  | source :: rest =>
      this_row ← ior row_defaults source;
      row ← substitute source_template this_row;
      rows ← source_rows_of rest;
      mret (row :: rows)
  end.

Definition format_source_rows (source_list : pyval) : result pystr :=
  match source_list with
  | VList sources =>
      rows ← source_rows_of sources;
      mret (str_join newline rows ++ newline)
  | _ => inl Unmodelled
  end.

(** ** [update_readme] *)

(** What the script finds outside: the data file; the lines of the
    template (with their line ends) if it can be opened, and whether
    it is UTF-8 throughout: if it is not, the lines are those that are
    read before [UnicodeDecodeError] is raised; the date of the run;
    what [os.makedirs] raises for a path, if anything; the files that
    can be opened for writing; and whether the operating system refuses
    a write (the disk is full, say), given the file and the text that
    it has been handed with this write. *)
Record world : Type := World {
  readme_data_file : result readme_data;
  template_file : option (list pystr);
  template_decodes : bool;
  gen_date : pystr;
  makedirs_raises : pystr -> option exception;
  can_write : pystr -> bool;
  write_raises : pystr -> pystr -> bool
}.

(** What a call of [update_readme] leaves: the text that the target has
    been handed if it was opened for writing, and the error that was
    logged, if any. *)
Record report : Type := Report {
  target : pystr;
  written : option pystr;
  logged : option exception
}.

(** The argument of [os.path.join] and [os.makedirs]. *)
Definition as_path (v : pyval) : result pystr :=
  match v with
  | VStr s => inr s
  | VNone | VBool _ | VInt _ | VFloat _ | VList _ | VDict _ => inl TypeError
  | VObj _ => inl Unmodelled
  end.

(** [os.makedirs(path, exist_ok=True)]: the empty path names no
    directory; for another path the directories are there or are made,
    or the call raises: [OSError], or [ValueError] and
    [UnicodeEncodeError] for a path that is no file name. *)
Definition makedirs (w : world) (path : pystr) : result unit :=
  match path with
  | [] => inl OSError
  | _ :: _ =>
      match makedirs_raises w path with
      | None => inr tt
      | Some e => inl e
      end
  end.

Definition extensions_of (key : pystr) : pystr :=
  str_replace (str_replace key (u "-only") (u "")) (u "-") (u ", ").

Definition extensions_str (key : pystr) : pystr :=
  u "* Extensions: **" ++ extensions_of key ++ u "**.".

Definition extensions_header (key : pystr) (entry : gmap string pyval)
  : pystr :=
  if no_unified_blackhole entry
  then u "Limited to the extensions: " ++ extensions_of key
  else u "Unified blackhole file with " ++ extensions_of key
       ++ u " extensions".

Definition size_history_graph (key : pystr) : pystr :=
  if pystr_eqb key (u "base")
  then u "![Size history](https://raw.githubusercontent.com/KhulnaSoft/"
       ++ u "blackhole/master/blackhole_file_size_history.png)"
  else u "![Size history](stats.png)".

(** Lines 118 to 125: a line of the template with its placeholders
    replaced, one after the other. *)
Definition fill_line (w : world) (key : pystr) (entry : gmap string pyval)
    (toc_rows source_rows : pystr) (line : pystr) : result pystr :=
  let line := str_replace line (u "@GEN_DATE@") (gen_date w) in
  let line := str_replace line (u "@EXTENSIONS@") (extensions_str key) in
  let line :=
    str_replace line (u "@EXTENSIONS_HEADER@") (extensions_header key entry)
  in
  entries ← getitem entry "entries";
  number ← format_number entries;
  let line := str_replace line (u "@NUM_ENTRIES@") number in
  location ← getitem entry "location";
  location ← as_path location;
  let line := str_replace line (u "@SUBFOLDER@") (path_join location (u "")) in
  let line := str_replace line (u "@TOCROWS@") toc_rows in
  let line := str_replace line (u "@SOURCEROWS@") source_rows in
  let line := str_replace line (u "@SIZEHISTORY@") (size_history_graph key) in
  mret line.

(** The loop of lines 117 to 126: the text written so far, and the
    exception that ended the loop, if any.  The file is UTF-8:
    [out_file.write] raises [UnicodeEncodeError] for a line with a
    surrogate, and writes nothing of it; it raises [OSError] when the
    operating system refuses the write. *)
Fixpoint write_lines (fill : pystr -> result pystr)
    (refused : pystr -> bool) (lines : list pystr) (out : pystr)
  : pystr * option exception :=
  match lines with
  | [] => (out, None)
  | line :: rest =>
      match fill line with
      | inl e => (out, Some e)
      | inr text =>
          if encodable text then
            if refused (out ++ text) then (out, Some OSError)
            else write_lines fill refused rest (out ++ text)
          else (out, Some UnicodeEncodeError)
      end
  end.

(** Lines 114 to 129: the template is opened, then the target; the
    lines are written until one of them fails, or until the template
    cannot be decoded further; what fails is logged. *)
Definition write_readme (w : world) (key : pystr)
    (entry : gmap string pyval) (toc_rows source_rows target_readme : pystr)
  : report :=
  match template_file w with
  | None => Report target_readme None (Some OSError)
  | Some lines =>
      if can_write w target_readme then
        let '(out, e) :=
          write_lines (fill_line w key entry toc_rows source_rows)
            (write_raises w target_readme) lines (u "") in
        match e with
        | Some _ => Report target_readme (Some out) e
        | None =>
            if template_decodes w then Report target_readme (Some out) None
            else Report target_readme (Some out) (Some UnicodeDecodeError)
        end
      else Report target_readme None (Some OSError)
  end.

Definition update_readme (w : world) (key : pystr)
    (entry : gmap string pyval) (toc_rows : pystr) : result report :=
  sourcesdata ← getitem entry "sourcesdata";
  source_rows ← format_source_rows sourcesdata;
  location ← getitem entry "location";
  location ← as_path location;
  let target_readme := path_join location (u "readme.md") in
  _ ← makedirs w location;
  mret (write_readme w key entry toc_rows source_rows target_readme).

(** ** [main] *)

(** [load_json] logs what it cannot load and raises it again. *)
Definition load_json (w : world) : result readme_data := readme_data_file w.

(** The loop of lines 138 and 139: the reports of the calls that
    returned, and the exception that ended the loop, if any. *)
Fixpoint update_all (w : world) (data : readme_data) (toc_rows : pystr)
    (keys : list pystr) : list report * option exception :=
  match keys with
  | [] => ([], None)
  | key :: rest =>
      match entry ← getentry data key; update_readme w key entry toc_rows with
      | inl e => ([], Some e)
      | inr r =>
          let '(reports, e) := update_all w data toc_rows rest in
          (r :: reports, e)
      end
  end.

Definition main (w : world) : list report * option exception :=
  match load_json w with
  | inl e => ([], Some e)
  | inr data =>
      let keys := sort_keys data in
      match format_toc_rows data keys with
      | inl e => ([], Some e)
      | inr (toc_rows, data) => update_all w data toc_rows keys
      end
  end.

End Readme.

(* ================================================================== *)
(** * Notions used in the statements *)
(* ================================================================== *)

(** [re.fullmatch(pattern, s)] is a match; a pattern that does not
    compile matches nothing. *)
Definition pattern_matches (pattern s : pystr) : bool :=
  match Re.compile pattern with
  | Re.Parsed r => Re.fullmatch r s
  | _ => false
  end.

Definition as_str (v : pyval) : pystr :=
  match v with
  | VStr s => s
  | _ => []
  end.

(** The value of [exclusionpattern] in the defaults. *)
Definition default_exclusionpattern `{Environment} : pystr :=
  as_str (default VNone (get_defaults !! "exclusionpattern"%string)).

(** The fragment as the specification writes it. *)
Definition spec_exclusionpattern : pystr := u "([a-zA-Z0-9-]+\.){0,}".

(** The set of the pattern in the script, and the set in the fragment
    of the specification. *)
Definition label_set : Re.atom :=
  Re.In false [Re.RANGE 97 122; Re.RANGE 65 90; Re.CATEGORY_DIGIT;
               Re.LITERAL 45].

Definition spec_label_set : Re.atom :=
  Re.In false [Re.RANGE 97 122; Re.RANGE 65 90; Re.RANGE 48 57;
               Re.LITERAL 45].

(** Any number of labels over [set], each followed by a dot. *)
Definition labels_of (set : Re.atom) : Re.regex :=
  Re.Star (Re.Cat (Re.Cat (Re.Atom set) (Re.Star (Re.Atom set)))
                  (Re.Atom (Re.Lit 46))).

(** The characters of a host name label: letters, digits and the
    hyphen. *)
Definition hostname_char (c : N) : bool := Re.is_alnum c || (c =? 45).

Definition is_label (l : pystr) : bool :=
  match l with
  | [] => false
  | _ => forallb hostname_char l
  end.

(** A label as the default exclusion pattern reads one: letters, decimal
    digits and hyphens, at least one. *)
Definition pattern_label (l : pystr) : bool :=
  match l with
  | [] => false
  | _ => forallb (Re.atom_matches label_set) l
  end.

(** The pattern of a text without quantifiers, sets or escapes: every
    character stands for itself, and the dot for any character. *)
Definition text_atom (c : N) : Re.atom :=
  if c =? 46 then Re.AnyChar else Re.Lit c.

Fixpoint atoms (l : list Re.atom) : Re.regex :=
  match l with
  | [] => Re.Eps
  | [a] => Re.Atom a
  | a :: l' => Re.Cat (Re.Atom a) (atoms l')
  end.

(** [labels] in front of [base], each followed by a dot: with no label,
    [base] itself. *)
Definition subdomain (labels : list pystr) (base : pystr) : pystr :=
  flat_map (fun l => l ++ [46]) labels ++ base.

(** An environment to run the definitions in: POSIX paths under
    [/opt/blackhole], and extension directories as listed. *)
Definition posix_join (a b : pyval) : pyval :=
  match a, b with
  | VStr x, VStr y => VStr (x ++ u "/" ++ y)
  | _, _ => VNone
  end.

Definition posix_environment (listing : list pystr) : Environment :=
  {| BASEDIR_PATH := u "/opt/blackhole";
     path_join_robust := posix_join;
     list_dir_no_hidden := fun _ => listing;
     helper := fun _ _ => VNone |}.

(** The pattern of the blacklist entry [e] compiles, and matches the
    whole of [d]. *)
Definition entry_excludes `{Core.Collaborators} (pattern : pystr)
    (e : Core.BlacklistEntry) (d : pystr) : bool :=
  match Core.compile_pattern (Core.entry_pattern pattern e) with
  | Some m => Core.matches m d
  | None => false
  end.

(** The pattern of the blacklist entry [e] is an invalid regex:
    [re.compile] raises [re.error] on it. *)
Definition invalid_regex `{Core.Collaborators} (pattern : pystr)
    (e : Core.BlacklistEntry) : Prop :=
  Core.compile_pattern (Core.entry_pattern pattern e) = None.

(** Lower case of the letters A to Z, which is [str.lower] on ASCII
    text. *)
Definition ascii_lower (s : pystr) : pystr :=
  map (fun c => if (65 <=? c) && (c <=? 90) then c + 32 else c) s.

(** Collaborators to run the definitions with: every configuration is
    valid, the header is one line with the timestamp, the destination
    can be written, and [re] is given no pattern outside the
    fragment. *)
Definition example_collaborators : Core.Collaborators :=
  {| Core.valid_configuration := fun _ => true;
     Core.clock := u "2024-01-01 00:00:00";
     Core.render_header := fun now _ _ => [u "# Date: " ++ now];
     Core.compress_lines := fun _ lines => lines;
     Core.destination_writable := fun _ => true;
     Core.lowercase := ascii_lower;
     Core.compile_outside := fun _ => None |}.

(** The same collaborators, at another reading of the clock. *)
Definition at_time `{C : Core.Collaborators} (now : pystr)
  : Core.Collaborators :=
  {| Core.valid_configuration := Core.valid_configuration;
     Core.clock := now;
     Core.render_header := Core.render_header;
     Core.compress_lines := Core.compress_lines;
     Core.destination_writable := Core.destination_writable;
     Core.lowercase := Core.lowercase;
     Core.compile_outside := Core.compile_outside |}.

(** The exclusions of a blacklist with the one entry [example.com], a
    whitelist and the common exclusions of the defaults. *)
Definition example_exclusions (wl : list pystr) : Core.ExclusionSet :=
  default {| Core.literalDomains := ∅; Core.regexPatterns := [];
             Core.whitelisted := ∅ |}
    (@Core.build example_collaborators
       [Core.Literal (u "example.com")] wl [u "hulu.com"]
       (u "([a-zA-Z\d-]+\.){0,}")).

(** A checkout with three extensions. *)
Definition example_environment : Environment :=
  posix_environment [u "/opt/blackhole/extensions/porn";
                     u "/opt/blackhole/extensions/gambling";
                     u "/opt/blackhole/extensions/fakenews"].

(** The options of a command line, when it parses. *)
Definition options_of (argv : list pystr) : gmap string pyval :=
  match Argparse.parse_args (@parser example_environment) argv with
  | inr options => options
  | inl _ => ∅
  end.

(** ** The command line and the calls of [main] *)

(** The word [t] is the flag [-k]: the short option, the long one, or an
    abbreviation of the long one. *)
Definition supplies_keepdomaincomments (t : pystr) : bool :=
  bool_decide (t = u "-k")
  || ((3 <=? length t)%nat && startswith (u "--keepdomaincomments") t).

(** The word [t] is read as an option that sets the attribute [key]. *)
Definition sets_flag (parser : list Argparse.argument) (key : string)
    (t : pystr) : bool :=
  match Argparse.classify parser t with
  | Argparse.Option a None => bool_decide (Argparse.dest a = key)
  | _ => false
  end.

(** What the parser waits for has an action that takes values. *)
Definition waits_for_values (parser : list Argparse.argument)
    (st : Argparse.state) : Prop :=
  match Argparse.waiting st with
  | Argparse.Top => True
  | Argparse.Value a => a ∈ parser /\ Argparse.act a = Argparse.store
  | Argparse.Values a _ => a ∈ parser /\ Argparse.act a = Argparse.store_star
  end.

Definition is_postprocessor (c : call) : bool :=
  String.eqb (callee c) "compress_file"
  || String.eqb (callee c) "minimise_file".

(** The calls of a trace that apply a post-processor. *)
Definition applied (tr : list call) : list call :=
  List.filter is_postprocessor tr.

Definition called (name : string) (tr : list call) : Prop :=
  exists args, Call name args ∈ tr.

(** [m] extends the trace, by calls that satisfy [P]. *)
Definition always {A} (P : call -> Prop) (m : M A) : Prop :=
  forall tr, exists new, snd (m tr) = tr ++ new /\ Forall P new.

(** The call hands [pattern] to the helper that collects the exclusions,
    as its exclusion pattern. *)
Definition hands_over (pattern : pyval) (c : call) : Prop :=
  callee c = "display_exclusion_options"%string ->
  exists commonexclusions exclusion_regexes,
    arguments c = [commonexclusions; pattern; exclusion_regexes].

(** [m] extends the trace, by at most [n] calls of a post-processor. *)
Definition emits {A} (m : M A) (n : nat) : Prop :=
  forall tr, exists new,
    snd (m tr) = tr ++ new /\ (length (applied new) <= n)%nat.

(** ** The table and the lines of the output *)

(** The records whose domain is not in [seen] and has not occurred
    before, in their order. *)
Fixpoint first_seen (seen : list pystr)
    (records : list Core.NormalizedEntry) : list Core.NormalizedEntry :=
  match records with
  | [] => []
  | e :: rest =>
      if bool_decide (Core.domain e ∈ seen) then first_seen seen rest
      else e :: first_seen (seen ++ [Core.domain e]) rest
  end.

(** A text without white space, and not empty. *)
Definition is_word (s : pystr) : bool :=
  match s with
  | [] => false
  | _ => negb (existsb Core.is_space s)
  end.

(** A word that does not begin a comment. *)
Definition plain_word (s : pystr) : bool :=
  match s with
  | [] => false
  | c :: _ => negb (chr_is c "#") && is_word s
  end.

(** The domain that a line of host syntax names: the word after the
    address.  A comment names none. *)
Definition line_domain (line : pystr) : option pystr :=
  match Core.words line with
  | w :: d :: _ => if plain_word w then Some d else None
  | _ => None
  end.

(** The lines that a run hands to the destination; none when it
    aborts. *)
Definition output (r : Core.Error + Core.OutputArtifact) : list pystr :=
  match r with
  | inr out => Core.produced out
  | inl _ => []
  end.

(** ** What the reader is expected to deliver *)

(** The sources that cannot be opened. *)
Definition count_unreadable (srcs : list Core.SourceFile) : nat :=
  length (List.filter (fun src => match Core.content src with
                                  | None => true
                                  | Some _ => false
                                  end) srcs).

(** The malformed lines of the sources that can be opened. *)
Fixpoint count_malformed `{Core.Collaborators} (order : nat)
    (srcs : list Core.SourceFile) : nat :=
  match srcs with
  | [] => 0
  | src :: srcs' =>
      length (List.filter (fun line => match Core.read_line order line with
                                       | Core.Malformed => true
                                       | _ => false
                                       end)
                          (default [] (Core.content src)))
      + count_malformed (S order) srcs'
  end%nat.

(** The entries of the well-formed lines, source after source. *)
Fixpoint all_entries `{Core.Collaborators} (order : nat)
    (srcs : list Core.SourceFile) : list Core.NormalizedEntry :=
  match srcs with
  | [] => []
  | src :: srcs' =>
      omap (fun line => match Core.read_line order line with
                        | Core.Entry e => Some e
                        | _ => None
                        end)
           (default [] (Core.content src))
      ++ all_entries (S order) srcs'
  end.

(** ** A run to try the definitions on *)

(** The scenario of the specification: two sources, [example.com] on the
    blacklist; and a third source that cannot be opened. *)
Definition example_config : Core.Config :=
  {| Core.targetIp := u "0.0.0.0";
     Core.keepDomainComments := true;
     Core.skipStaticBlackhole := true;
     Core.compress := false;
     Core.minimise := false;
     Core.exclusionPattern := u "([a-zA-Z\d-]+\.){0,}" |}.

Definition example_inputs (wl : list pystr) : Core.Inputs :=
  {| Core.sources :=
       [ {| Core.path := u "A"; Core.variant := None;
            Core.content := Some [u "ads.example.com"; u "foo.com";
                                  u "one two three"] |};
         {| Core.path := u "missing"; Core.variant := None;
            Core.content := None |};
         {| Core.path := u "B"; Core.variant := None;
            Core.content := Some [u "foo.com"; u "bar.com"] |} ];
     Core.blacklist := [Core.Literal (u "example.com")];
     Core.whitelist := wl;
     Core.commonExclusions := [u "hulu.com"] |}.

(** The same run with the static lines, on a source that lists
    [localhost]. *)
Definition example_static_config : Core.Config :=
  {| Core.targetIp := u "0.0.0.0";
     Core.keepDomainComments := true;
     Core.skipStaticBlackhole := false;
     Core.compress := false;
     Core.minimise := false;
     Core.exclusionPattern := u "([a-zA-Z\d-]+\.){0,}" |}.

Definition example_localhost_inputs : Core.Inputs :=
  {| Core.sources :=
       [ {| Core.path := u "A"; Core.variant := None;
            Core.content := Some [u "127.0.0.1 localhost";
                                  u "0.0.0.0 foo.com"] |} ];
     Core.blacklist := [];
     Core.whitelist := [];
     Core.commonExclusions := [u "hulu.com"] |}.

(** Collaborators whose [re] is given the one pattern [^ads\..*], which
    is outside the fragment. *)
Definition example_anchored : Core.Collaborators :=
  {| Core.valid_configuration := fun _ => true;
     Core.clock := u "2024-01-01 00:00:00";
     Core.render_header := fun now _ _ => [u "# Date: " ++ now];
     Core.compress_lines := fun _ lines => lines;
     Core.destination_writable := fun _ => true;
     Core.lowercase := ascii_lower;
     Core.compile_outside :=
       fun p =>
         if bool_decide (p = u "^ads\..*")
         then Some (fun d => startswith d (u "ads.")
                             && forallb (fun c => negb (c =? 10)) d)
         else None |}.

(** The scenario with the lines of a blacklist. *)
Definition example_patterns (bl : list Core.BlacklistEntry) : Core.Inputs :=
  {| Core.sources := Core.sources (example_inputs []);
     Core.blacklist := bl;
     Core.whitelist := [];
     Core.commonExclusions := [u "hulu.com"] |}.

(** ** The readme files *)

(** The number of hyphens and the name that [sort_keys] compares, both
    taken after [-only] has been removed. *)
Definition plain_name (item : pystr) : pystr :=
  str_replace item (u "-only") (u "").

Definition hyphens (item : pystr) : nat := str_count (plain_name item) (u "-").

(** [a] is not after [b] in the order of [sort_keys]. *)
Definition not_after (a b : pystr) : Prop :=
  (hyphens a < hyphens b)%nat
  \/ (hyphens a = hyphens b /\ pystr_le (plain_name a) (plain_name b)).

(** The items of [l] that [sort_keys] cannot tell from [item]. *)
Definition peers (item : pystr) (l : list pystr) : list pystr :=
  List.filter
    (fun x => bool_decide (Readme.sort_key x = Readme.sort_key item)) l.

(** A text without its commas. *)
Definition uncomma (s : pystr) : pystr :=
  List.filter (fun c => negb (c =? 44)) s.

(** The number that a text of decimal digits denotes. *)
Fixpoint decimal_value (acc : N) (s : pystr) : option N :=
  match s with
  | [] => Some acc
  | c :: s' =>
      if (48 <=? c) && (c <=? 57) then decimal_value (10 * acc + (c - 48)) s'
      else None
  end.

(** The integer that a text denotes: digits, after a minus sign or not. *)
Definition int_value (s : pystr) : option Z :=
  match s with
  | [] => None
  | c :: ds =>
      if c =? 45 then (fun n => (- Z.of_N n)%Z) <$> decimal_value 0 ds
      else Z.of_N <$> decimal_value 0 s
  end.

(** The places of the commas in a text, counted from its end. *)
Definition comma_places (s : pystr) : list nat :=
  omap (fun '(i, c) => if c =? 44 then Some i else None)
       (imap (fun i c => (i, c)) (rev s)).

(** An entry that has a number of entries, which is an [int], a [bool]
    or a [float], and a text as its location. *)
Definition well_formed (entry : gmap string pyval) : bool :=
  match entry !! "entries"%string, entry !! "location"%string with
  | Some (VInt _ | VBool _ | VFloat _), Some (VStr _) => true
  | _, _ => false
  end.

(** The entry of [key] as the loop of [format_toc_rows] leaves it. *)
Definition settle (key : pystr) (entry : gmap string pyval)
  : gmap string pyval :=
  match Readme.toc_row key entry with
  | inr (_, entry') => entry'
  | inl _ => entry
  end.

(** The segment is text, or a field with one of the [names]. *)
Definition names_only (names : list string) (seg : Readme.segment) : bool :=
  match seg with
  | Readme.Text _ => true
  | Readme.Field name => bool_decide (string_of name ∈ names)
  | Readme.Invalid => false
  end.

(** The sign that [str] and [format] put before a negative number. *)
Definition sign (z : Z) : pystr := if (z <? 0)%Z then [45] else [].

(** The value of the field [name] of a source: the last one that the
    source gives, [dflt] where it gives none. *)
Fixpoint field_of (name : string) (items : list (string * pyval))
    (dflt : pyval) : pyval :=
  match items with
  | [] => dflt
  | (k, v) :: rest => field_of name rest (if String.eqb k name then v else dflt)
  end.

(** The text of a value in a row. *)
Definition text_of (v : pyval) : pystr :=
  match Readme.str_of v with
  | inr s => s
  | inl _ => []
  end.

Definition printable (v : pyval) : bool :=
  match Readme.str_of v with
  | inr _ => true
  | inl _ => false
  end.

Definition source_fields : list string :=
  ["name"; "homeurl"; "url"; "license"; "issues"; "description"]%string.

(** The row of a source, field by field. *)
Definition source_row (items : list (string * pyval)) : pystr :=
  let field name := text_of (field_of name items (VStr [])) in
  field "name"%string ++ u " |[link](" ++ field "homeurl"%string
  ++ u ") | [raw](" ++ field "url"%string ++ u ") | "
  ++ field "license"%string ++ u " | [issues](" ++ field "issues"%string
  ++ u ")| " ++ field "description"%string.

(** An entry that [main] can make a readme of: it is well formed, its
    sources are dictionaries with fields that have a text, and the
    directory of its location can be made. *)
Definition ready (w : Readme.world) (entry : gmap string pyval) : Prop :=
  well_formed entry = true
  /\ (exists sources,
        entry !! "sourcesdata"%string = Some (VList (map VDict sources))
        /\ Forall
             (fun items =>
                forallb
                  (fun name => printable (field_of name items (VStr [])))
                  source_fields = true)
             sources)
  /\ exists location,
       entry !! "location"%string = Some (VStr location)
       /\ location <> []
       /\ Readme.makedirs_raises w (str_replace location (u "\") (u "/"))
          = None.

(** ** A readme run *)

Definition example_source : list (string * pyval) :=
  [ ("name"%string, VStr (u "Example hosts"));
    ("url"%string, VStr (u "https://example.org/hosts"));
    ("license"%string, VStr (u "MIT")) ].

Definition example_entry (location : string) (entries : Z)
  : gmap string pyval :=
  list_to_map
    [ ("location"%string, VStr (u location));
      ("entries"%string, VInt entries);
      ("sourcesdata"%string, VList [VDict example_source]) ].

(** Three entries, with the separators of a Windows checkout. *)
Definition example_data : Readme.readme_data :=
  [ (u "fakenews-gambling",
     example_entry "alternates\fakenews-gambling\" 2300);
    (u "base", example_entry "./" 1234567);
    (u "fakenews", example_entry "alternates\fakenews\" 1500) ].

(** Data whose number of entries is a [float]. *)
Definition example_float_data : Readme.readme_data :=
  [ (u "base",
     <["entries"%string := VFloat (u "1234.5")]> (example_entry "./" 0)) ].

(** An entry whose location holds a surrogate, as [json.load] reads it
    from an escape. *)
Definition example_surrogate_entry : gmap string pyval :=
  <["location"%string := VStr (u "alt" ++ [55296] ++ u "/")]>
    (example_entry "./" 7).

Definition example_template : list pystr :=
  [ u "# Hosts of @GEN_DATE@" ++ Readme.newline;
    u "@EXTENSIONS_HEADER@: @NUM_ENTRIES@ entries in @SUBFOLDER@"
      ++ Readme.newline;
    u "@TOCROWS@";
    u "@SOURCEROWS@" ].

Definition plain_template : list pystr :=
  [ u "# Hosts" ++ Readme.newline; u "Nothing to fill in." ++ Readme.newline ].

(** A checkout where every directory can be made and every file can be
    written. *)
Definition example_world (data : Readme.readme_data)
    (template : list pystr) : Readme.world :=
  {| Readme.readme_data_file := inr data;
     Readme.template_file := Some template;
     Readme.template_decodes := true;
     Readme.gen_date := u "November 04 2026";
     Readme.makedirs_raises := fun _ => None;
     Readme.can_write := fun _ => true;
     Readme.write_raises := fun _ _ => false |}.

(** What [format_toc_rows] returns for the keys in their order, when it
    returns. *)
Definition toc_of (data : Readme.readme_data) : pystr * Readme.readme_data :=
  match Readme.format_toc_rows data (Readme.sort_keys data) with
  | inr out => out
  | inl _ => ([], data)
  end.

(** The row of an entry, when it has one. *)
Definition row_of (key : pystr) (entry : gmap string pyval) : pystr :=
  match Readme.toc_row key entry with
  | inr (row, _) => row
  | inl _ => []
  end.

(** The report of [update_readme], when it returns. *)
Definition report_at (w : Readme.world) (key : pystr)
    (entry : gmap string pyval) (toc_rows : pystr) : Readme.report :=
  match Readme.update_readme w key entry toc_rows with
  | inr r => r
  | inl _ => Readme.Report [] None None
  end.

(** An environment in which every prompt is answered with yes. *)
Definition eager_environment : Environment :=
  {| BASEDIR_PATH := u "/opt/blackhole";
     path_join_robust := posix_join;
     list_dir_no_hidden := fun _ => [];
     helper := fun _ _ => VBool true |}.

(* ================================================================== *)
(** * Properties of the matcher *)
(* ================================================================== *)

Section ReFacts.
Import Re.

Lemma nullable_lang r : nullable r = true <-> lang r [].
Proof.
  induction r as [| |a|r1 IH1 r2 IH2|r1 IH1 r2 IH2|r IH]; simpl.
  - split; [discriminate | inversion 1].
  - split; [constructor | reflexivity].
  - split; [discriminate | inversion 1].
  - rewrite andb_true_iff, IH1, IH2. split.
    + intros [H1 H2]. change (@nil N) with (@nil N ++ []).
      by constructor.
    + inversion 1 as [| |? ? s1 s2 H1 H2| | | |]; subst.
      destruct s1, s2; try discriminate. by split.
  - rewrite orb_true_iff, IH1, IH2. split.
    + intros [H1|H2]; [by apply lang_alt_l | by apply lang_alt_r].
    + inversion 1; subst; [by left | by right].
  - split; [constructor | reflexivity].
Qed.

(** A non-empty word of a starred pattern starts with a non-empty word
    of the pattern. *)
Lemma lang_star_cons r c s :
  lang (Star r) (c :: s) ->
  exists s1 s2, s = s1 ++ s2 /\ lang r (c :: s1) /\ lang (Star r) s2.
Proof.
  intros Hl. remember (Star r) as r' eqn:Hr. remember (c :: s) as w eqn:Hw.
  revert c s Hw.
  induction Hl as [|a0 c0 Ha|q1 q2 t1 t2 _ _ _ _|q1 q2 t _ _|q1 q2 t _ _|q
                  |r0 s1 s2 H1 _ H2 IH2]; intros c s Hw;
    try discriminate.
  injection Hr as ->.
  destruct s1 as [|c1 s1].
  - simpl in Hw. by apply IH2.
  - simpl in Hw. injection Hw as -> <-. by exists s1, s2.
Qed.

Lemma deriv_lang c r s : lang (deriv c r) s <-> lang r (c :: s).
Proof.
  revert s.
  induction r as [| |a|r1 IH1 r2 IH2|r1 IH1 r2 IH2|r IH]; intros s; simpl.
  - split; inversion 1.
  - split; inversion 1.
  - destruct (atom_matches a c) eqn:Ha; split; inversion 1; subst.
    + by constructor.
    + constructor.
    + congruence.
  - assert (Hcat : lang (Cat (deriv c r1) r2) s <->
                   exists s1 s2, s = s1 ++ s2 /\ lang r1 (c :: s1) /\ lang r2 s2).
    { split.
      - inversion 1; subst. eexists _, _. split; [reflexivity|].
        split; [by apply IH1 | done].
      - intros (s1 & s2 & -> & H1 & H2). constructor; [by apply IH1 | done]. }
    assert (Hsplit : lang (Cat r1 r2) (c :: s) <->
                     (exists s1 s2, s = s1 ++ s2 /\ lang r1 (c :: s1) /\ lang r2 s2)
                     \/ (lang r1 [] /\ lang r2 (c :: s))).
    { split.
      - inversion 1 as [| |? ? s1 s2 H1 H2| | | |]; subst.
        destruct s1 as [|c1 s1]; simplify_eq/=.
        + by right.
        + left. by exists s1, s2.
      - intros [(s1 & s2 & -> & H1 & H2)|[H1 H2]].
        + change (c :: s1 ++ s2) with ((c :: s1) ++ s2). by constructor.
        + change (c :: s) with ([] ++ c :: s). by constructor. }
    rewrite Hsplit.
    destruct (nullable r1) eqn:Hn.
    + apply nullable_lang in Hn. split.
      * inversion 1; subst; [left; by apply Hcat | right; split; [done|]].
        by apply IH2.
      * intros [Hc|[_ H2]]; [apply lang_alt_l; by apply Hcat|].
        apply lang_alt_r. by apply IH2.
    + rewrite Hcat. split; [by left|].
      intros [Hc|[H1 _]]; [done|].
      apply nullable_lang in H1. congruence.
  - split.
    + inversion 1; subst; [apply lang_alt_l; by apply IH1|].
      apply lang_alt_r. by apply IH2.
    + inversion 1; subst; [apply lang_alt_l; by apply IH1|].
      apply lang_alt_r. by apply IH2.
  - split.
    + inversion 1; subst.
      change (c :: s1 ++ s2) with ((c :: s1) ++ s2).
      constructor; [by apply IH | done].
    + intros (s1 & s2 & -> & H1 & H2)%lang_star_cons.
      constructor; [by apply IH | done].
Qed.

(** The matcher decides the language. *)
Lemma fullmatch_lang r s : fullmatch r s = true <-> lang r s.
Proof.
  revert r. induction s as [|c s IH]; intros r; simpl.
  - apply nullable_lang.
  - rewrite IH. apply deriv_lang.
Qed.

(** ** Patterns of the same shape *)

(** [below P r1 r2]: the two patterns differ only in their atoms, and on
    the characters in [P] an atom of [r1] accepts no more than the atom
    of [r2] in its place. *)
Inductive below (P : N -> Prop) : regex -> regex -> Prop :=
| below_empty : below P Empty Empty
| below_eps : below P Eps Eps
| below_atom a b :
    (forall c, P c -> atom_matches a c = true -> atom_matches b c = true) ->
    below P (Atom a) (Atom b)
| below_cat r1 r2 q1 q2 :
    below P r1 q1 -> below P r2 q2 -> below P (Cat r1 r2) (Cat q1 q2)
| below_alt r1 r2 q1 q2 :
    below P r1 q1 -> below P r2 q2 -> below P (Alt r1 r2) (Alt q1 q2)
| below_star r q : below P r q -> below P (Star r) (Star q).

Lemma lang_below P r s :
  lang r s -> forall q, below P r q -> Forall P s -> lang q s.
Proof.
  induction 1 as [|a c Ha|r1 r2 s1 s2 _ IH1 _ IH2|r1 r2 s _ IH|r1 r2 s _ IH
                 |r|r s1 s2 _ IH1 _ IH2]; intros q Hq Hs;
    inversion Hq; subst.
  - constructor.
  - constructor. apply Forall_cons_1 in Hs as [Hc _]. auto.
  - apply Forall_app in Hs as [Hs1 Hs2]. constructor; auto.
  - apply lang_alt_l; auto.
  - apply lang_alt_r; auto.
  - constructor.
  - apply Forall_app in Hs as [Hs1 Hs2].
    constructor; [auto | apply IH2; [by constructor | done]].
Qed.

(** ** Digits *)

Lemma ascii_isdecimal c :
  c < 128 -> unicode_isdecimal c = is_digit c.
Proof.
  intros Hc. unfold unicode_isdecimal, is_digit, unicode_zero_digits.
  cbn [existsb].
  replace (c <? 48 + 10) with (c <=? 57)
    by (apply eq_true_iff_eq; rewrite N.ltb_lt, N.leb_le; lia).
  rewrite <- (orb_false_r ((48 <=? c) && (c <=? 57))) at 2.
  f_equal.
  repeat match goal with
         | |- (?z <=? c) && _ || _ = false =>
             replace (z <=? c) with false
               by (symmetry; apply N.leb_gt; lia);
             cbn [andb orb]
         end.
  reflexivity.
Qed.

Lemma digit_isdecimal c : is_digit c = true -> unicode_isdecimal c = true.
Proof.
  unfold is_digit. intros [H1 H2]%andb_true_iff.
  apply N.leb_le in H1, H2.
  rewrite ascii_isdecimal by lia. unfold is_digit.
  apply andb_true_iff. by rewrite !N.leb_le.
Qed.

End ReFacts.

(* ================================================================== *)
(** * The exclusion pattern *)
(* ================================================================== *)

Section ExclusionPattern.
Import Re.
Context `{Environment}.

Lemma default_exclusionpattern_text :
  default_exclusionpattern = u "([a-zA-Z\d-]+\.){0,}".
Proof. reflexivity. Qed.

Lemma compile_default :
  compile default_exclusionpattern = Parsed (labels_of label_set).
Proof. vm_compute. reflexivity. Qed.

Lemma compile_spec :
  compile spec_exclusionpattern = Parsed (labels_of spec_label_set).
Proof. vm_compute. reflexivity. Qed.

Lemma spec_set_below_default c :
  atom_matches spec_label_set c = true -> atom_matches label_set c = true.
Proof.
  unfold spec_label_set, label_set. cbn [atom_matches existsb item_matches xorb].
  rewrite !orb_false_r, !orb_true_iff.
  intros [?|[?|[Hd|?]]]; auto.
  right; right; left. by apply digit_isdecimal.
Qed.

Lemma default_set_ascii c :
  c < 128 -> atom_matches label_set c = atom_matches spec_label_set c.
Proof.
  intros Hc. unfold spec_label_set, label_set.
  cbn [atom_matches existsb item_matches xorb].
  by rewrite ascii_isdecimal.
Qed.

Lemma labels_of_below (P : N -> Prop) a b :
  (forall c, P c -> atom_matches a c = true -> atom_matches b c = true) ->
  below P (labels_of a) (labels_of b).
Proof. intros Hab. repeat constructor; done. Qed.

End ExclusionPattern.

Section SubdomainExclusion.
Import Re Core.
Context {Env : Environment} {Col : Collaborators}.

(** A label and its dot, any number of times. *)
Lemma hostname_char_in_set c :
  hostname_char c = true -> atom_matches label_set c = true.
Proof.
  unfold hostname_char, is_alnum, label_set.
  cbn [atom_matches existsb item_matches xorb].
  rewrite ?orb_false_r, !orb_true_iff.
  intros [[[Hd|Hu]|Hl]|Hh]; auto.
  right; right; left. by apply digit_isdecimal.
Qed.

Lemma is_label_pattern_label l : is_label l = true -> pattern_label l = true.
Proof.
  destruct l as [|c l]; [done|]. unfold is_label, pattern_label.
  rewrite !forallb_forall. intros Hl x Hx. by apply hostname_char_in_set, Hl.
Qed.

Lemma lang_set_star l :
  forallb (atom_matches label_set) l = true -> lang (Star (Atom label_set)) l.
Proof.
  induction l as [|c l IH]; simpl; [constructor|].
  intros [Hc Hl]%andb_true_iff.
  change (c :: l) with ([c] ++ l).
  constructor; [|by apply IH].
  by constructor.
Qed.

Lemma lang_label l :
  pattern_label l = true ->
  lang (Cat (Cat (Atom label_set) (Star (Atom label_set))) (Atom (Lit 46)))
       (l ++ [46]).
Proof.
  destruct l as [|c l]; [discriminate|]. simpl.
  intros [Hc Hl]%andb_true_iff.
  change (c :: l ++ [46]) with (([c] ++ l) ++ [46]).
  constructor; [|by constructor].
  constructor; [|by apply lang_set_star].
  by constructor.
Qed.

Lemma lang_labels labels :
  forallb pattern_label labels = true ->
  lang (labels_of label_set) (flat_map (fun l => l ++ [46]) labels).
Proof.
  induction labels as [|l labels IH]; simpl; [constructor|].
  intros [Hl Hls]%andb_true_iff.
  constructor; [by apply lang_label | by apply IH].
Qed.

(** ** The words of the pattern are labels *)

Lemma set_star_label l :
  lang (Star (Atom label_set)) l -> forallb (atom_matches label_set) l = true.
Proof.
  induction l as [|c l IH]; [done|].
  intros (s1 & s2 & -> & H1 & H2)%lang_star_cons.
  inversion H1 as [|a c' Hc| | | | |]; subst. simpl.
  apply andb_true_iff. split; [done | by apply IH].
Qed.

(** A word of one label and its dot. *)
Lemma label_of_lang w :
  lang (Cat (Cat (Atom label_set) (Star (Atom label_set))) (Atom (Lit 46))) w ->
  exists l, w = l ++ [46] /\ pattern_label l = true.
Proof.
  inversion 1 as [| |? ? w1 w2 H1 H2| | | |]; subst.
  inversion H1 as [| |? ? w3 w4 H3 H4| | | |]; subst.
  inversion H3 as [|a c Hc| | | | |]; subst.
  inversion H2 as [|a d Hd| | | | |]; subst.
  simpl in Hd. apply N.eqb_eq in Hd as ->.
  exists (c :: w4). split; [done|]. simpl.
  apply andb_true_iff. split; [done | by apply set_star_label].
Qed.

Lemma no_dot_in_label l : pattern_label l = true -> 46 ∉ l.
Proof.
  destruct l as [|c l]; [done|]. unfold pattern_label.
  rewrite forallb_forall. intros Hl Hin.
  apply list_elem_of_In in Hin. apply Hl in Hin. by vm_compute in Hin.
Qed.

(** Two texts that agree up to their first dot. *)
Lemma first_dot (l w a b : pystr) :
  46 ∉ l -> 46 ∉ w -> l ++ 46 :: a = w ++ 46 :: b -> l = w /\ a = b.
Proof.
  revert w. induction l as [|c l IH]; intros [|d w] Hl Hw Heq;
    simplify_eq/=.
  - done.
  - exfalso. apply Hw. left.
  - exfalso. apply Hl. left.
  - apply not_elem_of_cons in Hl as [_ Hl].
    apply not_elem_of_cons in Hw as [_ Hw].
    destruct (IH w Hl Hw) as [-> ->]; done.
Qed.

Lemma labels_of_lang labels :
  Forall (fun l => 46 ∉ l) labels ->
  lang (labels_of label_set) (flat_map (fun l => l ++ [46]) labels) ->
  forallb pattern_label labels = true.
Proof.
  induction 1 as [|l labels Hl _ IH]; [done|]. simpl.
  destruct (l ++ [46] ++ flat_map (fun l => l ++ [46]) labels)
    as [|c s] eqn:Hs; [by destruct l|].
  rewrite <- app_assoc. simpl in Hs |- *. rewrite Hs.
  intros (s1 & s2 & -> & H1 & H2)%lang_star_cons.
  apply label_of_lang in H1 as (w & Hw & Hlabel).
  change (c :: s1 ++ s2) with ((c :: s1) ++ s2) in Hs.
  rewrite Hw, <- app_assoc in Hs. simpl in Hs.
  apply first_dot in Hs as [-> <-];
    [|done|by apply no_dot_in_label].
  apply andb_true_iff. split; [done | by apply IH].
Qed.

Lemma lang_cat_inv r1 r2 s :
  lang (Cat r1 r2) s -> exists s1 s2, s = s1 ++ s2 /\ lang r1 s1 /\ lang r2 s2.
Proof. inversion 1; subst. eauto. Qed.

(** A word of a text pattern has the length of the text. *)
Lemma atoms_length l s : lang (atoms l) s -> length s = length l.
Proof.
  revert s. induction l as [|a [|b l] IH]; intros s; simpl.
  - by inversion 1.
  - by inversion 1.
  - inversion 1 as [| |? ? s1 s2 H1 H2| | | |]; subst.
    inversion H1; subst. simpl. f_equal. by apply IH.
Qed.

(** The pattern that the entry [example.com] compiles to. *)
Lemma compile_example_com :
  compile (default_exclusionpattern ++ u "example.com")
  = Parsed (Cat (labels_of label_set) (atoms (map text_atom (u "example.com"))))
  /\ fullmatch (atoms (map text_atom (u "example.com"))) (u "example.com")
     = true.
Proof. split; vm_compute; reflexivity. Qed.

(** The pattern of the common exclusion of the defaults. *)
Lemma compile_hulu_com :
  exists r,
    compile (default_exclusionpattern ++ u "hulu.com") = Parsed r
    /\ fullmatch r (u "notexample.com") = false.
Proof.
  eexists. split.
  - vm_compute. reflexivity.
  - vm_compute. reflexivity.
Qed.

Lemma compile_pattern_parsed p r :
  compile p = Parsed r -> compile_pattern p = Some (Modelled r).
Proof. unfold compile_pattern. by intros ->. Qed.

Lemma entry_excludes_parsed pattern e r d :
  compile (entry_pattern pattern e) = Parsed r ->
  entry_excludes pattern e d = fullmatch r d.
Proof.
  intros Hc. unfold entry_excludes. by rewrite (compile_pattern_parsed _ _ Hc).
Qed.

Lemma example_com_matches labels :
  forallb pattern_label labels = true ->
  entry_excludes default_exclusionpattern (Literal (u "example.com"))
                 (subdomain labels (u "example.com")) = true.
Proof.
  intros Hl. destruct compile_example_com as [Hc Htail].
  rewrite (entry_excludes_parsed default_exclusionpattern
               (Literal (u "example.com")) _ _ Hc).
  apply fullmatch_lang. unfold subdomain.
  constructor; [by apply lang_labels | by apply fullmatch_lang].
Qed.

Lemma example_com_labels labels :
  Forall (fun l => 46 ∉ l) labels ->
  entry_excludes default_exclusionpattern (Literal (u "example.com"))
                 (subdomain labels (u "example.com")) = true ->
  forallb pattern_label labels = true.
Proof.
  intros Hdots. destruct compile_example_com as [Hc Htail].
  rewrite (entry_excludes_parsed default_exclusionpattern
               (Literal (u "example.com")) _ _ Hc).
  clear Hc Htail.
  assert (Hlen : length (map text_atom (u "example.com"))
                 = length (u "example.com")) by apply length_map.
  revert Hlen. unfold subdomain.
  generalize (map text_atom (u "example.com")) (u "example.com").
  intros l base Hlen Hm%fullmatch_lang.
  apply lang_cat_inv in Hm as (s1 & s2 & Hd & Hs1 & Hs2).
  apply labels_of_lang; [done|].
  apply atoms_length in Hs2.
  apply app_inj_2 in Hd as [-> _]; [done | congruence].
Qed.

(** ** What [build] puts into the set *)

Lemma compile_all_In patterns rs p :
  compile_all patterns = Some rs -> p ∈ patterns ->
  exists r, compile_pattern p = Some r /\ r ∈ rs.
Proof.
  revert rs. induction patterns as [|q ps IH]; intros rs Hc Hp.
  - by apply not_elem_of_nil in Hp.
  - simpl in Hc. destruct (compile_pattern q) as [r|] eqn:Hq; [|done].
    destruct (compile_all ps) as [rs'|]; [|done]. simplify_eq.
    apply elem_of_cons in Hp as [->|Hp].
    + exists r. split; [done | left].
    + destruct (IH rs' eq_refl Hp) as (r' & ? & ?).
      exists r'. split; [done | by right].
Qed.

Lemma compile_all_from patterns rs r :
  compile_all patterns = Some rs -> r ∈ rs ->
  exists p, p ∈ patterns /\ compile_pattern p = Some r.
Proof.
  revert rs. induction patterns as [|q ps IH]; intros rs Hc Hr.
  - simpl in Hc. simplify_eq. by apply not_elem_of_nil in Hr.
  - simpl in Hc. destruct (compile_pattern q) as [r0|] eqn:Hq; [|done].
    destruct (compile_all ps) as [rs'|]; [|done]. simplify_eq.
    apply elem_of_cons in Hr as [->|Hr].
    + exists q. split; [left | done].
    + destruct (IH rs' eq_refl Hr) as (p & ? & ?).
      exists p. split; [by right | done].
Qed.

Lemma existsb_elem_of {A} (f : A -> bool) (l : list A) :
  existsb f l = true <-> exists x, x ∈ l /\ f x = true.
Proof.
  rewrite existsb_exists. setoid_rewrite list_elem_of_In. done.
Qed.

(** A domain off the whitelist is excluded as soon as the pattern of
    one entry matches it. *)
Lemma isExcluded_by_entry bl wl common pattern es e d :
  build bl wl common pattern = Some es ->
  e ∈ bl ++ map Literal common ->
  entry_excludes pattern e d = true ->
  d ∉ wl ->
  isExcluded es d = true.
Proof.
  unfold build. intros Hb He Hm Hwl.
  destruct (compile_all _) as [rs|] eqn:Hrs; [|done]. simplify_eq.
  unfold isExcluded; simpl.
  rewrite bool_decide_eq_false_2 by (by rewrite elem_of_list_to_set).
  apply orb_true_iff; right. apply existsb_elem_of.
  destruct (compile_all_In _ _ (entry_pattern pattern e) Hrs) as (r & Hr & Hin).
  { by apply list_elem_of_fmap_2. }
  exists r. split; [done|].
  unfold entry_excludes in Hm. by rewrite Hr in Hm.
Qed.

(** An excluded domain matches the pattern of some entry. *)
Lemma isExcluded_entry bl wl common pattern es d :
  build bl wl common pattern = Some es ->
  isExcluded es d = true ->
  (d ∉ wl) /\
  ((exists e, e ∈ bl ++ map Literal common
              /\ entry_excludes pattern e d = true)
   \/ d ∈ literals bl ++ common).
Proof.
  unfold build. intros Hb.
  destruct (compile_all _) as [rs|] eqn:Hrs; [|done]. simplify_eq.
  unfold isExcluded; simpl. case_bool_decide as Hw; [done|].
  rewrite elem_of_list_to_set in Hw. intros Hex. split; [done|].
  apply orb_true_iff in Hex as [Hl|Hr].
  - right. apply bool_decide_eq_true in Hl.
    by rewrite elem_of_list_to_set in Hl.
  - left. apply existsb_elem_of in Hr as (r & Hin & Hm).
    destruct (compile_all_from _ _ r Hrs Hin) as (p & Hp & Hc).
    apply list_elem_of_fmap in Hp as (e & -> & He).
    exists e. split; [done|]. unfold entry_excludes. by rewrite Hc.
Qed.

Lemma literal_entry bl common d :
  d ∈ literals bl ++ common -> Literal d ∈ bl ++ map Literal common.
Proof.
  rewrite !elem_of_app. intros [Hd|Hd]; [left|right].
  - unfold literals in Hd. apply list_elem_of_omap in Hd as (e & He & Hd).
    destruct e; by simplify_eq.
  - by apply list_elem_of_fmap_2.
Qed.

(** A domain on no list of the set is excluded only by a pattern. *)
Lemma isExcluded_false bl wl common pattern es d :
  build bl wl common pattern = Some es ->
  (forall e, e ∈ bl ++ map Literal common ->
             entry_excludes pattern e d = false) ->
  d ∉ literals bl ++ common ->
  isExcluded es d = false.
Proof.
  intros Hb Hnone Hlit.
  destruct (isExcluded es d) eqn:Hex; [|done].
  destruct (isExcluded_entry _ _ _ _ _ _ Hb Hex) as [_ [(e & He & Hm)|Hl]];
    [|done].
  by rewrite (Hnone e He) in Hm.
Qed.

(** C1: with the default exclusion pattern, every blacklist that holds
    the literal entry [example.com] excludes [example.com] itself and
    every subdomain of it whose labels are made of letters, decimal
    digits and hyphens ([ads.example.com] among them), as long as the
    domain is not on the whitelist.  These are the subdomains that the
    entry excludes: the pattern of the entry matches a subdomain only
    when each of its labels is made of such characters.  The entry does
    not exclude [notexample.com]: that domain is excluded only when it
    is itself on the blacklist or among the common exclusions, or
    another entry matches it; a blacklist of [example.com] alone, with
    the common exclusions of the defaults, does not exclude it. *)
Theorem subdomain_exclusion bl wl common es :
  Literal (u "example.com") ∈ bl ->
  build bl wl common default_exclusionpattern = Some es ->
  (u "example.com" ∉ wl -> isExcluded es (u "example.com") = true)
  /\ (u "ads.example.com" ∉ wl ->
      isExcluded es (u "ads.example.com") = true)
  /\ (forall labels,
        forallb pattern_label labels = true ->
        subdomain labels (u "example.com") ∉ wl ->
        isExcluded es (subdomain labels (u "example.com")) = true)
  /\ (forall labels,
        Forall (fun l => 46 ∉ l) labels ->
        entry_excludes default_exclusionpattern (Literal (u "example.com"))
                       (subdomain labels (u "example.com")) = true ->
        forallb pattern_label labels = true)
  /\ entry_excludes default_exclusionpattern (Literal (u "example.com"))
                    (u "notexample.com") = false
  /\ (isExcluded es (u "notexample.com") = true ->
      u "notexample.com" ∈ literals bl ++ common
      \/ exists e,
           e ∈ bl ++ map Literal common
           /\ e <> Literal (u "example.com")
           /\ entry_excludes default_exclusionpattern e (u "notexample.com")
              = true)
  /\ (forall wl' es',
        build [Literal (u "example.com")] wl' [u "hulu.com"]
              default_exclusionpattern = Some es' ->
        isExcluded es' (u "notexample.com") = false).
Proof.
  intros Hin Hb.
  assert (Hsub : forall labels,
             forallb pattern_label labels = true ->
             subdomain labels (u "example.com") ∉ wl ->
             isExcluded es (subdomain labels (u "example.com")) = true).
  { intros labels Hl Hwl.
    apply (isExcluded_by_entry bl wl common default_exclusionpattern es
                               (Literal (u "example.com"))); [done| | |done].
    - apply elem_of_app. by left.
    - by apply example_com_matches. }
  assert (Hnot : entry_excludes default_exclusionpattern
                                (Literal (u "example.com"))
                                (u "notexample.com") = false).
  { destruct compile_example_com as [Hc _].
    rewrite (entry_excludes_parsed default_exclusionpattern
               (Literal (u "example.com")) _ _ Hc). vm_compute. reflexivity. }
  split; [apply (Hsub []); reflexivity|].
  split; [apply (Hsub [u "ads"]); vm_compute; reflexivity|].
  split; [done|].
  split; [apply example_com_labels|].
  split; [done|].
  split.
  - intros Hex.
    destruct (isExcluded_entry _ _ _ _ _ _ Hb Hex) as [_ [(e & He & Hm)|Hl]];
      [|by left].
    right. exists e. split; [done|]. split; [|done].
    intros ->. congruence.
  - intros wl' es' Hb'.
    apply (isExcluded_false _ _ _ _ _ _ Hb').
    + intros e [He|He]%elem_of_app.
      * by apply list_elem_of_singleton in He as ->.
      * apply list_elem_of_fmap in He as (d & -> & Hd).
        apply list_elem_of_singleton in Hd as ->.
        destruct compile_hulu_com as (r & Hr & Hm).
        by rewrite (entry_excludes_parsed default_exclusionpattern
                      (Literal (u "hulu.com")) _ _ Hr).
    + intros [Hd|Hd]%elem_of_app.
      * apply list_elem_of_singleton in Hd. by vm_compute in Hd.
      * apply list_elem_of_singleton in Hd. by vm_compute in Hd.
Qed.

End SubdomainExclusion.

(* ================================================================== *)
(** * Merging *)
(* ================================================================== *)

Section Merge.
Import Core.
Implicit Types (t : MergedTable) (e : NormalizedEntry) (es : ExclusionSet).

Lemma insert_entry_present t e :
  domain e ∈ domains t -> insert_entry t e = t.
Proof.
  intros Hd. unfold insert_entry, present. by rewrite bool_decide_eq_true_2.
Qed.

Lemma insert_entry_absent t e :
  domain e ∉ domains t -> insert_entry t e = t ++ [e].
Proof.
  intros Hd. unfold insert_entry, present. by rewrite bool_decide_eq_false_2.
Qed.

Lemma accept_cases es t e :
  (accept es t e = t /\ (isExcluded es (domain e) = true \/ domain e ∈ domains t))
  \/ (accept es t e = t ++ [e]
      /\ isExcluded es (domain e) = false /\ (domain e ∉ domains t)).
Proof.
  unfold accept. destruct (isExcluded es (domain e)) eqn:Hex; [left; auto|].
  destruct (decide (domain e ∈ domains t)) as [Hd|Hd].
  - left. split; [by apply insert_entry_present | by right].
  - right. split; [by apply insert_entry_absent | done].
Qed.

Lemma accept_NoDup es t e :
  NoDup (domains t) -> NoDup (domains (accept es t e)).
Proof.
  intros Hn. destruct (accept_cases es t e) as [[-> _]|(-> & _ & Hd)]; [done|].
  unfold domains. rewrite map_app. apply NoDup_app. split; [done|].
  split; [|apply NoDup_singleton].
  intros d Hin ->%list_elem_of_singleton. done.
Qed.

Lemma accept_keeps es t e d : d ∈ domains t -> d ∈ domains (accept es t e).
Proof.
  intros Hd. destruct (accept_cases es t e) as [[-> _]|(-> & _)]; [done|].
  unfold domains. rewrite map_app. apply elem_of_app. by left.
Qed.

Lemma accept_adds es t e :
  isExcluded es (domain e) = false -> domain e ∈ domains (accept es t e).
Proof.
  intros Hex.
  destruct (accept_cases es t e) as [[-> [?|?]]|(-> & _)];
    [congruence | done |].
  unfold domains. rewrite map_app. apply elem_of_app. right. by left.
Qed.

Lemma fold_accept_NoDup es records t :
  NoDup (domains t) -> NoDup (domains (fold_left (accept es) records t)).
Proof.
  revert t. induction records as [|r rs IH]; intros t Hn; simpl; [done|].
  apply IH. by apply accept_NoDup.
Qed.

Lemma fold_accept_keeps es records t d :
  d ∈ domains t -> d ∈ domains (fold_left (accept es) records t).
Proof.
  revert t. induction records as [|r rs IH]; intros t Hd; simpl; [done|].
  apply IH. by apply accept_keeps.
Qed.

Lemma fold_accept_adds es records t d :
  isExcluded es d = false -> d ∈ map domain records ->
  d ∈ domains (fold_left (accept es) records t).
Proof.
  intros Hex. revert t.
  induction records as [|r rs IH]; intros t Hd; simpl in *.
  - by apply not_elem_of_nil in Hd.
  - apply elem_of_cons in Hd as [->|Hd]; [|by apply IH].
    apply fold_accept_keeps. by apply accept_adds.
Qed.

(** An entry of the table is the first record of its domain. *)
Lemma fold_accept_first es records t e :
  e ∈ fold_left (accept es) records t ->
  e ∈ t \/
  exists pre post,
    records = pre ++ e :: post
    /\ (domain e ∉ domains t)
    /\ (domain e ∉ map domain pre)
    /\ isExcluded es (domain e) = false.
Proof.
  revert t. induction records as [|r rs IH]; intros t He; simpl in He.
  - by left.
  - apply IH in He as [He|(pre & post & -> & Ht & Hb & Hex)].
    + destruct (accept_cases es t r) as [[Heq _]|(Heq & Hex & Hd)];
        rewrite Heq in He; [by left|].
      apply elem_of_app in He as [He| ->%list_elem_of_singleton]; [by left|].
      right. exists [], rs. repeat split; [done| |done].
      simpl. apply not_elem_of_nil.
    + right. exists (r :: pre), post. split; [done|].
      split; [intros Hd; apply Ht; by apply accept_keeps|].
      split; [|done].
      simpl. intros [Hr|Hd]%elem_of_cons; [|done].
      apply Ht. rewrite Hr. apply accept_adds. by rewrite <- Hr.
Qed.

(** The table only grows. *)
Lemma fold_accept_mono es records t e :
  e ∈ t -> e ∈ fold_left (accept es) records t.
Proof.
  revert t. induction records as [|r rs IH]; intros t He; simpl; [done|].
  apply IH. destruct (accept_cases es t r) as [[-> _]|(-> & _)]; [done|].
  apply elem_of_app. by left.
Qed.

(** The first record of a domain that is not excluded is in the table. *)
Lemma merge_first_record es pre post e :
  domain e ∉ map domain pre ->
  isExcluded es (domain e) = false ->
  e ∈ merge es (pre ++ e :: post).
Proof.
  intros Hpre Hex. unfold merge. rewrite fold_left_app. simpl.
  apply fold_accept_mono.
  destruct (accept_cases es (fold_left (accept es) pre []) e)
    as [[_ [?|Hd]]|(-> & _)]; [congruence | |].
  - exfalso. apply list_elem_of_fmap in Hd as (e' & Hd & He').
    apply fold_accept_first in He' as [He'|(p1 & p2 & -> & _)].
    + by apply not_elem_of_nil in He'.
    + apply Hpre. rewrite Hd, map_app. apply elem_of_app. right. left.
  - apply elem_of_app. right. left.
Qed.

(** The table is the first records of the domains that are not
    excluded. *)
Lemma fold_accept_first_seen es records t :
  fold_left (accept es) records t
  = t ++ first_seen (domains t)
           (List.filter (fun e => negb (isExcluded es (domain e))) records).
Proof.
  revert t. induction records as [|r rs IH]; intros t; simpl.
  - by rewrite app_nil_r.
  - rewrite IH.
    destruct (accept_cases es t r) as [[-> [Hex|Hd]]|(-> & Hex & Hd)].
    + by rewrite Hex.
    + destruct (isExcluded es (domain r)); simpl; [done|].
      by rewrite bool_decide_eq_true_2.
    + rewrite Hex. simpl. rewrite bool_decide_eq_false_2 by done.
      unfold domains. by rewrite map_app, <- app_assoc.
Qed.

(** ** The lines of the entries *)

Lemma words_from_word w cur s :
  existsb is_space w = false ->
  words_from cur (w ++ s) = words_from (rev w ++ cur) s.
Proof.
  revert cur. induction w as [|c w IH]; intros cur Hw; [done|].
  simpl in Hw. apply orb_false_iff in Hw as [Hc Hw].
  simpl. rewrite Hc, IH by done. by rewrite <- app_assoc.
Qed.

Lemma is_word_spaces w : is_word w = true -> existsb is_space w = false.
Proof.
  destruct w as [|c w]; [done|]. unfold is_word. by intros ?%negb_true_iff.
Qed.

(** The words of a word, a space, a word and what follows, when that
    is nothing or begins with a space. *)
Lemma words_two w d rest :
  is_word w = true -> is_word d = true ->
  rest = [] \/ (exists r, rest = 32 :: r) ->
  exists more, words (w ++ 32 :: d ++ rest) = w :: d :: more.
Proof.
  intros Hw Hd Hrest. unfold words.
  rewrite words_from_word by (by apply is_word_spaces).
  rewrite app_nil_r.
  assert (Hcur : forall x : pystr, is_word x = true -> rev x <> [])
    by (intros [|c x] ? Hx; [done | by apply (f_equal (@length N)) in Hx;
                               rewrite length_rev in Hx]).
  change (words_from (rev w) (32 :: d ++ rest))
    with (match rev w with
          | [] => words_from [] (d ++ rest)
          | _ => rev (rev w) :: words_from [] (d ++ rest)
          end).
  destruct (rev w) as [|c0 rw] eqn:Hrw; [by apply Hcur in Hrw|].
  rewrite <- Hrw, rev_involutive.
  rewrite words_from_word by (by apply is_word_spaces).
  rewrite app_nil_r.
  destruct Hrest as [->|[r ->]].
  - exists []. simpl.
    destruct (rev d) as [|c1 rd] eqn:Hrd; [by apply Hcur in Hrd|].
    by rewrite <- Hrd, rev_involutive.
  - exists (words_from [] r).
    change (words_from (rev d) (32 :: r))
      with (match rev d with
            | [] => words_from [] r
            | _ => rev (rev d) :: words_from [] r
            end).
    destruct (rev d) as [|c1 rd] eqn:Hrd; [by apply Hcur in Hrd|].
    by rewrite <- Hrd, rev_involutive.
Qed.

Lemma plain_word_is_word w : plain_word w = true -> is_word w = true.
Proof.
  destruct w as [|c w]; [done|]. unfold plain_word.
  by intros [_ ?]%andb_true_iff.
Qed.

(** The line of an entry names the domain of the entry. *)
Lemma line_domain_format_entry targetip keepComments e :
  plain_word targetip = true -> is_word (domain e) = true ->
  line_domain (format_entry targetip keepComments e) = Some (domain e).
Proof.
  intros Hip Hd. unfold line_domain, format_entry.
  change (u " ") with [32 : N]. change (u " # ") with [32 : N; 35; 32].
  destruct (words_two targetip (domain e)
              match comment e with
              | Some c => if keepComments then [32; 35; 32] ++ c else []
              | None => []
              end (plain_word_is_word _ Hip) Hd) as [more Hw].
  { destruct (comment e) as [c|]; [|by left].
    destruct keepComments; [right; by eexists | by left]. }
  simpl in Hw |- *. rewrite Hw. by rewrite Hip.
Qed.

Lemma line_domains_table targetip keepComments t :
  plain_word targetip = true ->
  Forall (fun e => is_word (domain e) = true) t ->
  omap line_domain (map (format_entry targetip keepComments) t) = domains t.
Proof.
  intros Hip. induction 1 as [|e t He _ IH]; [done|].
  cbn [map omap list_omap domains]. fold (domains t).
  rewrite line_domain_format_entry by done.
  cbn. f_equal. exact IH.
Qed.

(** ** The domains that the reader delivers *)

Section Reader.
Context {Col : Collaborators}.

Lemma read_line_word order line e :
  read_line order line = Entry e -> is_word (domain e) = true.
Proof.
  unfold read_line. destruct (strip line) as [|c rest]; [done|].
  destruct (chr_is c "#"); [done|].
  destruct (match split_once 35 (c :: rest) with
            | Some (b, r) => (b, Some (strip r))
            | None => (c :: rest, None)
            end) as [body remark].
  assert (Hentry : forall d,
             match normalise d with
             | [] => Malformed
             | (_ :: _) as d' =>
                 if existsb is_space d' then Malformed
                 else Entry {| domain := d'; comment := remark;
                               sourceOrder := order |}
             end = Entry e -> is_word (domain e) = true).
  { intros d. destruct (normalise d) as [|c' d'] eqn:Hn; [done|].
    cbv zeta. destruct (existsb is_space (c' :: d')) eqn:Hs; [done|].
    intros [= <-]. cbn [domain]. unfold is_word. by rewrite Hs. }
  destruct (words body) as [|d [|d' [|]]]; try done; apply Hentry.
Qed.

Lemma read_lines_words order acc lines :
  Forall (fun e => is_word (domain e) = true) (entries acc) ->
  Forall (fun e => is_word (domain e) = true)
         (entries (read_lines order acc lines)).
Proof.
  unfold read_lines. revert acc.
  induction lines as [|l ls IH]; intros acc Hacc; simpl; [done|].
  apply IH. destruct (read_line order l) eqn:Hl; try done.
  simpl. apply Forall_app. split; [done|].
  apply Forall_singleton. by apply read_line_word in Hl.
Qed.

Lemma read_sources_words order acc srcs :
  Forall (fun e => is_word (domain e) = true) (entries acc) ->
  Forall (fun e => is_word (domain e) = true)
         (entries (read_sources order acc srcs)).
Proof.
  revert order acc.
  induction srcs as [|src srcs IH]; intros order acc Hacc; simpl; [done|].
  destruct (content src) as [lines|]; apply IH; [|done].
  by apply read_lines_words.
Qed.

End Reader.

Lemma merge_sub es records e : e ∈ merge es records -> e ∈ records.
Proof.
  intros [He|(pre & post & -> & _)]%fold_accept_first.
  - by apply not_elem_of_nil in He.
  - apply elem_of_app. right. left.
Qed.

(** C3: the merged table holds no domain twice.  An entry is appended
    only when its domain is absent; an entry whose domain is present
    leaves the table as it is, without an error; so the table is free of
    duplicates after every record.  The table is the first records of
    the domains that are not excluded, in the order of the records: an
    entry is in it exactly when it is the first record of its domain and
    the domain is not excluded.  In the artifact of a run the lines of
    the entries follow the header and the static lines, and name the
    domains of the table, each once; the two static lines both name
    [localhost]. *)
Theorem merge_no_duplicates es (records : list NormalizedEntry) :
  NoDup (domains (merge es records))
  /\ (forall n, NoDup (domains (merge es (take n records))))
  /\ (forall t e, NoDup (domains t) -> NoDup (domains (accept es t e)))
  /\ (forall t e, domain e ∈ domains t -> insert_entry t e = t)
  /\ (forall t e, domain e ∉ domains t -> insert_entry t e = t ++ [e])
  /\ merge es records
     = first_seen []
         (List.filter (fun e => negb (isExcluded es (domain e))) records)
  /\ (forall e,
        e ∈ merge es records <->
        exists pre post,
          records = pre ++ e :: post
          /\ (domain e ∉ map domain pre)
          /\ isExcluded es (domain e) = false)
  /\ (forall d,
        d ∈ domains (merge es records) <->
        d ∈ map domain records /\ isExcluded es d = false)
  /\ (forall (C : Collaborators) cfg inp out,
        run cfg inp = inr out ->
        exists t,
          NoDup (domains t)
          /\ entryCount out = length t
          /\ stream out
             = render_header clock (length t) (map path (sources inp))
               ++ (if skipStaticBlackhole cfg then [] else static_entries)
               ++ map (format_entry (targetIp cfg) (keepDomainComments cfg)) t
          /\ (plain_word (targetIp cfg) = true ->
              omap line_domain
                   (map (format_entry (targetIp cfg) (keepDomainComments cfg))
                        t)
              = domains t))
  /\ omap line_domain static_entries = [u "localhost"; u "localhost"].
Proof.
  split; [apply fold_accept_NoDup, NoDup_nil_2|].
  split; [intros n; apply fold_accept_NoDup, NoDup_nil_2|].
  split; [intros t e; apply accept_NoDup|].
  split; [apply insert_entry_present|].
  split; [apply insert_entry_absent|].
  split; [apply (fold_accept_first_seen es records [])|].
  split.
  { intros e. split.
    - intros [He|(pre & post & -> & _ & Hb & Hex)]%fold_accept_first.
      + by apply not_elem_of_nil in He.
      + by exists pre, post.
    - intros (pre & post & -> & Hb & Hex). by apply merge_first_record. }
  split.
  { intros d. split.
    - intros (e & -> & He)%list_elem_of_fmap.
      apply fold_accept_first in He as [He|(pre & post & -> & _ & _ & Hex)].
      + by apply not_elem_of_nil in He.
      + split; [|done]. rewrite map_app. apply elem_of_app. right. left.
    - intros [Hd Hex]. by apply fold_accept_adds. }
  split; [|by vm_compute].
  intros C cfg inp out. unfold run.
  destruct (negb (valid_configuration cfg)); [done|].
  destruct (build _ _ _ _) as [es'|]; [|done].
  destruct (destination_writable _); [|done].
  intros [= <-].
  exists (merge es' (entries (read_sources 0 no_reading (sources inp)))).
  split; [apply fold_accept_NoDup, NoDup_nil_2|].
  split; [reflexivity|]. split; [reflexivity|].
  intros Hip. apply line_domains_table; [done|].
  apply Forall_forall. intros e He%merge_sub. revert e He.
  apply Forall_forall, read_sources_words. constructor.
Qed.

(** C2: a domain on the whitelist is never excluded, whatever the
    blacklist and the common exclusions hold; and when a source
    contributes it, it is in the merged table and on a line of the
    formatted output. *)
Theorem whitelist_precedence `{Collaborators}
    bl wl common pattern es (d : pystr) :
  build bl wl common pattern = Some es ->
  d ∈ wl ->
  isExcluded es d = false
  /\ (forall records,
        d ∈ map domain records ->
        d ∈ domains (merge es records)
        /\ forall names targetip keepComments skipStatic,
             exists e,
               e ∈ merge es records /\ domain e = d
               /\ format_entry targetip keepComments e
                    ∈ format names (merge es records) targetip
                             keepComments skipStatic).
Proof.
  unfold build. intros Hb Hwl.
  destruct (compile_all _) as [rs|]; [|done]. simplify_eq.
  assert (Hex : isExcluded
                  {| literalDomains := list_to_set (literals bl ++ common);
                     regexPatterns := rs;
                     whitelisted := list_to_set wl |} d = false).
  { unfold isExcluded; simpl.
    by rewrite bool_decide_eq_true_2 by (by apply elem_of_list_to_set). }
  split; [done|]. intros records Hd.
  pose proof (fold_accept_adds _ records [] d Hex Hd) as Hm.
  split; [done|]. intros names targetip keepComments skipStatic.
  apply list_elem_of_fmap in Hm as (e & -> & He).
  exists e. split; [done|]. split; [done|].
  unfold format, format_body. rewrite !elem_of_app. right; right.
  by apply list_elem_of_fmap_2.
Qed.

End Merge.

(* ================================================================== *)
(** * Runs of the pipeline *)
(* ================================================================== *)

(** The scenarios of the specification. *)
Example scenario_blacklist :
  Core.run (H := example_collaborators) example_config (example_inputs [])
  = inr {| Core.stream := [u "# Date: 2024-01-01 00:00:00";
                           u "0.0.0.0 foo.com"; u "0.0.0.0 bar.com"];
           Core.derivative := None;
           Core.entryCount := 2;
           Core.skippedSources := 1;
           Core.malformedLines := 1 |}.
Proof. vm_compute. reflexivity. Qed.

Example scenario_whitelist :
  Core.run (H := example_collaborators) example_config
           (example_inputs [u "ads.example.com"])
  = inr {| Core.stream := [u "# Date: 2024-01-01 00:00:00";
                           u "0.0.0.0 ads.example.com"; u "0.0.0.0 foo.com";
                           u "0.0.0.0 bar.com"];
           Core.derivative := None;
           Core.entryCount := 3;
           Core.skippedSources := 1;
           Core.malformedLines := 1 |}.
Proof. vm_compute. reflexivity. Qed.

(** A blacklist line that is a pattern outside the fragment, and that
    [re] compiles, does not end the run; one that is an invalid regex
    does. *)
Example scenario_pattern_outside :
  Core.run (H := example_anchored) example_config
           (example_patterns [Core.Pattern (u "^ads\..*")])
  = inr {| Core.stream := [u "# Date: 2024-01-01 00:00:00";
                           u "0.0.0.0 foo.com"; u "0.0.0.0 bar.com"];
           Core.derivative := None;
           Core.entryCount := 2;
           Core.skippedSources := 1;
           Core.malformedLines := 1 |}.
Proof. vm_compute. reflexivity. Qed.

Example scenario_pattern_invalid :
  Core.run (H := example_anchored) example_config
           (example_patterns [Core.Pattern (u "ads(")])
  = inl Core.ExclusionPatternInvalid.
Proof. vm_compute. reflexivity. Qed.

(** A line of a source in host syntax, with a protocol prefix, capital
    letters, a trailing dot and a comment. *)
Example reader_normalises :
  Core.read_line (H := example_collaborators) 3
    (u "  0.0.0.0   HTTPS://Ads.Example.COM.   # a tracker ")
  = Core.Entry {| Core.domain := u "ads.example.com";
                  Core.comment := Some (u "a tracker");
                  Core.sourceOrder := 3 |}.
Proof. vm_compute. reflexivity. Qed.

Section Runs.
Import Core.
Context {Col : Collaborators}.
Variable cfg : Config.
Variable inp : Inputs.

Lemma step_deterministic s s1 s2 :
  step cfg inp s s1 -> step cfg inp s s2 -> s1 = s2.
Proof.
  intros H1 H2. inversion H1; subst; inversion H2; subst; congruence.
Qed.

Lemma finish_terminal out : terminal (finish out).
Proof. unfold finish. by destruct (destination_writable _). Qed.

Lemma terminal_stuck s s' : terminal s -> ~ step cfg inp s s'.
Proof. intros Ht Hs. inversion Hs; subst; done. Qed.

Lemma steps_deterministic s s1 s2 :
  steps cfg inp s s1 -> terminal s1 ->
  steps cfg inp s s2 -> terminal s2 -> s1 = s2.
Proof.
  induction 1 as [s|s s' s1 Hs _ IH]; intros Ht1 H2 Ht2.
  - inversion H2 as [|? s' ? Hs]; subst; [done|].
    by apply terminal_stuck in Hs.
  - inversion H2 as [|? s'' ? Hs']; subst.
    + by apply terminal_stuck in Hs.
    + rewrite <- (step_deterministic _ _ _ Hs Hs') in *. by apply IH.
Qed.

Lemma outcome_terminal : terminal (outcome (run cfg inp)).
Proof. by destruct (run cfg inp). Qed.

(** The function [run] follows the steps of the state machine. *)
Lemma run_steps : steps cfg inp Idle (outcome (run cfg inp)).
Proof.
  unfold run.
  destruct (valid_configuration cfg) eqn:Hv; simpl.
  2: { eapply steps_step; [by apply step_reject | apply steps_refl]. }
  eapply steps_step; [by apply step_start|].
  eapply steps_step; [apply step_read|].
  destruct (build _ _ _ _) as [es|] eqn:Hb.
  2: { eapply steps_step; [by apply step_bad_pattern | apply steps_refl]. }
  eapply steps_step; [by apply step_build|].
  eapply steps_step; [apply step_merge|].
  eapply steps_step; [by eapply step_format|].
  destruct (output_mode cfg).
  - eapply steps_step; [apply step_pass|].
    unfold finish. destruct (destination_writable _); apply steps_refl.
  - eapply steps_step; [apply step_compress|].
    unfold finish. destruct (destination_writable _); apply steps_refl.
  - eapply steps_step; [apply step_minimise|].
    unfold finish. destruct (destination_writable _); apply steps_refl.
Qed.

(** ** The clock *)

(** What a run makes before the header is rendered does not read the
    clock. *)
Lemma read_sources_at_time now order acc srcs :
  @read_sources (at_time now) order acc srcs = read_sources order acc srcs.
Proof. reflexivity. Qed.

Lemma build_at_time now bl wl common pattern :
  @build (at_time now) bl wl common pattern = build bl wl common pattern.
Proof. reflexivity. Qed.

(** The lines after the header. *)
Lemma format_body_stream names t targetip keepComments skipStatic :
  format names t targetip keepComments skipStatic
  = render_header clock (length t) names
    ++ format_body t targetip keepComments skipStatic.
Proof. reflexivity. Qed.

(** A run that delivers, by its parts. *)
Lemma run_inr out :
  run cfg inp = inr out ->
  exists es,
    build (blacklist inp) (whitelist inp) (commonExclusions inp)
          (exclusionPattern cfg) = Some es
    /\ let r := read_sources 0 no_reading (sources inp) in
       let t := merge es (entries r) in
       stream out
       = render_header clock (length t) (map path (sources inp))
         ++ format_body t (targetIp cfg) (keepDomainComments cfg)
                        (skipStaticBlackhole cfg)
       /\ entryCount out = length t
       /\ skippedSources out = unreadable r
       /\ malformedLines out = malformed r.
Proof.
  unfold run. destruct (negb (valid_configuration cfg)); [done|].
  destruct (build _ _ _ _) as [es|]; [|done].
  destruct (destination_writable _); [|done].
  intros [= <-]. exists es. by repeat split.
Qed.

(** ** The order of the exclusion files *)

Lemma compile_all_Permutation ps ps' :
  ps ≡ₚ ps' ->
  match compile_all ps, compile_all ps' with
  | Some rs, Some rs' => rs ≡ₚ rs'
  | None, None => True
  | _, _ => False
  end.
Proof.
  induction 1 as [|x l l' _ IH|x y l|l l' l'' _ IH1 _ IH2]; simpl.
  - done.
  - destruct (compile_pattern x); [|done].
    destruct (compile_all l), (compile_all l'); try done. by constructor.
  - destruct (compile_pattern x), (compile_pattern y), (compile_all l);
      try done. apply perm_swap.
  - destruct (compile_all l), (compile_all l'), (compile_all l'');
      try done. by etransitivity.
Qed.

Lemma existsb_Permutation {A} (f : A -> bool) (l l' : list A) :
  l ≡ₚ l' -> existsb f l = existsb f l'.
Proof.
  intros Hp. apply eq_true_iff_eq. rewrite !existsb_exists.
  split; intros (x & Hx & Hf); exists x; split; try done;
    apply list_elem_of_In; apply list_elem_of_In in Hx;
    [by rewrite <- Hp | by rewrite Hp].
Qed.

Lemma literals_Permutation bl bl' d :
  bl ≡ₚ bl' -> d ∈ literals bl <-> d ∈ literals bl'.
Proof.
  intros Hp. unfold literals. rewrite !list_elem_of_omap.
  by setoid_rewrite Hp.
Qed.

(** The exclusions do not depend on the order of the blacklist, of the
    whitelist or of the common exclusions. *)
Lemma build_Permutation bl bl' wl wl' common common' pattern :
  bl ≡ₚ bl' -> wl ≡ₚ wl' -> common ≡ₚ common' ->
  match build bl wl common pattern, build bl' wl' common' pattern with
  | Some es, Some es' => forall d, isExcluded es d = isExcluded es' d
  | None, None => True
  | _, _ => False
  end.
Proof.
  intros Hbl Hwl Hc. unfold build.
  assert (Hp : map (entry_pattern pattern) (bl ++ map Literal common)
               ≡ₚ map (entry_pattern pattern) (bl' ++ map Literal common'))
    by (by rewrite Hbl, Hc).
  apply compile_all_Permutation in Hp.
  destruct (compile_all _) as [rs|], (compile_all _) as [rs'|]; try done.
  intros d. unfold isExcluded. cbn [whitelisted literalDomains regexPatterns].
  rewrite (existsb_Permutation _ _ _ Hp).
  rewrite (bool_decide_ext (d ∈ (list_to_set wl : gset pystr))
                           (d ∈ (list_to_set wl' : gset pystr)))
    by (by rewrite !elem_of_list_to_set, Hwl).
  rewrite (bool_decide_ext
             (d ∈ (list_to_set (literals bl ++ common) : gset pystr))
             (d ∈ (list_to_set (literals bl' ++ common') : gset pystr)));
    [done|].
  rewrite !elem_of_list_to_set, !elem_of_app.
  by rewrite (literals_Permutation bl bl' d Hbl), Hc.
Qed.

Lemma merge_ext es es' records :
  (forall d, isExcluded es d = isExcluded es' d) ->
  merge es records = merge es' records.
Proof.
  intros Hext. unfold merge. generalize (@nil NormalizedEntry).
  induction records as [|r rs IH]; intros t; simpl; [done|].
  rewrite IH. unfold accept. by rewrite Hext.
Qed.

(** C4: a run of the pipeline ends, and every run on the same
    configuration and the same inputs ends in the same state: the one
    that the function [run] computes from them.  The clock is read for
    the header only: two runs at two readings of the clock deliver the
    same counts and the same lines after the header, and the same
    artifact when the header is rendered alike for the two readings; an
    error other than that of the destination is the same at every
    reading.  The order of the lines of the blacklist, of the whitelist
    and of the common exclusions is of no account: inputs that differ in
    it only have the same run. *)
Theorem run_deterministic :
  (steps cfg inp Idle (outcome (run cfg inp))
   /\ terminal (outcome (run cfg inp)))
  /\ (forall s,
        steps cfg inp Idle s -> terminal s -> s = outcome (run cfg inp))
  /\ (forall out1 out2,
        steps cfg inp Idle (Done out1) -> steps cfg inp Idle (Done out2) ->
        out1 = out2 /\ produced out1 = produced out2)
  /\ run (H := at_time clock) cfg inp = run cfg inp
  /\ (forall now1 now2 out1 out2,
        run (H := at_time now1) cfg inp = inr out1 ->
        run (H := at_time now2) cfg inp = inr out2 ->
        entryCount out1 = entryCount out2
        /\ skippedSources out1 = skippedSources out2
        /\ malformedLines out1 = malformedLines out2
        /\ exists t,
             let body := format_body t (targetIp cfg) (keepDomainComments cfg)
                                     (skipStaticBlackhole cfg) in
             let names := map path (sources inp) in
             stream out1 = render_header now1 (length t) names ++ body
             /\ stream out2 = render_header now2 (length t) names ++ body)
  /\ (forall now1 now2,
        (forall n names,
           render_header now1 n names = render_header now2 n names) ->
        run (H := at_time now1) cfg inp = run (H := at_time now2) cfg inp)
  /\ (forall now1 now2 e,
        run (H := at_time now1) cfg inp = inl e ->
        e <> OutputWriteFailure ->
        run (H := at_time now2) cfg inp = inl e)
  /\ (forall inp',
        sources inp' = sources inp ->
        blacklist inp' ≡ₚ blacklist inp ->
        whitelist inp' ≡ₚ whitelist inp ->
        commonExclusions inp' ≡ₚ commonExclusions inp ->
        run cfg inp' = run cfg inp).
Proof.
  split; [split; [apply run_steps | apply outcome_terminal]|].
  split.
  { intros s Hs Ht.
    apply (steps_deterministic Idle); auto using run_steps, outcome_terminal. }
  split.
  { intros out1 out2 H1 H2.
    assert (Done out1 = Done out2) as Heq
      by (by apply (steps_deterministic Idle)).
    by simplify_eq. }
  split.
  { unfold run. rewrite read_sources_at_time, build_at_time. reflexivity. }
  split.
  { intros now1 now2 out1 out2. unfold run.
    rewrite !read_sources_at_time, !build_at_time.
    change (@valid_configuration (at_time now1)) with valid_configuration.
    change (@valid_configuration (at_time now2)) with valid_configuration.
    destruct (negb (valid_configuration cfg)); [done|].
    destruct (build _ _ _ _) as [es|]; [|done].
    destruct (@destination_writable (at_time now1) _); [|done].
    destruct (@destination_writable (at_time now2) _); [|done].
    intros [= <-] [= <-]. cbn [artifact entryCount skippedSources
                                malformedLines stream].
    repeat split.
    exists (merge es (entries (read_sources 0 no_reading (sources inp)))).
    split; reflexivity. }
  split.
  { intros now1 now2 Hheader. unfold run.
    rewrite !read_sources_at_time, !build_at_time.
    change (@valid_configuration (at_time now1)) with valid_configuration.
    change (@valid_configuration (at_time now2)) with valid_configuration.
    destruct (negb (valid_configuration cfg)); [done|].
    destruct (build _ _ _ _) as [es|]; [|done].
    unfold format.
    change (@render_header (at_time now1) (@clock (at_time now1)))
      with (render_header now1).
    change (@render_header (at_time now2) (@clock (at_time now2)))
      with (render_header now2).
    by rewrite Hheader. }
  split.
  { intros now1 now2 e. unfold run.
    rewrite !read_sources_at_time, !build_at_time.
    change (@valid_configuration (at_time now1)) with valid_configuration.
    change (@valid_configuration (at_time now2)) with valid_configuration.
    destruct (negb (valid_configuration cfg)); [done|].
    destruct (build _ _ _ _) as [es|]; [|done].
    destruct (@destination_writable (at_time now1) _); [done|].
    by intros [= <-]. }
  intros inp' Hs Hbl Hwl Hc. unfold run. rewrite Hs.
  destruct (negb (valid_configuration cfg)); [done|].
  pose proof (build_Permutation _ _ _ _ _ _ (exclusionPattern cfg)
                                Hbl Hwl Hc) as Hb.
  destruct (build (blacklist inp') _ _ _) as [es'|],
           (build (blacklist inp) _ _ _) as [es|]; try done.
  by rewrite (merge_ext es' es _ Hb).
Qed.

(** ** The reader *)

Lemma read_lines_spec order acc lines :
  let keep line := match read_line order line with
                   | Entry e => Some e
                   | _ => None
                   end in
  let bad line := match read_line order line with
                  | Malformed => true
                  | _ => false
                  end in
  entries (read_lines order acc lines) = entries acc ++ omap keep lines
  /\ unreadable (read_lines order acc lines) = unreadable acc
  /\ malformed (read_lines order acc lines)
     = (malformed acc + length (List.filter bad lines))%nat.
Proof.
  intros keep bad. subst keep bad. unfold read_lines. revert acc.
  induction lines as [|l ls IH]; intros acc; simpl.
  - by rewrite app_nil_r, Nat.add_0_r.
  - destruct (read_line order l) eqn:Hl;
      match goal with
      | |- context [fold_left ?f ls ?a] =>
          destruct (IH a) as (E1 & E2 & E3)
      end;
      rewrite E1, E2, E3; simpl; rewrite <- ?app_assoc;
      repeat split; try done; lia.
Qed.

Lemma read_sources_spec order acc srcs :
  entries (read_sources order acc srcs)
  = entries acc ++ all_entries order srcs
  /\ unreadable (read_sources order acc srcs)
     = (unreadable acc + count_unreadable srcs)%nat
  /\ malformed (read_sources order acc srcs)
     = (malformed acc + count_malformed order srcs)%nat.
Proof.
  revert order acc.
  induction srcs as [|src srcs IH]; intros order acc; simpl.
  - by rewrite app_nil_r, !Nat.add_0_r.
  - unfold count_unreadable; simpl. fold (count_unreadable srcs).
    destruct (content src) as [lines|]; simpl.
    + destruct (IH (S order) (read_lines order acc lines)) as (-> & -> & ->).
      destruct (read_lines_spec order acc lines) as (-> & -> & ->).
      rewrite <- app_assoc. split; [done|]. split; [done|]. lia.
    + destruct (IH (S order)
                   {| entries := entries acc;
                      unreadable := S (unreadable acc);
                      malformed := malformed acc |}) as (-> & -> & ->).
      simpl. split; [done|]. unfold count_unreadable. split; lia.
Qed.

(** ** The patterns that do not compile *)

Lemma compile_all_None patterns :
  compile_all patterns = None <->
  exists p, p ∈ patterns /\ compile_pattern p = None.
Proof.
  induction patterns as [|q ps IH]; simpl.
  - split; [done|]. intros (p & Hp & _). by apply not_elem_of_nil in Hp.
  - destruct (compile_pattern q) as [r|] eqn:Hq.
    + destruct (compile_all ps) as [rs|].
      * split; [done|]. intros (p & [->|Hp]%elem_of_cons & Hn); [congruence|].
        assert (Some rs = None) as Hnone by (apply IH; by exists p).
        done.
      * split; [|done]. intros _.
        destruct (proj1 IH eq_refl) as (p & Hp & Hn).
        exists p. split; [by right | done].
    + split; [|done]. intros _. exists q. split; [left | done].
Qed.

(** The exclusions are not built exactly when the pattern of an entry is
    an invalid regex. *)
Lemma build_None bl wl common pattern :
  build bl wl common pattern = None <->
  exists entry,
    entry ∈ bl ++ map Literal common /\ invalid_regex pattern entry.
Proof.
  unfold build, invalid_regex.
  destruct (compile_all _) as [rs|] eqn:Hc.
  - split; [done|]. intros (entry & He & Hn).
    assert (compile_all (map (entry_pattern pattern)
                             (bl ++ map Literal common)) = None) as Hnone.
    { apply compile_all_None. exists (entry_pattern pattern entry).
      split; [by apply list_elem_of_fmap_2 | done]. }
    congruence.
  - split; [|done]. intros _.
    apply compile_all_None in Hc as (p & Hp & Hn).
    apply list_elem_of_fmap in Hp as (entry & -> & He). by exists entry.
Qed.

(** C8: a run is ended only by an invalid configuration, by an entry of
    the blacklist or of the common exclusions whose pattern is an
    invalid regex, or by a destination that cannot be written, whatever
    the sources hold; and such an entry does end the run of a valid
    configuration.  With a valid configuration, no entry whose pattern
    is an invalid regex and a writable destination the run delivers its
    artifact: every source that cannot be opened is counted and the
    sources after it are read, every malformed line is counted and
    passed over, and the artifact is made of the entries of the
    well-formed lines. *)
Theorem input_errors_absorbed :
  (forall e,
     run cfg inp = inl e ->
     fatal e = true
     /\ ((e = InvalidConfiguration /\ valid_configuration cfg = false)
         \/ (e = ExclusionPatternInvalid
             /\ exists entry,
                  entry ∈ blacklist inp ++ map Literal (commonExclusions inp)
                  /\ invalid_regex (exclusionPattern cfg) entry)
         \/ (e = OutputWriteFailure
             /\ exists lines, destination_writable lines = false)))
  /\ (forall entry,
        valid_configuration cfg = true ->
        entry ∈ blacklist inp ++ map Literal (commonExclusions inp) ->
        invalid_regex (exclusionPattern cfg) entry ->
        run cfg inp = inl ExclusionPatternInvalid)
  /\ (valid_configuration cfg = true ->
      (forall entry,
         entry ∈ blacklist inp ++ map Literal (commonExclusions inp) ->
         ~ invalid_regex (exclusionPattern cfg) entry) ->
      (forall lines, destination_writable lines = true) ->
      exists es out,
        build (blacklist inp) (whitelist inp) (commonExclusions inp)
              (exclusionPattern cfg) = Some es
        /\ run cfg inp = inr out
        /\ skippedSources out = count_unreadable (sources inp)
        /\ malformedLines out = count_malformed 0 (sources inp)
        /\ entryCount out = length (merge es (all_entries 0 (sources inp)))
        /\ stream out
           = format (map path (sources inp))
                    (merge es (all_entries 0 (sources inp)))
                    (targetIp cfg) (keepDomainComments cfg)
                    (skipStaticBlackhole cfg)).
Proof.
  destruct (read_sources_spec 0 no_reading (sources inp)) as (He & Hu & Hm).
  simpl in He, Hu, Hm.
  split; [|split].
  - intros e. unfold run.
    destruct (valid_configuration cfg); simpl.
    2: { intros [= <-]. split; [done|]. by left. }
    destruct (build _ _ _ _) as [es|] eqn:Hb.
    2: { intros [= <-]. split; [done|]. right; left. split; [done|].
         by apply build_None in Hb. }
    destruct (destination_writable _) eqn:Hw; [done|].
    intros [= <-]. split; [done|]. right; right. split; [done|]. eauto.
  - intros entry Hv Hin Hbad. unfold run. rewrite Hv. simpl.
    assert (build (blacklist inp) (whitelist inp) (commonExclusions inp)
                  (exclusionPattern cfg) = None) as ->
      by (apply build_None; by exists entry).
    done.
  - intros Hv Hok Hw.
    destruct (build (blacklist inp) (whitelist inp) (commonExclusions inp)
                    (exclusionPattern cfg)) as [es|] eqn:Hb.
    2: { apply build_None in Hb as (entry & Hin & Hbad).
         by destruct (Hok entry Hin). }
    unfold run. rewrite Hv, Hb. simpl.
    rewrite Hw. eexists _, _. split; [reflexivity|].
    split; [reflexivity|]. simpl.
    by rewrite He, Hu, Hm.
Qed.

End Runs.

(* ================================================================== *)
(** * The command line *)
(* ================================================================== *)

Section ArgparseFacts.
Import Argparse.
Variable p : list argument.

Lemma find_exact_Some t a :
  find_exact p t = Some a ->
  exists name, (name, a) ∈ option_table p /\ u name = t.
Proof.
  unfold find_exact. destruct (List.find _ _) as [[name a']|] eqn:Hf; [|done].
  intros [= <-]. apply find_some in Hf as [Hin Heq].
  exists name. split; [by apply list_elem_of_In|].
  by apply bool_decide_eq_true in Heq.
Qed.

Lemma option_table_parser name a : (name, a) ∈ option_table p -> a ∈ p.
Proof.
  unfold option_table. rewrite list_elem_of_In, in_flat_map.
  intros (a' & Ha & Hn). apply in_map_iff in Hn as (n & [= _ ->] & _).
  by apply list_elem_of_In.
Qed.

(** How a word comes to be read as an option: it is an option string,
    or it starts with two dashes and is, up to its value, an option
    string or the only abbreviation of one. *)
Lemma classify_Option t a e :
  classify p t = Option a e ->
  exists name,
    (name, a) ∈ option_table p
    /\ ((e = None /\ u name = t)
        \/ (exists c rest, t = 45 :: 45 :: c :: rest
            /\ match e with
               | Some v => exists prefix,
                   split_once 61 t = Some (prefix, v)
                   /\ startswith (u name) prefix = true
               | None => startswith (u name) t = true
               end)).
Proof.
  unfold classify. destruct t as [|c [|c' rest']]; try done.
  { by destruct (negb _). }
  destruct (negb (chr_is c "-")) eqn:Hc; [done|].
  destruct (find_exact p (c :: c' :: rest')) as [a'|] eqn:Hex.
  { intros [= <- <-]. apply find_exact_Some in Hex as (name & ? & ?).
    exists name. split; [done|]. by left. }
  destruct (negb (chr_is c' "-")) eqn:Hc'; [done|].
  case_bool_decide as Hrest; [done|].
  destruct (existsb _ _); [done|].
  apply negb_false_iff, N.eqb_eq in Hc, Hc'.
  change (N_of_ascii "-") with 45 in Hc, Hc'. subst c c'.
  destruct rest' as [|c rest]; [done|].
  set (t := 45 :: 45 :: c :: rest) in *.
  assert (Hfilter : forall prefix na (l : list (string * argument)),
             filter (fun na => startswith (u (fst na)) prefix = true)
                    (option_table p) = na :: l ->
             na ∈ option_table p /\ startswith (u (fst na)) prefix = true).
  { intros prefix na l Hf.
    assert (na ∈ filter (fun na => startswith (u (fst na)) prefix = true)
                        (option_table p)) as Hin by (rewrite Hf; left).
    by apply list_elem_of_filter in Hin as [? ?]. }
  destruct (split_once 61 t) as [[prefix v]|] eqn:Hsplit.
  - destruct (find_exact p prefix) as [a'|] eqn:Hpre.
    + intros [= <- <-]. apply find_exact_Some in Hpre as (name & ? & Hn).
      exists name. split; [done|]. right. exists c, rest. split; [done|].
      exists prefix. split; [done|]. rewrite Hn.
      clear. induction prefix; simpl; [done|]. by rewrite N.eqb_refl.
    + destruct (filter _ _) as [|na [|? ?]] eqn:Hf; try done.
      intros [= <- <-]. apply Hfilter in Hf as [? ?].
      exists (fst na). split; [by destruct na|]. right.
      exists c, rest. split; [done|]. by exists prefix.
  - destruct (filter _ _) as [|na [|? ?]] eqn:Hf; try done.
    intros [= <- <-]. apply Hfilter in Hf as [? ?].
    exists (fst na). split; [by destruct na|]. right.
    exists c, rest. by split.
Qed.

Lemma classify_in t a e : classify p t = Option a e -> a ∈ p.
Proof.
  intros (name & Hin & _)%classify_Option. by eapply option_table_parser.
Qed.

(** ** One attribute through the parse *)

Variable key : string.

(** Only a [store_false] option writes [key]. *)
Hypothesis key_store_false :
  forall a, a ∈ p -> dest a = key -> act a = store_false.

Lemma open_option_lookup a e ns ex st' :
  a ∈ p ->
  open_option a e ns ex = inr st' ->
  waits_for_values p st'
  /\ namespace st' !! key
     = if match e with
          | None => bool_decide (dest a = key)
          | Some _ => false
          end
       then Some (VBool false) else ns !! key.
Proof.
  intros Ha. unfold open_option, waits_for_values.
  pose proof (key_store_false a Ha) as Hk.
  destruct (act a) eqn:Hact, e as [v|]; intros Ho; simplify_eq/=;
    (split; [done|]);
    (destruct (decide (dest a = key)) as [Hd|Hd];
     [specialize (Hk Hd); try congruence|]);
    rewrite ?bool_decide_eq_true_2, ?bool_decide_eq_false_2 by done;
    rewrite ?lookup_insert_ne by done;
    try done.
  rewrite Hd. by rewrite lookup_insert_eq.
Qed.

Lemma at_top_lookup t ns ex st' :
  at_top (classify p t) ns ex = inr st' ->
  waits_for_values p st'
  /\ namespace st' !! key
     = if sets_flag p key t then Some (VBool false) else ns !! key.
Proof.
  unfold at_top, sets_flag.
  destruct (classify p t) as [|a e| | |] eqn:Hc; try done.
  - by intros [= <-].
  - intros Ho. apply classify_in in Hc.
    destruct (open_option_lookup a e ns ex st' Hc Ho) as [? ->].
    by destruct e.
  - by intros [= <-].
Qed.

Lemma step_lookup st t st' :
  waits_for_values p st ->
  step p st t = inr st' ->
  waits_for_values p st'
  /\ namespace st' !! key
     = if sets_flag p key t then Some (VBool false)
       else namespace st !! key.
Proof.
  unfold step. intros Hw.
  destruct (waiting st) as [|a|a vs] eqn:Hwait.
  - apply at_top_lookup.
  - unfold waits_for_values in Hw. rewrite Hwait in Hw. destruct Hw as [Ha Hact].
    unfold sets_flag.
    destruct (classify p t) eqn:Hc; try done.
    intros [= <-]. split; [done|]. simpl.
    rewrite lookup_insert_ne; [done|].
    intros Hd. pose proof (key_store_false a Ha Hd). congruence.
  - unfold waits_for_values in Hw. rewrite Hwait in Hw. destruct Hw as [Ha Hact].
    assert (dest a <> key) as Hne.
    { intros Hd. pose proof (key_store_false a Ha Hd). congruence. }
    destruct (classify p t) eqn:Hc.
    + intros [= <-]. unfold waits_for_values, sets_flag. rewrite Hc. done.
    + rewrite <- Hc. intros [? ->]%at_top_lookup. split; [done|].
      by rewrite lookup_insert_ne.
    + done.
    + rewrite <- Hc. intros [? ->]%at_top_lookup. split; [done|].
      by rewrite lookup_insert_ne.
    + done.
Qed.

Lemma consume_lookup st argv options :
  waits_for_values p st ->
  consume p st argv = inr options ->
  options !! key
  = if existsb (sets_flag p key) argv then Some (VBool false)
    else namespace st !! key.
Proof.
  revert st. induction argv as [|t argv IH]; intros st Hw; simpl.
  - unfold finish. destruct (waiting st) as [|a|a vs] eqn:Hwait; try done.
    + destruct (extras st); [done|]. by intros [= <-].
    + destruct (extras st); [done|]. intros [= <-].
      unfold waits_for_values in Hw. rewrite Hwait in Hw.
      destruct Hw as [Ha Hact].
      rewrite lookup_insert_ne; [done|].
      intros Hd. pose proof (key_store_false a Ha Hd). congruence.
  - destruct (step p st t) as [e|st'] eqn:Hs; [done|].
    apply step_lookup in Hs as [Hw' Hl]; [|done].
    intros Hc. rewrite (IH st' Hw' Hc), Hl.
    by destruct (sets_flag p key t), (existsb _ argv).
Qed.

Lemma parse_args_lookup argv options :
  parse_args p argv = inr options ->
  options !! key
  = if existsb (sets_flag p key) argv then Some (VBool false)
    else defaults p !! key.
Proof.
  unfold parse_args. destruct (has_token _ _ _); [done|].
  destruct (has_token _ _ _); [done|].
  by apply consume_lookup.
Qed.

End ArgparseFacts.

(* ================================================================== *)
(** * The options of the script *)
(* ================================================================== *)

Section Options.
Import Argparse.
Context `{Environment}.
Local Open Scope string_scope.

Ltac each_argument Ha :=
  unfold parser in Ha;
  repeat (apply elem_of_cons in Ha as [->|Ha]);
  [..|by apply not_elem_of_nil in Ha].

Lemma keepdomaincomments_store_false a :
  a ∈ parser -> dest a = "keepdomaincomments" -> act a = store_false.
Proof. intros Ha. each_argument Ha; by intros [=]. Qed.

Lemma no_outputsubfolder a :
  a ∈ parser -> dest a = "outputsubfolder" -> act a = store_false.
Proof. intros Ha. each_argument Ha; by intros [=]. Qed.

Lemma keepdomaincomments_names name a :
  (name, a) ∈ option_table parser -> dest a = "keepdomaincomments" ->
  name = "--keepdomaincomments" \/ name = "-k".
Proof.
  intros Hin. unfold option_table, parser in Hin. cbn in Hin.
  repeat (apply elem_of_cons in Hin as [[= -> ->]|Hin]);
    [..|by apply not_elem_of_nil in Hin];
    intros [=]; auto.
Qed.

Lemma startswith_take (a p : pystr) :
  startswith a p = true -> p = take (length p) a.
Proof.
  revert a. induction p as [|y p IH]; intros [|x a]; simpl; try done.
  intros [->%N.eqb_eq Hp]%andb_true_iff. by rewrite <- IH.
Qed.

Lemma startswith_length (a p : pystr) :
  startswith a p = true -> (length p <= length a)%nat.
Proof.
  revert a. induction p as [|y p IH]; intros [|x a]; simpl;
    try done; try lia.
  intros [_ Hp]%andb_true_iff. apply IH in Hp. lia.
Qed.

(** The words that the parser reads as the flag [-k]. *)
Lemma sets_keepdomaincomments t :
  sets_flag parser "keepdomaincomments" t = supplies_keepdomaincomments t.
Proof.
  apply eq_true_iff_eq. split.
  - unfold sets_flag.
    destruct (classify parser t) as [|a [v|]| | |] eqn:Hc; try done.
    intros Hd%bool_decide_eq_true.
    apply classify_Option in Hc as (name & Hin & Hname).
    destruct (keepdomaincomments_names name a Hin Hd) as [-> | ->];
      destruct Hname as [[_ <-]|(c & rest & -> & Hs)]; done.
  - unfold supplies_keepdomaincomments.
    intros [->%bool_decide_eq_true|[Hlen Hs]%andb_true_iff]%orb_true_iff;
      [vm_compute; reflexivity|].
    apply Nat.leb_le in Hlen.
    pose proof (startswith_length _ _ Hs) as Hle.
    apply startswith_take in Hs. revert Hs Hlen Hle.
    generalize (length t) as n. intros n -> Hlen Hle.
    change (length (u "--keepdomaincomments")) with 20%nat in Hle.
    do 3 (destruct n as [|n]; [lia|]).
    do 18 (destruct n as [|n]; [vm_compute; reflexivity|]).
    lia.
Qed.

(** C10: the flag [--keepdomaincomments] ([-k], or an abbreviation of
    the long form) sets [keepdomaincomments] to false, in the options
    and in the settings that the options are laid over; without the
    flag it is true. *)
Theorem keepdomaincomments_flag argv options :
  parse_args parser argv = inr options ->
  options !! "keepdomaincomments"
    = Some (VBool (negb (existsb supplies_keepdomaincomments argv)))
  /\ update get_defaults options !! "keepdomaincomments"
     = Some (VBool (negb (existsb supplies_keepdomaincomments argv))).
Proof.
  intros Hp.
  assert (Ho : options !! "keepdomaincomments"
               = Some (VBool (negb (existsb supplies_keepdomaincomments
                                            argv)))).
  { rewrite (parse_args_lookup parser "keepdomaincomments"
               keepdomaincomments_store_false argv options Hp).
    replace (existsb (sets_flag parser "keepdomaincomments") argv)
      with (existsb supplies_keepdomaincomments argv).
    - by destruct (existsb _ _).
    - clear. induction argv as [|t ts IH]; simpl; [done|].
      by rewrite sets_keepdomaincomments, IH. }
  split; [done|].
  unfold update. by erewrite lookup_union_Some_l.
Qed.

End Options.

Section Defaults.
Context `{Environment}.
Local Open Scope string_scope.

(** C7: with no option on the command line, [targetip] is [0.0.0.0],
    [keepdomaincomments] is true, and [skipstaticblackhole], [compress]
    and [minimise] are false: in the defaults, in the options that the
    parser returns for the empty command line, and in the settings that
    lay the second over the first. *)
Theorem default_configuration :
  (get_defaults !! "targetip" = Some (VStr (u "0.0.0.0"))
   /\ get_defaults !! "keepdomaincomments" = Some (VBool true)
   /\ get_defaults !! "skipstaticblackhole" = Some (VBool false)
   /\ get_defaults !! "compress" = Some (VBool false)
   /\ get_defaults !! "minimise" = Some (VBool false))
  /\ exists options,
       Argparse.parse_args parser [] = inr options
       /\ (options !! "ip" = Some (VStr (u "0.0.0.0"))
           /\ options !! "keepdomaincomments" = Some (VBool true)
           /\ options !! "skipstaticblackhole" = Some (VBool false)
           /\ options !! "compress" = Some (VBool false)
           /\ options !! "minimise" = Some (VBool false))
       /\ (update get_defaults options !! "targetip"
             = Some (VStr (u "0.0.0.0"))
           /\ update get_defaults options !! "keepdomaincomments"
              = Some (VBool true)
           /\ update get_defaults options !! "skipstaticblackhole"
              = Some (VBool false)
           /\ update get_defaults options !! "compress" = Some (VBool false)
           /\ update get_defaults options !! "minimise"
              = Some (VBool false)).
Proof.
  split; [repeat split; reflexivity|].
  eexists. split; [reflexivity|].
  split; repeat split; reflexivity.
Qed.

(** ** The run of [main] *)

Lemma sets_no_outputsubfolder t :
  sets_flag parser "outputsubfolder" t = false.
Proof.
  unfold sets_flag.
  destruct (Argparse.classify parser t) as [|a [v|]| | |] eqn:Hc; try done.
  apply bool_decide_eq_false. intros Hd.
  apply classify_in in Hc.
  by pose proof (no_outputsubfolder a Hc Hd) as Hact;
     unfold parser in Hc;
     repeat (apply elem_of_cons in Hc as [->|Hc]);
     try (by apply not_elem_of_nil in Hc).
Qed.

(** No option of the parser has the attribute [outputsubfolder]: the
    options of every command line lack the key that [main] reads on
    line 105. *)
Lemma options_lack_outputsubfolder argv options :
  Argparse.parse_args parser argv = inr options ->
  options !! "outputsubfolder" = None.
Proof.
  intros Hp.
  rewrite (parse_args_lookup parser "outputsubfolder"
             no_outputsubfolder argv options Hp).
  replace (existsb _ argv) with false; [reflexivity|].
  clear. induction argv as [|t ts IH]; simpl; [done|].
  by rewrite sets_no_outputsubfolder.
Qed.

(** [main] makes no call: it ends while it reads the command line,
    or it raises [KeyError] on line 105. *)
Lemma main_raises argv tr :
  exists e, main argv tr = (inl e, tr)
            /\ (forall options,
                  Argparse.parse_args parser argv = inr options ->
                  e = KeyError "outputsubfolder").
Proof.
  unfold main, mbind, M_bind, lift.
  destruct (Argparse.parse_args parser argv) as [e|options] eqn:Hp.
  - exists e. split; [done|]. intros options [=].
  - exists (KeyError "outputsubfolder"). split; [|done].
    unfold merge_options, getitem.
    by rewrite (options_lack_outputsubfolder argv options Hp).
Qed.

End Defaults.

(* ================================================================== *)
(** * The calls of [main] *)
(* ================================================================== *)

Section Calls.
Context `{Environment}.
Local Open Scope string_scope.
Local Open Scope list_scope.

Lemma applied_app tr1 tr2 : applied (tr1 ++ tr2) = applied tr1 ++ applied tr2.
Proof. unfold applied. apply List.filter_app. Qed.

Lemma emits_ret {A} (x : A) n : emits (mret x) n.
Proof. intros tr. exists []. simpl. split; [by rewrite app_nil_r | lia]. Qed.

Lemma emits_lift {A} (r : result A) n : emits (lift r) n.
Proof. intros tr. exists []. simpl. split; [by rewrite app_nil_r | lia]. Qed.

Lemma emits_invoke_other name args n :
  is_postprocessor (Call name args) = false -> emits (invoke name args) n.
Proof.
  intros Hn tr. exists [Call name args]. split; [done|].
  unfold applied. simpl. rewrite Hn. simpl. lia.
Qed.

Lemma emits_invoke name args : emits (invoke name args) 1.
Proof.
  intros tr. exists [Call name args]. split; [done|].
  unfold applied. simpl. destruct (is_postprocessor _); simpl; lia.
Qed.

Lemma emits_bind {A B} (m : M A) (f : A -> M B) n1 n2 :
  emits m n1 -> (forall x, emits (f x) n2) -> emits (m ≫= f) (n1 + n2).
Proof.
  intros Hm Hf tr. unfold mbind, M_bind.
  destruct (Hm tr) as (new1 & Hn1 & Hl1).
  destruct (m tr) as [[e|x] tr1]; simpl in *; subst tr1.
  - exists new1. split; [done | lia].
  - destruct (Hf x (tr ++ new1)) as (new2 & Hn2 & Hl2).
    exists (new1 ++ new2). rewrite Hn2, app_assoc. split; [done|].
    rewrite applied_app, length_app. lia.
Qed.

Lemma emits_quiet_then {A B} (m : M A) (f : A -> M B) n :
  emits m 0 -> (forall x, emits (f x) n) -> emits (m ≫= f) n.
Proof. intros Hm Hf. by apply (emits_bind m f 0 n). Qed.

Lemma emits_then_quiet {A B} (m : M A) (f : A -> M B) n :
  emits m n -> (forall x, emits (f x) 0) -> emits (m ≫= f) n.
Proof.
  intros Hm Hf. rewrite <- (Nat.add_0_r n). by apply emits_bind.
Qed.

(** Computations without a post-processor. *)
Ltac quiet :=
  repeat first
    [ apply emits_ret
    | apply emits_lift
    | apply emits_invoke_other; reflexivity
    | apply emits_quiet_then; [|intros ?]
    | match goal with
      | |- emits (if ?b then _ else _) _ => destruct b
      end ].

Lemma write_final_file_emits settings merge_file exclusion_regexes :
  emits (write_final_file settings merge_file exclusion_regexes) 1.
Proof.
  unfold write_final_file.
  apply emits_quiet_then; [quiet|intros c]. destruct (truthy c).
  - do 5 (apply emits_quiet_then; [quiet|intros ?]).
    apply emits_then_quiet; [apply emits_invoke | intros; quiet].
  - apply emits_quiet_then; [quiet|intros m]. destruct (truthy m).
    + do 5 (apply emits_quiet_then; [quiet|intros ?]).
      apply emits_then_quiet; [apply emits_invoke | intros; quiet].
    + quiet.
Qed.

Lemma run_with_emits settings : emits (run_with settings) 1.
Proof.
  unfold run_with.
  do 18 (apply emits_quiet_then; [by quiet|intros ?]).
  apply emits_then_quiet; [apply write_final_file_emits|intros ?].
  quiet.
Qed.

Lemma main_emits argv : emits (main argv) 1.
Proof.
  intros tr. destruct (main_raises argv tr) as (e & -> & _).
  exists []. simpl. split; [by rewrite app_nil_r | lia].
Qed.

Lemma both_called tr :
  called "compress_file" tr -> called "minimise_file" tr ->
  (2 <= length (applied tr))%nat.
Proof.
  intros [a1 H1] [a2 H2].
  assert (Call "compress_file" a1 ∈ applied tr) as Hc
    by (apply list_elem_of_In, filter_In; by rewrite <- list_elem_of_In).
  assert (Call "minimise_file" a2 ∈ applied tr) as Hm
    by (apply list_elem_of_In, filter_In; by rewrite <- list_elem_of_In).
  destruct (applied tr) as [|x [|y l]]; simpl; [| |lia].
  - by apply not_elem_of_nil in Hc.
  - apply list_elem_of_singleton in Hc, Hm. congruence.
Qed.

(** ** What the calls are given *)

Lemma always_ret {A} (P : call -> Prop) (x : A) : always P (mret x).
Proof. intros tr. exists []. simpl. by rewrite app_nil_r. Qed.

Lemma always_lift {A} (P : call -> Prop) (r : result A) :
  always P (lift r).
Proof. intros tr. exists []. simpl. by rewrite app_nil_r. Qed.

Lemma always_invoke (P : call -> Prop) name args :
  P (Call name args) -> always P (invoke name args).
Proof. intros HP tr. exists [Call name args]. split; [done|]. by constructor. Qed.

Lemma always_bind {A B} (P : call -> Prop) (m : M A) (f : A -> M B) :
  always P m -> (forall x, always P (f x)) -> always P (m ≫= f).
Proof.
  intros Hm Hf tr. unfold mbind, M_bind.
  destruct (Hm tr) as (new1 & Hn1 & Hl1).
  destruct (m tr) as [[e|x] tr1]; simpl in *; subst tr1.
  - by exists new1.
  - destruct (Hf x (tr ++ new1)) as (new2 & Hn2 & Hl2).
    exists (new1 ++ new2). rewrite Hn2, app_assoc. split; [done|].
    by apply Forall_app.
Qed.

Lemma always_getitem {B} (P : call -> Prop) (d : dict) key
    (f : pyval -> M B) :
  (forall x, d !! key = Some x -> always P (f x)) ->
  always P (lift (getitem d key) ≫= f).
Proof.
  intros Hf tr. unfold mbind, M_bind, lift, getitem.
  destruct (d !! key) as [x|] eqn:Hx.
  - destruct (Hf x eq_refl tr) as (new & ? & ?). by exists new.
  - exists []. simpl. by rewrite app_nil_r.
Qed.

(** Computations that do not collect exclusions. *)
Ltac other :=
  repeat first
    [ apply always_ret
    | apply always_lift
    | apply always_invoke; by intros [=]
    | apply always_bind; [|intros ?]
    | match goal with
      | |- always _ (if ?b then _ else _) => destruct b
      end ].

(** The exclusion pattern of the settings is the one that [main] hands
    to [display_exclusion_options]. *)
Lemma run_with_hands_over settings pattern :
  settings !! "exclusionpattern" = Some pattern ->
  always (hands_over pattern) (run_with settings).
Proof.
  intros Hp. unfold run_with, write_final_file.
  do 8 (apply always_bind; [by other|intros ?]).
  apply always_bind; [|intros ?; by other].
  match goal with
  | |- always _ (if ?b then _ else _) => destruct b
  end; [|by other].
  apply always_bind; [by other|intros ce].
  apply always_getitem. intros q Hq.
  apply always_invoke. intros _. rewrite Hp in Hq. injection Hq as <-.
  by eexists _, _.
Qed.

(** C5: at most one post-processor is applied.  The block of [main]
    that writes the final file calls [compress_file] or
    [minimise_file] at most once, whatever the settings are, both flags
    set included; so do the part of [main] that follows the settings and
    [main] itself; and no trace of them holds a call of each. *)
Theorem at_most_one_postprocessor :
  (forall settings merge_file exclusion_regexes,
     emits (write_final_file settings merge_file exclusion_regexes) 1)
  /\ (forall settings, emits (run_with settings) 1)
  /\ (forall argv, emits (main argv) 1)
  /\ (forall settings merge_file exclusion_regexes,
        let tr := snd (write_final_file settings merge_file
                                        exclusion_regexes []) in
        ~ (called "compress_file" tr /\ called "minimise_file" tr))
  /\ (forall settings,
        let tr := snd (run_with settings []) in
        ~ (called "compress_file" tr /\ called "minimise_file" tr))
  /\ (forall argv,
        let tr := snd (main argv []) in
        ~ (called "compress_file" tr /\ called "minimise_file" tr)).
Proof.
  assert (Hnot : forall A (m : M A),
             emits m 1 ->
             ~ (called "compress_file" (snd (m []))
                /\ called "minimise_file" (snd (m [])))).
  { intros A m Hm [Hc Hmin]. destruct (Hm []) as (new & Hn & Hl).
    simpl in Hn. rewrite Hn in Hc, Hmin.
    pose proof (both_called new Hc Hmin). lia. }
  split; [apply write_final_file_emits|].
  split; [apply run_with_emits|].
  split; [apply main_emits|].
  split; [intros; apply Hnot, write_final_file_emits|].
  split; [intros; apply Hnot, run_with_emits|].
  intros; apply Hnot, main_emits.
Qed.

End Calls.

(* ================================================================== *)
(** * The extensions *)
(* ================================================================== *)

Section StringOrder.

Lemma pystr_leb_total a b : pystr_leb a b = true \/ pystr_leb b a = true.
Proof.
  revert b. induction a as [|x a IH]; intros [|y b]; simpl; auto.
  destruct (N.ltb_spec x y), (N.ltb_spec y x); auto; lia.
Qed.

Lemma pystr_leb_trans a b c :
  pystr_leb a b = true -> pystr_leb b c = true -> pystr_leb a c = true.
Proof.
  revert b c. induction a as [|x a IH]; intros [|y b] [|z c]; simpl;
    try done.
  destruct (N.ltb_spec x y), (N.ltb_spec y x), (N.ltb_spec y z),
    (N.ltb_spec z y), (N.ltb_spec x z), (N.ltb_spec z x);
    try done; try lia.
  apply IH.
Qed.

Lemma pystr_leb_antisym a b :
  pystr_leb a b = true -> pystr_leb b a = true -> a = b.
Proof.
  revert b. induction a as [|x a IH]; intros [|y b]; simpl; try done.
  destruct (N.ltb_spec x y), (N.ltb_spec y x); try done; try lia.
  intros Hab Hba. f_equal; [lia | by apply IH].
Qed.

Lemma pystr_le_total : Total pystr_le.
Proof. intros a b. apply pystr_leb_total. Qed.

Lemma pystr_le_trans : Transitive pystr_le.
Proof. intros a b c. apply pystr_leb_trans. Qed.

Lemma pystr_le_antisym : AntiSymm (=) pystr_le.
Proof. intros a b. apply pystr_leb_antisym. Qed.

#[local] Existing Instances pystr_le_total pystr_le_trans pystr_le_antisym.

(** Sorted without duplicates is strictly sorted, and conversely. *)
Lemma strictly_sorted l :
  StronglySorted pystr_lt l <-> StronglySorted pystr_le l /\ NoDup l.
Proof.
  induction l as [|x l IH].
  - split; [intros _; split; constructor | constructor].
  - rewrite !StronglySorted_cons, NoDup_cons, IH, !Forall_forall.
    unfold pystr_lt. split.
    + intros [Hx [Hs Hn]]. repeat split; try done.
      * intros y Hy. by apply Hx.
      * intros Hin. by destruct (Hx x Hin).
    + intros [[Hx Hs] [Hni Hn]]. repeat split; try done.
      * by apply Hx.
      * intros ->. done.
Qed.

(** What [sorted] makes of the members of two collections. *)
Lemma sorted_intersection_spec requested available :
  let effective := sorted_intersection requested available in
  StronglySorted pystr_lt effective
  /\ (forall x, x ∈ effective <-> x ∈ requested /\ x ∈ available)
  /\ (forall l,
        StronglySorted pystr_lt l ->
        (forall x, x ∈ l <-> x ∈ requested /\ x ∈ available) ->
        l = effective).
Proof.
  intros effective. subst effective. unfold sorted_intersection.
  set (s := (list_to_set requested : gset pystr) ∩ list_to_set available).
  assert (Hperm : merge_sort pystr_le (elements s) ≡ₚ elements s)
    by apply merge_sort_Permutation.
  assert (Hmem : forall x,
             x ∈ merge_sort pystr_le (elements s)
             <-> x ∈ requested /\ x ∈ available).
  { intros x. rewrite Hperm, elem_of_elements. subst s.
    by rewrite elem_of_intersection, !elem_of_list_to_set. }
  assert (Hsorted : StronglySorted pystr_lt
                      (merge_sort pystr_le (elements s))).
  { apply strictly_sorted. split.
    - apply StronglySorted_merge_sort; apply _.
    - rewrite Hperm. apply NoDup_elements. }
  split; [done|]. split; [done|].
  intros l Hl Hin.
  apply strictly_sorted in Hl as [Hl Hn], Hsorted as [Hs Hns].
  apply (StronglySorted_unique pystr_le); try done.
  apply NoDup_Permutation; try done.
  intros x. by rewrite Hin, Hmem.
Qed.

End StringOrder.

Section Extensions.
Context `{Environment}.
Local Open Scope string_scope.

(** C9: the extensions that the run goes on with are the requested
    extensions that are also base names of the entries of the
    extensions directory, each once, in the order of [sorted] on strings
    (code point by code point); this fixes the list.  A requested
    extension without an entry is left out, and it is no error: the
    settings are returned all the same. *)
Theorem effective_extensions
    options settings requested data_path extensions_path :
  options !! "extensions" = Some requested ->
  settings !! "datapath" = Some data_path ->
  settings !! "extensionspath" = Some extensions_path ->
  let available := map basename (list_dir_no_hidden extensions_path) in
  let effective := sorted_intersection (as_strs requested) available in
  exists settings',
    find_sources options settings = inr settings'
    /\ settings' !! "extensions" = Some (strs effective)
    /\ StronglySorted pystr_lt effective
    /\ (forall x,
          x ∈ effective <-> x ∈ as_strs requested /\ x ∈ available)
    /\ (forall l,
          StronglySorted pystr_lt l ->
          (forall x, x ∈ l <-> x ∈ as_strs requested /\ x ∈ available) ->
          l = effective).
Proof.
  intros Ho Hd He available effective.
  unfold find_sources, getitem. rewrite Hd, He, Ho.
  eexists. split; [reflexivity|].
  split; [by rewrite lookup_insert_eq|].
  apply sorted_intersection_spec.
Qed.

End Extensions.

(* ================================================================== *)
(** * The default of the exclusion pattern *)
(* ================================================================== *)

Section ExclusionPatternDefault.
Import Re Core.
Context `{Environment}.

(** C6, as amended: the default of [exclusionpattern] is the text
    [([a-zA-Z\d-]+\.){0,}].  On ASCII strings it denotes the language of
    the fragment [([a-zA-Z0-9-]+\.){0,}], and on all strings a language
    that contains it.  It is the pattern that [main] hands over when it
    collects the exclusions, and the fragment put in front of a literal
    blacklist domain. *)
Theorem exclusionpattern_default :
  get_defaults !! "exclusionpattern"%string
    = Some (VStr (u "([a-zA-Z\d-]+\.){0,}"))
  /\ (forall s,
        forallb is_ascii s = true ->
        pattern_matches default_exclusionpattern s
        = pattern_matches spec_exclusionpattern s)
  /\ (forall s,
        pattern_matches spec_exclusionpattern s = true ->
        pattern_matches default_exclusionpattern s = true)
  /\ (forall options settings,
        options !! "exclusionpattern"%string = None ->
        settings = update get_defaults options ->
        always (hands_over (VStr default_exclusionpattern))
               (run_with settings))
  /\ (forall d,
        entry_pattern default_exclusionpattern (Literal d)
        = default_exclusionpattern ++ d).
Proof.
  split; [reflexivity|].
  unfold pattern_matches. rewrite compile_default, compile_spec.
  split; [|split; [|split; [|done]]].
  - intros s Hs.
    assert (Forall (fun c => c < 128) s) as Hs'.
    { apply Forall_forall. intros c Hc.
      rewrite forallb_forall in Hs. apply list_elem_of_In in Hc.
      apply Hs in Hc. by apply N.ltb_lt in Hc. }
    apply eq_true_iff_eq. rewrite !fullmatch_lang. split; intros Hl.
    + eapply lang_below; [exact Hl| |exact Hs'].
      apply labels_of_below. intros c Hc. by rewrite default_set_ascii.
    + eapply lang_below; [exact Hl| |exact Hs'].
      apply labels_of_below. intros c Hc. by rewrite default_set_ascii.
  - intros s. rewrite !fullmatch_lang. intros Hl.
    eapply (lang_below (fun _ => True)); [exact Hl| |].
    + apply labels_of_below. intros c _. apply spec_set_below_default.
    + by apply Forall_forall.
  - intros options settings Ho ->. apply run_with_hands_over.
    unfold update. rewrite lookup_union_r by done. reflexivity.
Qed.

End ExclusionPatternDefault.

(** C6: Arabic-Indic digit three and a dot ([U+0663 U+002E]) is in the
    language of the default pattern, through [\d], and is not in the
    language of the fragment of the specification. *)
Lemma exclusionpattern_not_spec_language :
  pattern_matches (@default_exclusionpattern (posix_environment []))
                  [1635; 46] = true
  /\ pattern_matches spec_exclusionpattern [1635; 46] = false.
Proof. split; vm_compute; reflexivity. Qed.


(* ================================================================== *)
(** * What the command line cannot set *)
(* ================================================================== *)

Section Undeclared.
Context `{Environment}.
Local Open Scope string_scope.

(** A key that is the attribute of no option keeps, through the parse,
    what the defaults of the parser give it. *)
Lemma undeclared_key key argv options :
  Forall (fun a => Argparse.dest a <> key) parser ->
  Argparse.parse_args parser argv = inr options ->
  options !! key = Argparse.defaults parser !! key.
Proof.
  intros Hk Hp. rewrite Forall_forall in Hk.
  rewrite (parse_args_lookup parser key) with (argv := argv) by
    (done || (intros a Ha Hd; by apply Hk in Ha)).
  replace (existsb _ argv) with false; [done|].
  clear Hp. induction argv as [|t ts IH]; simpl; [done|].
  rewrite <- IH, orb_false_r. unfold sets_flag.
  destruct (Argparse.classify parser t) as [|a [v|]| | |] eqn:Hc; try done.
  symmetry. apply bool_decide_eq_false.
  apply classify_in in Hc. by apply Hk.
Qed.

(** X1: [main] makes no call: it ends while it reads the command line,
    and when the command line parses it raises [KeyError] on line 105,
    for the parser gives [--output] the attribute [output], and none the
    attribute [outputsubfolder]. *)
Theorem main_stops_at_outputsubfolder argv tr :
  exists e,
    main argv tr = (inl e, tr)
    /\ (forall options,
          Argparse.parse_args parser argv = inr options ->
          e = KeyError "outputsubfolder").
Proof. apply main_raises. Qed.

(** X2: the option [--ip] does not reach [targetip]: the parser stores
    its value under [ip], so that the settings keep the default target. *)
Theorem ip_option_leaves_targetip argv options :
  Argparse.parse_args parser argv = inr options ->
  options !! "targetip" = None
  /\ update get_defaults options !! "targetip" = Some (VStr (u "0.0.0.0")).
Proof.
  intros Hp.
  assert (options !! "targetip" = None) as Ho.
  { rewrite (undeclared_key "targetip" argv options); [done| |done].
    unfold parser. repeat constructor; by intros [=]. }
  split; [done|]. unfold update. by rewrite lookup_union_r.
Qed.

End Undeclared.

(* ================================================================== *)
(** * The order of the readme files *)
(* ================================================================== *)

Section SortKeys.
Import Readme.

Lemma key_leb_refl a : key_leb a a = true.
Proof.
  unfold key_leb. rewrite Nat.eqb_refl.
  destruct (pystr_leb_total a.2 a.2) as [-> | ->]; apply orb_true_r.
Qed.

Lemma key_leb_total a b : key_leb a b = false -> key_leb b a = true.
Proof.
  unfold key_leb. intros Hab.
  destruct (Nat.ltb_spec a.1 b.1), (Nat.ltb_spec b.1 a.1),
    (Nat.eqb_spec a.1 b.1), (Nat.eqb_spec b.1 a.1);
    simpl in *; try done; try lia.
  by destruct (pystr_leb_total a.2 b.2) as [Ht | Ht]; rewrite Ht in *.
Qed.

Lemma key_leb_trans a b c :
  key_leb a b = true -> key_leb b c = true -> key_leb a c = true.
Proof.
  unfold key_leb.
  destruct (Nat.ltb_spec a.1 b.1), (Nat.ltb_spec b.1 c.1),
    (Nat.ltb_spec a.1 c.1), (Nat.eqb_spec a.1 b.1), (Nat.eqb_spec b.1 c.1),
    (Nat.eqb_spec a.1 c.1); simpl; try done; try lia.
  apply pystr_leb_trans.
Qed.

Lemma key_leb_not_after a b :
  key_leb (sort_key a) (sort_key b) = true <-> not_after a b.
Proof.
  unfold key_leb, not_after, hyphens, plain_name, sort_key, pystr_le. simpl.
  rewrite orb_true_iff, andb_true_iff, Nat.ltb_lt, Nat.eqb_eq. tauto.
Qed.

Lemma insert_key_Permutation x l : insert_key x l ≡ₚ x :: l.
Proof.
  induction l as [|y l IH]; simpl; [done|].
  destruct (key_leb _ _); [done|]. by rewrite IH, Permutation_swap.
Qed.

Lemma insert_key_sorted x l :
  StronglySorted not_after l -> StronglySorted not_after (insert_key x l).
Proof.
  induction 1 as [|y l Hl IH Hy]; simpl.
  - repeat constructor.
  - destruct (key_leb _ _) eqn:Hxy.
    + constructor; [by constructor|].
      constructor; [by apply key_leb_not_after|].
      eapply Forall_impl; [exact Hy|]. intros z Hz.
      apply key_leb_not_after. eapply key_leb_trans; [exact Hxy|].
      by apply key_leb_not_after.
    + constructor; [done|].
      rewrite insert_key_Permutation. constructor; [|done].
      by apply key_leb_not_after, key_leb_total.
Qed.

Lemma insert_key_peers item x l :
  peers item (insert_key x l) = peers item (x :: l).
Proof.
  unfold peers. induction l as [|y l IH]; simpl; [done|].
  destruct (key_leb _ _) eqn:Hxy; [done|].
  simpl in *. rewrite IH.
  destruct (bool_decide_reflect (sort_key x = sort_key item)) as [Hx|Hx];
    [|done].
  destruct (bool_decide_reflect (sort_key y = sort_key item)) as [Hy|Hy];
    [|done].
  rewrite Hx, <- Hy, key_leb_refl in Hxy. done.
Qed.

Lemma sort_keys_Permutation data : sort_keys data ≡ₚ map fst data.
Proof.
  unfold sort_keys. induction (map fst data) as [|x l IH]; simpl; [done|].
  by rewrite insert_key_Permutation, IH.
Qed.

Lemma sort_keys_sorted data : StronglySorted not_after (sort_keys data).
Proof.
  unfold sort_keys. induction (map fst data) as [|x l IH]; simpl.
  - constructor.
  - by apply insert_key_sorted.
Qed.

Lemma sort_keys_peers data item :
  peers item (sort_keys data) = peers item (map fst data).
Proof.
  unfold sort_keys. induction (map fst data) as [|x l IH]; simpl; [done|].
  rewrite insert_key_peers. unfold peers in *. simpl. by rewrite IH.
Qed.

Lemma not_after_antisym a b :
  not_after a b -> not_after b a -> sort_key a = sort_key b.
Proof.
  unfold not_after, sort_key, hyphens, plain_name, pystr_le.
  intros [?|[Hn Hab]] [?|[Hn' Hba]]; try lia.
  by rewrite Hn, (pystr_leb_antisym _ _ Hab Hba).
Qed.

(** Two stable sorts of the same items are the same list. *)
Lemma stable_sort_unique l1 l2 :
  l1 ≡ₚ l2 ->
  StronglySorted not_after l1 ->
  StronglySorted not_after l2 ->
  (forall item, peers item l1 = peers item l2) ->
  l1 = l2.
Proof.
  revert l2. induction l1 as [|x l1 IH]; intros l2 Hp Hs1 Hs2 He.
  - by apply Permutation_nil_l in Hp.
  - destruct l2 as [|y l2]; [by apply Permutation_nil_r in Hp|].
    apply StronglySorted_inv in Hs1 as [Hs1 Hx].
    apply StronglySorted_inv in Hs2 as [Hs2 Hy].
    assert (Hxy : sort_key x = sort_key y).
    { destruct (decide (x = y)) as [->|Hne]; [done|].
      apply not_after_antisym.
      - eapply Forall_forall; [exact Hx|].
        assert (Hin : y ∈ x :: l1) by (rewrite Hp; left).
        by apply elem_of_cons in Hin as [->|?].
      - eapply Forall_forall; [exact Hy|].
        assert (Hin : x ∈ y :: l2) by (rewrite <- Hp; left).
        by apply elem_of_cons in Hin as [->|?]. }
    assert (x = y) as <-.
    { specialize (He x). unfold peers in He. simpl in He.
      rewrite bool_decide_eq_true_2 in He by done.
      rewrite (bool_decide_eq_true_2 _ (eq_sym Hxy)) in He.
      by injection He. }
    f_equal. apply IH; try done.
    + by apply Permutation_cons_inv in Hp.
    + intros item. specialize (He item). unfold peers in *. simpl in He.
      by destruct (bool_decide _); [injection He|].
Qed.

(** X3: [sort_keys] returns the keys of the data, each as often as it is
    there; a key is not after the keys that follow it, in the order that
    compares the number of hyphens first and the names second, both after
    the removal of [-only]; keys that this order cannot tell apart stay
    in the order of the data; and no other list is such. *)
Theorem sort_keys_stable (data : readme_data) :
  sort_keys data ≡ₚ map fst data
  /\ StronglySorted not_after (sort_keys data)
  /\ (forall item, peers item (sort_keys data) = peers item (map fst data))
  /\ forall keys,
       keys ≡ₚ map fst data ->
       StronglySorted not_after keys ->
       (forall item, peers item keys = peers item (map fst data)) ->
       keys = sort_keys data.
Proof.
  split; [apply sort_keys_Permutation|].
  split; [apply sort_keys_sorted|].
  split; [apply sort_keys_peers|].
  intros keys Hp Hs He. apply stable_sort_unique; try done.
  - by rewrite sort_keys_Permutation.
  - apply sort_keys_sorted.
  - intros item. by rewrite sort_keys_peers.
Qed.

End SortKeys.

(* ================================================================== *)
(** * Texts and numbers *)
(* ================================================================== *)

Section Texts.

Lemma replace_from_absent a old new s :
  a ∉ s -> replace_from (a :: old) new 0 s = s.
Proof.
  induction s as [|c s IH]; simpl; [done|].
  rewrite not_elem_of_cons. intros [Hc Hs].
  destruct (N.eqb_spec c a) as [->|_]; [done|]. simpl. by rewrite IH.
Qed.

(** A text in which the first character of [old] does not occur is left
    as it is. *)
Lemma str_replace_absent a old new s :
  a ∉ s -> str_replace s (a :: old) new = s.
Proof. apply replace_from_absent. Qed.

Lemma str_replace_char a b s :
  str_replace s [a] [b] = map (fun c => if c =? a then b else c) s.
Proof.
  unfold str_replace. induction s as [|c s IH]; simpl; [done|].
  replace (startswith s []) with true by (by destruct s).
  rewrite andb_true_r. destruct (c =? a); simpl; by rewrite IH.
Qed.

Lemma str_replace_char_absent a b s : a <> b -> a ∉ str_replace s [a] [b].
Proof.
  intros Hab. rewrite str_replace_char, list_elem_of_fmap.
  intros (c & Hc & _). destruct (N.eqb_spec c a); congruence.
Qed.

Lemma uint_chars_digits d :
  Forall (fun c => 48 <= c <= 57) (uint_chars d).
Proof. induction d; simpl; constructor; try done; lia. Qed.

Lemma decimal_value_acc d acc :
  decimal_value (N.pos acc) (uint_chars d)
  = Some (N.pos (Pos.of_uint_acc d acc)).
Proof.
  revert acc. induction d; intros acc; simpl; try done;
    rewrite <- IHd; f_equal; lia.
Qed.

Lemma decimal_value_uint d :
  decimal_value 0 (uint_chars d) = Some (N.of_uint d).
Proof.
  unfold N.of_uint. induction d; simpl; try done;
    by rewrite <- decimal_value_acc.
Qed.

Lemma decimal_value_digits n : decimal_value 0 (digits_of n) = Some n.
Proof.
  unfold digits_of. by rewrite decimal_value_uint, DecimalN.Unsigned.of_to.
Qed.

Lemma digits_of_digits n : Forall (fun c => 48 <= c <= 57) (digits_of n).
Proof. apply uint_chars_digits. Qed.

Lemma digits_of_cons n : exists c ds, digits_of n = c :: ds /\ 48 <= c <= 57.
Proof.
  pose proof (digits_of_digits n) as Hd.
  pose proof (decimal_value_digits n) as Hv.
  destruct (digits_of n) as [|c ds] eqn:Hn.
  - unfold digits_of in Hn. destruct n as [|p]; [done|].
    simpl in Hn. pose proof (DecimalPos.Unsigned.to_uint_nonnil p). 
    by destruct (Pos.to_uint p).
  - exists c, ds. split; [done|]. by inversion Hd.
Qed.

(** The text of an integer denotes it. *)
Lemma int_value_str z : int_value (str_of_int z) = Some z.
Proof.
  unfold str_of_int, int_value.
  destruct (digits_of_cons (Z.abs_N z)) as (c & ds & Hds & Hc).
  pose proof (decimal_value_digits (Z.abs_N z)) as Hv.
  destruct (Z.ltb_spec z 0); simpl.
  - rewrite Hv. simpl. f_equal. lia.
  - rewrite Hds in *. simpl app.
    destruct (N.eqb_spec c 45) as [->|_]; [lia|].
    rewrite Hv. simpl. f_equal. lia.
Qed.

Lemma uncomma_commas k r :
  Forall (fun c => 48 <= c <= 57) r -> uncomma (commas_from k r) = r.
Proof.
  unfold uncomma. intros Hr. revert k.
  induction Hr as [|c r Hc Hr IH]; intros k; simpl; [done|].
  assert (Hn : negb (c =? 44) = true)
    by (destruct (N.eqb_spec c 44); [lia|done]).
  destruct k as [|[|[|[|k]]]]; simpl; rewrite Hn, IH; done.
Qed.

(** Without its commas, the text of [format_thousands] is that of
    [str]. *)
Lemma uncomma_format_thousands z :
  uncomma (format_thousands z) = str_of_int z.
Proof.
  unfold format_thousands, str_of_int, uncomma.
  rewrite List.filter_app. f_equal; [by destruct (z <? 0)%Z|].
  rewrite List.filter_rev.
  fold (uncomma (commas_from 0 (rev (digits_of (Z.abs_N z))))).
  rewrite uncomma_commas, rev_involutive; [done|].
  apply Forall_rev, digits_of_digits.
Qed.

End Texts.

(* ================================================================== *)
(** * The table of contents *)
(* ================================================================== *)

(** The value of a key of a dictionary after some assignments. *)
Ltac lookups :=
  repeat (rewrite lookup_insert_eq || rewrite lookup_insert_ne by done).

Section Toc.
Import Readme.
Local Open Scope string_scope.
Local Open Scope list_scope.

Lemma bind_inr {A B} (m : result A) (f : A -> result B) y :
  m ≫= f = inr y <-> exists x, m = inr x /\ f x = inr y.
Proof.
  destruct m as [e|x]; simpl.
  - split; [done|]. by intros (x & Hx & _).
  - split; [by exists x|]. by intros (x' & [= <-] & Hx).
Qed.

(** A template with fields that all have a text renders. *)
Lemma render_names names mapping segs :
  forallb (names_only names) segs = true ->
  (forall name, name ∈ names -> exists s, mapping !! name = Some (VStr s)) ->
  exists text, render mapping segs = inr text.
Proof.
  intros Hsegs Hnames. induction segs as [|seg segs IH]; simpl in *.
  - by eexists.
  - apply andb_true_iff in Hsegs as [Hseg Hsegs].
    destruct (IH Hsegs) as [text Htext]. rewrite Htext.
    destruct seg as [c|name|]; simpl in *; [by eexists| |done].
    apply bool_decide_eq_true in Hseg.
    destruct (Hnames _ Hseg) as [s Hs].
    unfold getitem. rewrite Hs. simpl. by eexists.
Qed.

Lemma toc_template_names :
  forallb (names_only ["description"; "location"; "fmtentries"])
    (segments toc_template) = true.
Proof. by vm_compute. Qed.

Lemma source_template_names :
  forallb
    (names_only
       ["name"; "homeurl"; "url"; "license"; "issues"; "description"])
    (segments source_template) = true.
Proof. by vm_compute. Qed.

Lemma no_unified_blackhole_insert key v entry :
  key <> "no_unified_blackhole" ->
  no_unified_blackhole (<[key := v]> entry) = no_unified_blackhole entry.
Proof.
  intros Hkey. unfold no_unified_blackhole. by rewrite lookup_insert_ne.
Qed.

Lemma description_insert k key v entry :
  key <> "no_unified_blackhole" ->
  description k (<[key := v]> entry) = description k entry.
Proof.
  intros Hkey. unfold description.
  by rewrite no_unified_blackhole_insert.
Qed.

Lemma slashes_absent location : 92 ∉ str_replace location (u "\") (u "/").
Proof. by apply (str_replace_char_absent 92 47). Qed.

Lemma slashes_twice location :
  str_replace (str_replace location (u "\") (u "/")) (u "\") (u "/")
  = str_replace location (u "\") (u "/").
Proof. apply (str_replace_absent 92 []), slashes_absent. Qed.

(** What [toc_row] returns, and when. *)
Lemma toc_row_inr key entry row entry' :
  toc_row key entry = inr (row, entry') <->
  exists entries fmtentries location,
    entry !! "entries" = Some entries
    /\ format_number entries = inr fmtentries
    /\ entry !! "location" = Some (VStr location)
    /\ entry' =
         <["location" := VStr (str_replace location (u "\") (u "/"))]>
           (<["description" := VStr (description key entry)]>
              (<["fmtentries" := VStr fmtentries]> entry))
    /\ substitute toc_template entry' = inr row.
Proof.
  unfold toc_row. rewrite bind_inr. unfold getitem at 1. split.
  - intros (entries & Hentries & Hrow).
    destruct (entry !! "entries") as [v|] eqn:Hv; [|done].
    injection Hentries as ->. apply bind_inr in Hrow as (fmt & Hfmt & Hrow).
    apply bind_inr in Hrow as (loc & Hloc & Hrow).
    unfold getitem in Hloc. rewrite !lookup_insert_ne in Hloc by done.
    destruct (entry !! "location") as [l|] eqn:Hl; [|done].
    injection Hloc as ->. apply bind_inr in Hrow as (location & Hw & Hrow).
    destruct loc; try done. injection Hw as ->.
    apply bind_inr in Hrow as (row' & Hsub & [= <- <-]).
    rewrite description_insert in * by done.
    by exists entries, fmt, location.
  - intros (entries & fmt & location & -> & Hfmt & Hloc & -> & Hsub).
    exists entries. split; [done|].
    apply bind_inr. exists fmt. split; [done|].
    apply bind_inr. exists (VStr location). split.
    { unfold getitem. by rewrite !lookup_insert_ne, Hloc. }
    apply bind_inr. exists location. split; [done|].
    rewrite description_insert by done.
    apply bind_inr. by exists row.
Qed.

Lemma format_number_inr v :
  (exists text, format_number v = inr text)
  <-> match v with VInt _ | VBool _ | VFloat _ => True | _ => False end.
Proof.
  destruct v as [|[]| | | | | |]; simpl; split; try done; try by eexists.
  all: by intros [? ?].
Qed.

(** [toc_row] returns for the well-formed entries, and for no other. *)
Lemma toc_row_well_formed key entry :
  well_formed entry = true
  <-> exists row, toc_row key entry = inr (row, settle key entry).
Proof.
  unfold well_formed, settle. split.
  - destruct (entry !! "entries") as [entries|] eqn:He; [|done].
    destruct (entry !! "location") as [[| | |location| | | |]|] eqn:Hl;
      try by destruct entries.
    intros Hwf.
    destruct (proj2 (format_number_inr entries)) as [fmt Hfmt];
      [by destruct entries|].
    set (entry' :=
           <["location" := VStr (str_replace location (u "\") (u "/"))]>
             (<["description" := VStr (description key entry)]>
                (<["fmtentries" := VStr fmt]> entry))).
    destruct (render_names _ entry' _ toc_template_names) as [row Hrow].
    { intros name. rewrite !elem_of_cons, elem_of_nil.
      intros [->|[->|[->|[]]]]; subst entry'.
      all: lookups; by eexists. }
    assert (Hr : toc_row key entry = inr (row, entry')).
    { apply toc_row_inr. by exists entries, fmt, location. }
    rewrite Hr. by exists row.
  - intros [row Hrow].
    apply toc_row_inr in Hrow
        as (entries & fmt & location & -> & Hfmt & -> & _).
    assert (Hn : exists text, format_number entries = inr text) by eauto.
    apply format_number_inr in Hn. by destruct entries.
Qed.

Lemma toc_row_settle key entry row entry' :
  toc_row key entry = inr (row, entry') -> entry' = settle key entry.
Proof. unfold settle. by intros ->. Qed.

(** A second pass over an entry changes nothing and gives the same
    row. *)
Lemma toc_row_settled key entry row entry' :
  toc_row key entry = inr (row, entry') ->
  toc_row key entry' = inr (row, entry').
Proof.
  intros Hrow. apply toc_row_inr in Hrow
      as (entries & fmt & location & He & Hfmt & Hl & Hentry & Hsub).
  apply toc_row_inr.
  exists entries, fmt, (str_replace location (u "\") (u "/")).
  assert (Hd : description key entry' = description key entry).
  { subst entry'. by rewrite !description_insert. }
  split; [subst entry'; by lookups|].
  split; [done|].
  split; [subst entry'; by lookups|].
  split; [|done].
  rewrite slashes_twice.
  rewrite Hd.
  rewrite (insert_id entry' "fmtentries") by (subst entry'; by lookups).
  rewrite (insert_id entry' "description") by (subst entry'; by lookups).
  rewrite (insert_id entry' "location"); [done|].
  subst entry'. by lookups.
Qed.

Lemma settle_well_formed key entry :
  well_formed entry = true -> well_formed (settle key entry) = true.
Proof.
  intros Hwf. apply (toc_row_well_formed key) in Hwf as [row Hrow].
  apply toc_row_settled in Hrow.
  apply (toc_row_well_formed key). exists row.
  by rewrite <- (toc_row_settle _ _ _ _ Hrow).
Qed.

Lemma settle_settle key entry :
  settle key (settle key entry) = settle key entry.
Proof.
  unfold settle at 2 3. destruct (toc_row key entry) as [e|[row entry']] eqn:Hr.
  - unfold settle. by rewrite Hr.
  - apply toc_row_settled in Hr. unfold settle. by rewrite Hr.
Qed.

(** ** The entries of the data *)

Lemma pystr_eqb_eq a b : pystr_eqb a b = true <-> a = b.
Proof. apply bool_decide_eq_true. Qed.

Lemma lookup_store_eq key entry data :
  lookup_entry (store_entry key entry data) key
  = (fun _ => entry) <$> lookup_entry data key.
Proof.
  induction data as [|[k e] data IH]; simpl; [done|].
  destruct (pystr_eqb k key) eqn:Hk; simpl; rewrite Hk; [done|]. apply IH.
Qed.

Lemma lookup_store_ne key entry data key' :
  key <> key' ->
  lookup_entry (store_entry key entry data) key' = lookup_entry data key'.
Proof.
  intros Hne. induction data as [|[k e] data IH]; simpl; [done|].
  destruct (pystr_eqb k key) eqn:Hk; simpl.
  - apply pystr_eqb_eq in Hk as ->.
    by destruct (pystr_eqb key key') eqn:Hk'; [apply pystr_eqb_eq in Hk'|].
  - by rewrite IH.
Qed.

Lemma store_entry_id key entry data :
  lookup_entry data key = Some entry -> store_entry key entry data = data.
Proof.
  induction data as [|[k e] data IH]; simpl; [done|].
  destruct (pystr_eqb k key); [by intros [= ->]|].
  intros Hl. by rewrite IH.
Qed.

Lemma store_entry_keys key entry data :
  map fst (store_entry key entry data) = map fst data.
Proof.
  induction data as [|[k e] data IH]; simpl; [done|].
  destruct (pystr_eqb k key); simpl; by rewrite ?IH.
Qed.

Lemma lookup_entry_Some data key :
  key ∈ map fst data <-> exists entry, lookup_entry data key = Some entry.
Proof.
  induction data as [|[k e] data IH]; simpl.
  - rewrite elem_of_nil. split; [done|]. by intros [? ?].
  - rewrite elem_of_cons, IH.
    destruct (pystr_eqb k key) eqn:Hk.
    + apply pystr_eqb_eq in Hk as ->. split; [by exists e|by left].
    + split; [|by right]. intros [->|?]; [|done].
      by rewrite (proj2 (pystr_eqb_eq k k)) in Hk.
Qed.

(** What [toc_rows_of] returns: the keys are those of the data, in
    their order; the entries of [keys] are settled, the others are as
    they were; every row is that of a settled entry. *)
Lemma toc_rows_of_inr data keys rows data' :
  toc_rows_of data keys = inr (rows, data') ->
  map fst data' = map fst data
  /\ (forall key, key ∈ keys ->
        exists entry,
          lookup_entry data key = Some entry
          /\ well_formed entry = true
          /\ lookup_entry data' key = Some (settle key entry))
  /\ (forall key,
        key ∉ keys -> lookup_entry data' key = lookup_entry data key)
  /\ Forall2
       (fun key row =>
          exists entry,
            lookup_entry data' key = Some entry
            /\ toc_row key entry = inr (row, entry))
       keys rows.
Proof.
  revert data rows data'.
  induction keys as [|key keys IH]; intros data rows data'; simpl.
  - intros [= <- <-]. split; [done|]. split; [by intros ? ?%elem_of_nil|].
    split; [done|constructor].
  - rewrite bind_inr. intros (entry & Hentry & Hrest).
    unfold getentry in Hentry.
    destruct (lookup_entry data key) as [entry0|] eqn:Hl; [|done].
    injection Hentry as ->.
    apply bind_inr in Hrest as ([row entry1] & Hrow & Hrest).
    apply bind_inr in Hrest as ([rows' data''] & Hrows & [= <- <-]).
    destruct (IH _ _ _ Hrows) as (Hkeys & Hin & Hout & Hall).
    rewrite store_entry_keys in Hkeys.
    pose proof (toc_row_settle _ _ _ _ Hrow) as He1.
    pose proof (toc_row_settled _ _ _ _ Hrow) as Hrow1.
    assert (Hwf : well_formed entry = true).
    { apply (toc_row_well_formed key). exists row. by rewrite <- He1. }
    assert (Hkey : lookup_entry data'' key = Some entry1).
    { destruct (decide (key ∈ keys)) as [Hk|Hk].
      - destruct (Hin _ Hk) as (e & He & _ & ->).
        rewrite lookup_store_eq, Hl in He. injection He as <-.
        f_equal. by rewrite <- (toc_row_settle _ _ _ _ Hrow1).
      - by rewrite (Hout _ Hk), lookup_store_eq, Hl. }
    split; [done|]. split; [|split].
    + intros key' [->|Hk]%elem_of_cons.
      * exists entry. by rewrite Hkey, He1.
      * destruct (decide (key = key')) as [<-|Hne].
        { exists entry. by rewrite Hkey, He1. }
        destruct (Hin _ Hk) as (e & He & Hw & He').
        rewrite lookup_store_ne in He by done. by exists e.
    + intros key' [Hne Hk]%not_elem_of_cons.
      by rewrite (Hout _ Hk), lookup_store_ne.
    + constructor; [|done]. by exists entry1.
Qed.

(** On data that a pass has settled, a pass changes nothing. *)
Lemma toc_rows_of_settled data keys rows :
  Forall2
    (fun key row =>
       exists entry,
         lookup_entry data key = Some entry
         /\ toc_row key entry = inr (row, entry))
    keys rows ->
  toc_rows_of data keys = inr (rows, data).
Proof.
  induction 1 as [|key row keys rows (entry & Hl & Hrow) _ IH]; simpl;
    [done|].
  unfold getentry. rewrite Hl. simpl. rewrite Hrow. simpl.
  rewrite (store_entry_id _ _ _ Hl), IH. done.
Qed.

Lemma toc_rows_of_well_formed data keys :
  (exists out, toc_rows_of data keys = inr out)
  <-> Forall
        (fun key =>
           exists entry,
             lookup_entry data key = Some entry /\ well_formed entry = true)
        keys.
Proof.
  split.
  - intros [[rows data'] Hrows].
    destruct (toc_rows_of_inr _ _ _ _ Hrows) as (_ & Hin & _).
    apply Forall_forall. intros key Hkey.
    destruct (Hin _ Hkey) as (entry & ? & ? & _). by exists entry.
  - revert data. induction keys as [|key keys IH]; intros data; simpl.
    + by eexists.
    + intros [(entry & Hl & Hwf) Hkeys]%Forall_cons.
      unfold getentry. rewrite Hl. simpl.
      destruct (proj1 (toc_row_well_formed key entry) Hwf) as [row Hrow].
      rewrite Hrow. simpl.
      destruct (IH (store_entry key (settle key entry) data)) as [[rows d] Hr].
      * eapply Forall_impl; [exact Hkeys|]. simpl.
        intros key' (e & He & Hw).
        destruct (decide (key = key')) as [<-|Hne].
        -- exists (settle key entry). rewrite lookup_store_eq, Hl.
           split; [done|]. by apply settle_well_formed.
        -- exists e. by rewrite lookup_store_ne.
      * rewrite Hr. by eexists.
Qed.

End Toc.

(* ================================================================== *)
(** * What [format_toc_rows] returns *)
(* ================================================================== *)

Section TocTheorems.
Import Readme.
Local Open Scope string_scope.
Local Open Scope list_scope.

Lemma format_toc_rows_inr data keys text data' :
  format_toc_rows data keys = inr (text, data') <->
  exists rows,
    toc_rows_of data keys = inr (rows, data')
    /\ text = str_join newline rows ++ newline.
Proof.
  unfold format_toc_rows. rewrite bind_inr. split.
  - intros ([rows d] & Hrows & [= <- <-]). by exists rows.
  - intros (rows & Hrows & ->). by exists (rows, data').
Qed.

(** X4: [format_toc_rows] returns exactly when every key is one of the
    data and its entry has a number under [entries] (an [int], a [bool]
    or a [float]) and a [str] under [location]; otherwise it raises.
    The values that the entries have under [fmtentries] and
    [description] play no part. *)
Theorem format_toc_rows_returns (data : readme_data) (keys : list pystr) :
  (exists out, format_toc_rows data keys = inr out)
  <-> Forall
        (fun key =>
           exists entry,
             lookup_entry data key = Some entry /\ well_formed entry = true)
        keys.
Proof.
  rewrite <- toc_rows_of_well_formed. split.
  - intros [[text data'] (rows & Hrows & _)%format_toc_rows_inr].
    by eexists.
  - intros [[rows data'] Hrows]. eexists.
    apply format_toc_rows_inr. by exists rows.
Qed.

(** X5: a second run of [format_toc_rows], over the data that a first
    run has changed in place, returns the same rows and changes
    nothing. *)
Theorem format_toc_rows_again (data data' : readme_data)
    (keys : list pystr) (text : pystr) :
  format_toc_rows data keys = inr (text, data') ->
  format_toc_rows data' keys = inr (text, data').
Proof.
  intros (rows & Hrows & ->)%format_toc_rows_inr.
  apply format_toc_rows_inr. exists rows. split; [|done].
  apply toc_rows_of_settled.
  by destruct (toc_rows_of_inr _ _ _ _ Hrows) as (_ & _ & _ & Hall).
Qed.

#[local] Arguments Nat.modulo : simpl never.

Lemma commas_from_places k r i c :
  Forall (fun c => 48 <= c <= 57) r ->
  (k <= 3)%nat ->
  commas_from k r !! i = Some c ->
  c = 44 <-> ((i + k) mod 4 = 3)%nat.
Proof.
  intros Hr. revert k i.
  induction Hr as [|d r Hd Hr IH]; intros k i Hk; [done|].
  destruct (decide (k = 3%nat)) as [->|Hk3].
  - simpl. destruct i as [|[|i]]; simpl.
    + by intros [= <-].
    + intros [= <-]. split; [lia|done].
    + intros Hi. rewrite (IH 1%nat i) by (done || lia).
      replace (S (S (i + 3))) with (i + 1 + 1 * 4)%nat by lia.
      by rewrite Nat.Div0.mod_add.
  - assert (Hc : commas_from k (d :: r) = d :: commas_from (S k) r)
      by (by destruct k as [|[|[|[|k]]]]).
    rewrite Hc. destruct i as [|i]; simpl.
    + intros [= <-]. split; [lia|].
      rewrite Nat.mod_small by lia. lia.
    + intros Hi. rewrite (IH (S k) i) by (done || lia).
      by replace (S (i + k)) with (i + S k)%nat by lia.
Qed.

Lemma commas_from_last k r :
  Forall (fun c => 48 <= c <= 57) r -> last (commas_from k r) <> Some 44.
Proof.
  intros Hr. revert k. induction Hr as [|d r Hd Hr IH]; intros k; [done|].
  assert (Hl : forall j, last (d :: commas_from j r) <> Some 44).
  { intros j. rewrite last_cons. specialize (IH j).
    destruct (last (commas_from j r)); [done|]. intros [= ->]. lia. }
  destruct k as [|[|[|[|k]]]]; simpl commas_from; apply Hl.
Qed.

(** X6: the text that [format_toc_rows] stores under [fmtentries] for
    an entry with [z] entries reads back as [z] once its commas are
    taken out; it is the sign, if any, and digits in groups: counted from
    the end, every fourth character is a comma and no other is, and no
    comma comes first. *)
Theorem fmtentries_reads_back (key : pystr) (entry entry' : gmap string pyval)
    (row : pystr) (z : Z) :
  entry !! "entries" = Some (VInt z) ->
  toc_row key entry = inr (row, entry') ->
  exists digits,
    entry' !! "fmtentries" = Some (VStr (sign z ++ digits))
    /\ int_value (uncomma (sign z ++ digits)) = Some z
    /\ head digits <> Some 44
    /\ forall i c,
         rev digits !! i = Some c -> c = 44 <-> (i mod 4 = 3)%nat.
Proof.
  intros Hz (entries & fmt & location & He & Hfmt & _ & -> & _)%toc_row_inr.
  rewrite Hz in He. injection He as <-. injection Hfmt as <-.
  pose proof (Forall_rev (digits_of_digits (Z.abs_N z))) as Hd.
  exists (rev (commas_from 0 (rev (digits_of (Z.abs_N z))))).
  split; [by lookups|].
  split; [change (sign z ++ _) with (format_thousands z);
          by rewrite uncomma_format_thousands, int_value_str|].
  split.
  - rewrite rev_alt.
    fold (reverse (commas_from 0 (rev (digits_of (Z.abs_N z))))).
    rewrite head_reverse. by apply commas_from_last.
  - intros i c. rewrite rev_involutive. intros Hi.
    rewrite (commas_from_places 0 _ i c Hd) by (done || lia).
    by rewrite Nat.add_0_r.
Qed.

(** X7: after [format_toc_rows], the location of every entry of the
    keys is free of backslashes, whatever it was before; the entries of
    other keys are as they were. *)
Theorem format_toc_rows_locations (data data' : readme_data)
    (keys : list pystr) (text : pystr) :
  format_toc_rows data keys = inr (text, data') ->
  forall key,
    if bool_decide (key ∈ keys) then
      exists entry location,
        lookup_entry data' key = Some entry
        /\ entry !! "location" = Some (VStr location)
        /\ (92 ∉ location)
    else lookup_entry data' key = lookup_entry data key.
Proof.
  intros (rows & Hrows & ->)%format_toc_rows_inr key.
  destruct (toc_rows_of_inr _ _ _ _ Hrows) as (_ & Hin & Hout & _).
  destruct (bool_decide_reflect (key ∈ keys)) as [Hk|Hk]; [|by apply Hout].
  destruct (Hin _ Hk) as (entry & _ & Hwf & Hl).
  apply (toc_row_well_formed key) in Hwf as [row Hrow].
  apply toc_row_inr in Hrow
      as (entries & fmt & location & _ & _ & _ & Hs & _).
  exists (settle key entry). eexists. split; [done|].
  rewrite Hs. split; [by lookups|]. apply slashes_absent.
Qed.

End TocTheorems.

(* ================================================================== *)
(** * The rows of the sources *)
(* ================================================================== *)

Section SourceRows.
Import Readme.
Local Open Scope string_scope.
Local Open Scope list_scope.

Lemma string_of_u s : string_of (u s) = s.
Proof.
  induction s as [|a s IH]; simpl; [done|].
  by rewrite ascii_N_embedding, IH.
Qed.

Lemma render_text mapping s segs :
  render mapping (map Text s ++ segs)
  = text ← render mapping segs; mret (s ++ text).
Proof.
  induction s as [|c s IH]; simpl.
  - by destruct (render mapping segs).
  - rewrite IH. by destruct (render mapping segs).
Qed.

Lemma render_field mapping name segs v :
  mapping !! string_of name = Some v ->
  printable v = true ->
  render mapping (Field name :: segs)
  = text ← render mapping segs; mret (text_of v ++ text).
Proof.
  unfold printable, text_of. intros Hv Hp. simpl. unfold getitem.
  rewrite Hv. simpl. by destruct (str_of v).
Qed.

Lemma source_template_segments :
  segments source_template
  = Field (u "name") :: map Text (u " |[link](")
    ++ Field (u "homeurl") :: map Text (u ") | [raw](")
    ++ Field (u "url") :: map Text (u ") | ")
    ++ Field (u "license") :: map Text (u " | [issues](")
    ++ Field (u "issues") :: map Text (u ")| ")
    ++ Field (u "description") :: map Text [].
Proof. by vm_compute. Qed.

Lemma ior_lookup name items (this_row : gmap string pyval) dflt :
  this_row !! name = Some dflt ->
  foldl (fun d kv => <[kv.1 := kv.2]> d) this_row items !! name
  = Some (field_of name items dflt).
Proof.
  revert this_row dflt.
  induction items as [|[k v] items IH]; intros d dflt Hd; simpl; [done|].
  apply IH. destruct (String.eqb_spec k name) as [->|Hne].
  - by rewrite lookup_insert_eq.
  - by rewrite lookup_insert_ne.
Qed.

Lemma source_row_rendered items :
  forallb (fun name => printable (field_of name items (VStr [])))
    source_fields = true ->
  substitute source_template
    (foldl (fun d kv => <[kv.1 := kv.2]> d) row_defaults items)
  = inr (source_row items).
Proof.
  intros Hp. simpl in Hp. repeat (apply andb_true_iff in Hp as [? Hp]).
  unfold substitute. rewrite source_template_segments.
  set (d := foldl _ _ _).
  assert (Hd : forall name,
             row_defaults !! name = Some (VStr []) ->
             d !! name = Some (field_of name items (VStr []))).
  { intros name Hn. by apply ior_lookup. }
  repeat (erewrite render_field; [|by apply Hd|done]; rewrite render_text).
  erewrite render_field; [|by apply Hd|done].
  change (render d (map Text [])) with (@inr exception pystr []).
  cbn [mbind result_bind mret result_ret]. unfold source_row.
  rewrite app_nil_r, !string_of_u. reflexivity.
Qed.

Lemma format_source_rows_fields sources :
  Forall
    (fun items =>
       forallb (fun name => printable (field_of name items (VStr [])))
         source_fields = true)
    sources ->
  format_source_rows (VList (map VDict sources))
  = inr (str_join newline (map source_row sources) ++ newline).
Proof.
  intros Hs.
  assert (Hrows : source_rows_of (map VDict sources)
                  = inr (map source_row sources)).
  { induction Hs as [|items sources Hi Hs IH]; [reflexivity|].
    apply bind_inr. eexists. split; [reflexivity|].
    apply bind_inr. eexists. split; [by apply source_row_rendered|].
    apply bind_inr. eexists. split; [exact IH|reflexivity]. }
  apply bind_inr. eexists. split; [exact Hrows|reflexivity].
Qed.

(** X8: for sources that are dictionaries, [format_source_rows] returns
    one row for each, with the fields in the order name, home, raw,
    license, issues and description; a field that a source does not give
    is left empty, it raises no [KeyError]. *)
Theorem source_rows_fields (sources : list (list (string * pyval))) :
  Forall
    (fun items =>
       forallb (fun name => printable (field_of name items (VStr [])))
         source_fields = true)
    sources ->
  format_source_rows (VList (map VDict sources))
  = inr (str_join newline (map source_row sources) ++ newline).
Proof. apply format_source_rows_fields. Qed.

End SourceRows.

(* ================================================================== *)
(** * The readme files *)
(* ================================================================== *)

Section UpdateReadme.
Import Readme.
Local Open Scope string_scope.
Local Open Scope list_scope.

Lemma bind_inl {A B} (m : result A) (f : A -> result B) e :
  m ≫= f = inl e <-> m = inl e \/ exists x, m = inr x /\ f x = inl e.
Proof.
  destruct m as [e'|x]; simpl.
  - split; [by intros [= ->]; left|]. by intros [[= ->]|(x & Hx & _)].
  - split; [by intros; right; exists x|]. by intros [?|(x' & [= <-] & Hx)].
Qed.

(** A line without an at sign holds no placeholder. *)
Lemma placeholder_absent name new line :
  64 ∉ line -> str_replace line (u (String "@" name)) new = line.
Proof. apply (str_replace_absent 64). Qed.

Lemma getitem_inr (d : gmap string pyval) key v :
  getitem d key = inr v <-> d !! key = Some v.
Proof.
  unfold getitem. destruct (d !! key); split; try done; by intros [= ->].
Qed.

Lemma getitem_inl (d : gmap string pyval) key e :
  getitem d key = inl e <-> d !! key = None /\ e = KeyError (u key).
Proof.
  unfold getitem. destruct (d !! key); split; try done;
    try (by intros [? ?]); try (by intros [= <-]); by intros [_ ->].
Qed.

Lemma as_path_inr v s : as_path v = inr s <-> v = VStr s.
Proof. destruct v; simpl; split; try done; by intros [= ->]. Qed.

(** The lines of a well-formed entry are filled, and a line without an
    at sign stays as it is. *)
Lemma fill_line_well_formed w key entry toc_rows source_rows line :
  well_formed entry = true ->
  exists text,
    fill_line w key entry toc_rows source_rows line = inr text
    /\ (64 ∉ line -> text = line).
Proof.
  unfold well_formed.
  destruct (entry !! "entries") as [entries|] eqn:He; [|done].
  destruct (entry !! "location") as [[| | |location| | | |]|] eqn:Hl;
    try by destruct entries.
  intros Hwf.
  destruct (proj2 (format_number_inr entries)) as [number Hnumber];
    [by destruct entries|].
  eexists. split.
  - unfold fill_line.
    apply bind_inr. exists entries. split; [by apply getitem_inr|].
    apply bind_inr. exists number. split; [done|].
    apply bind_inr. exists (VStr location). split; [by apply getitem_inr|].
    apply bind_inr. exists location. split; reflexivity.
  - intros Hline. by rewrite !(placeholder_absent _ _ line).
Qed.

(** What fails in a line fails in every line, and is an error of the
    entry. *)
Lemma fill_line_inl w key entry toc_rows source_rows line e :
  fill_line w key entry toc_rows source_rows line = inl e ->
  e <> UnicodeEncodeError
  /\ forall line',
       fill_line w key entry toc_rows source_rows line' = inl e.
Proof.
  unfold fill_line. intros Hfill.
  apply bind_inl in Hfill as [Hfill|(entries & He & Hfill)].
  { split; [by apply getitem_inl in Hfill as [_ ->]|].
    intros line'. apply bind_inl. by left. }
  apply bind_inl in Hfill as [Hfill|(number & Hn & Hfill)].
  { split; [by destruct entries as [|[]| | | | | |]; simplify_eq/=|].
    intros line'. apply bind_inl. right. exists entries. split; [done|].
    apply bind_inl. by left. }
  apply bind_inl in Hfill as [Hfill|(location & Hl & Hfill)].
  { split; [by apply getitem_inl in Hfill as [_ ->]|].
    intros line'. apply bind_inl. right. exists entries. split; [done|].
    apply bind_inl. right. exists number. split; [done|].
    apply bind_inl. by left. }
  apply bind_inl in Hfill as [Hfill|(path & Hp & Hfill)]; [|done].
  split; [by destruct location; simplify_eq/=|].
  intros line'. apply bind_inl. right. exists entries. split; [done|].
  apply bind_inl. right. exists number. split; [done|].
  apply bind_inl. right. exists location. split; [done|].
  apply bind_inl. by left.
Qed.

Lemma write_lines_filled fill refused lines out :
  (forall line, exists text,
      fill line = inr text /\ (64 ∉ line -> text = line)) ->
  exists out',
    write_lines fill refused lines out = (out', None)
    \/ write_lines fill refused lines out = (out', Some UnicodeEncodeError)
    \/ write_lines fill refused lines out = (out', Some OSError).
Proof.
  intros Hfill. revert out.
  induction lines as [|line lines IH]; intros out; simpl.
  - exists out. by left.
  - destruct (Hfill line) as (text & -> & Htext).
    destruct (encodable text); [|exists out; by right; left].
    destruct (refused _); [exists out; by right; right | apply IH].
Qed.

(** An error of the entry comes with the first line. *)
Lemma write_lines_failed fill refused lines out out' e :
  (forall line e, fill line = inl e -> forall line', fill line' = inl e) ->
  write_lines fill refused lines out = (out', Some e) ->
  e <> UnicodeEncodeError ->
  e <> OSError ->
  out' = out.
Proof.
  intros Hfill. destruct lines as [|line lines]; simpl; [done|].
  destruct (fill line) as [e0|text] eqn:Hline; [by intros [= <- _]|].
  assert (Hnone : forall lines out,
             (write_lines fill refused lines out).2 = None
             \/ (write_lines fill refused lines out).2
                = Some UnicodeEncodeError
             \/ (write_lines fill refused lines out).2 = Some OSError).
  { clear lines. intros lines.
    induction lines as [|line' lines IH]; intros out0; simpl; [by left|].
    destruct (fill line') as [e0|text'] eqn:Hline'.
    - by rewrite (Hfill _ _ Hline' line) in Hline.
    - destruct (encodable text'); [|by right; left].
      destruct (refused _); [by right; right | apply IH]. }
  destruct (encodable text); [|by intros [= _ <-]].
  destruct (refused _); [by intros [= _ <-]|].
  intros Hwrite He Hos.
  destruct (Hnone lines (out ++ text)) as [Hn|[Hn|Hn]];
    rewrite Hwrite in Hn; simpl in Hn; congruence.
Qed.

Lemma makedirs_inr w path :
  makedirs w path = inr tt <-> path <> [] /\ makedirs_raises w path = None.
Proof.
  destruct path as [|c path]; simpl; [by split; [|intros [? _]]|].
  destruct (makedirs_raises w (c :: path)); split; try done. by intros [_ ?].
Qed.

Lemma update_readme_inr w key entry toc_rows r :
  update_readme w key entry toc_rows = inr r <->
  exists sourcesdata source_rows location,
    entry !! "sourcesdata" = Some sourcesdata
    /\ format_source_rows sourcesdata = inr source_rows
    /\ entry !! "location" = Some (VStr location)
    /\ location <> []
    /\ makedirs_raises w location = None
    /\ r = write_readme w key entry toc_rows source_rows
             (path_join location (u "readme.md")).
Proof.
  unfold update_readme. rewrite bind_inr. split.
  - intros (sourcesdata & Hs%getitem_inr & Hr).
    apply bind_inr in Hr as (source_rows & Hrows & Hr).
    apply bind_inr in Hr as (loc & Hl%getitem_inr & Hr).
    apply bind_inr in Hr as (location & ->%as_path_inr & Hr).
    apply bind_inr in Hr as ([] & [Hne Hmake]%makedirs_inr & [= <-]).
    by exists sourcesdata, source_rows, location.
  - intros (sourcesdata & source_rows & location
            & Hs & Hrows & Hl & Hne & Hmake & ->).
    exists sourcesdata. split; [by apply getitem_inr|].
    apply bind_inr. exists source_rows. split; [done|].
    apply bind_inr. exists (VStr location). split; [by apply getitem_inr|].
    apply bind_inr. exists location. split; [done|].
    apply bind_inr. exists tt. split; [by apply makedirs_inr|done].
Qed.

End UpdateReadme.

(* ================================================================== *)
(** * What [update_readme] and [main] write *)
(* ================================================================== *)

Section ReadmeTheorems.
Import Readme.
Local Open Scope string_scope.
Local Open Scope list_scope.

Lemma fill_line_verbatim w key entry toc_rows source_rows line text :
  fill_line w key entry toc_rows source_rows line = inr text ->
  64 ∉ line -> text = line.
Proof.
  unfold fill_line. intros Hfill Hline.
  apply bind_inr in Hfill as (entries & _ & Hfill).
  apply bind_inr in Hfill as (number & _ & Hfill).
  apply bind_inr in Hfill as (loc & _ & Hfill).
  apply bind_inr in Hfill as (location & _ & Hfill).
  rewrite !(placeholder_absent _ _ line) in Hfill by done.
  by injection Hfill.
Qed.

Lemma write_lines_verbatim fill refused lines out out' :
  (forall line text, fill line = inr text -> 64 ∉ line -> text = line) ->
  write_lines fill refused lines out = (out', None) ->
  Forall (fun line => 64 ∉ line) lines ->
  out' = out ++ concat lines.
Proof.
  intros Hfill. revert out.
  induction lines as [|line lines IH]; intros out; simpl.
  - intros [= <-] _. by rewrite app_nil_r.
  - destruct (fill line) as [e|text] eqn:Hline; [done|].
    destruct (encodable text); [|done].
    destruct (refused _); [done|].
    intros Hwrite [Hat Hlines]%Forall_cons.
    rewrite (IH _ Hwrite Hlines), (Hfill _ _ Hline Hat).
    by rewrite app_assoc.
Qed.

(** X9: when [update_readme] returns without an error in the log, a
    template without an at sign has been copied to the target as it is:
    nothing but the placeholders is changed. *)
Theorem update_readme_verbatim (w : world) (key : pystr)
    (entry : gmap string pyval) (toc_rows : pystr) (r : report)
    (lines : list pystr) :
  update_readme w key entry toc_rows = inr r ->
  template_file w = Some lines ->
  Forall (fun line => 64 ∉ line) lines ->
  logged r = None ->
  written r = Some (concat lines).
Proof.
  intros (sourcesdata & source_rows & location & _ & _ & _ & _ & _ & ->)
         %update_readme_inr Hlines Hat.
  unfold write_readme. rewrite Hlines.
  destruct (can_write w _); [|done].
  destruct (write_lines _ _ _ _) as [out [e|]] eqn:Hwrite; [done|].
  destruct (template_decodes w); [|done]. simpl.
  intros _. f_equal.
  eapply (write_lines_verbatim _ _ _ []); [|exact Hwrite|done].
  apply fill_line_verbatim.
Qed.

(** X10: an error that [update_readme] logs and that is not one of the
    operating system or of the encoding comes from the entry, and it
    comes with the first line: the target has been opened for writing
    and is left empty. *)
Theorem update_readme_truncates (w : world) (key : pystr)
    (entry : gmap string pyval) (toc_rows : pystr) (r : report)
    (e : exception) :
  update_readme w key entry toc_rows = inr r ->
  logged r = Some e ->
  e <> OSError ->
  e <> UnicodeEncodeError ->
  e <> UnicodeDecodeError ->
  written r = Some [].
Proof.
  intros (sourcesdata & source_rows & location & _ & _ & _ & _ & _ & ->)
         %update_readme_inr.
  unfold write_readme. destruct (template_file w) as [lines|]; simpl;
    [|by intros [= <-]].
  destruct (can_write w _); simpl; [|by intros [= <-]].
  destruct (write_lines _ _ _ _) as [out [e'|]] eqn:Hwrite; simpl.
  - intros [= ->] Hos He _. f_equal.
    eapply write_lines_failed; [|exact Hwrite|exact He|exact Hos].
    intros line e0 Hline. by apply (fill_line_inl _ _ _ _ _ _ _ Hline).
  - destruct (template_decodes w); simpl; [done|]. by intros [= <-].
Qed.

(** X11: [update_readme] raises for an entry whose location is the
    empty text, whatever else it holds: [os.makedirs] has no directory
    to make.  No file is opened. *)
Theorem update_readme_empty_location (w : world) (key : pystr)
    (entry : gmap string pyval) (toc_rows : pystr) :
  entry !! "location" = Some (VStr []) ->
  exists e, update_readme w key entry toc_rows = inl e.
Proof.
  intros Hl. destruct (update_readme w key entry toc_rows) as [e|r] eqn:Hr;
    [by exists e|].
  apply update_readme_inr in Hr
      as (sourcesdata & source_rows & location & _ & _ & Hl' & Hne & _).
  rewrite Hl in Hl'. by injection Hl' as <-.
Qed.

(** ** [main] *)

Lemma update_all_reports w data toc_rows keys (P : report -> Prop) :
  (forall key entry r,
      key ∈ keys ->
      lookup_entry data key = Some entry ->
      update_readme w key entry toc_rows = inr r ->
      P r) ->
  Forall P (update_all w data toc_rows keys).1.
Proof.
  induction keys as [|key keys IH]; intros HP; simpl; [constructor|].
  destruct (getentry data key ≫= _) as [e|r] eqn:Hr; simpl; [constructor|].
  apply bind_inr in Hr as (entry & Hentry & Hr).
  unfold getentry in Hentry.
  destruct (lookup_entry data key) as [entry'|] eqn:Hl; [|done].
  injection Hentry as ->.
  destruct (update_all w data toc_rows keys) as [reports e] eqn:Hall.
  simpl in *. constructor.
  - apply (HP key entry); [by left|done..].
  - apply IH. intros key' entry' r' Hk. apply HP. by right.
Qed.

Lemma settle_location key entry :
  well_formed entry = true ->
  exists location,
    settle key entry !! "location" = Some (VStr location) /\ (92 ∉ location).
Proof.
  intros [row Hrow]%(toc_row_well_formed key).
  apply toc_row_inr in Hrow
      as (entries & fmt & location & _ & _ & _ & -> & _).
  eexists. split; [by lookups|]. apply slashes_absent.
Qed.

(** The entries that [main] hands to [update_readme]. *)
Lemma main_entries data toc_rows data' key entry :
  format_toc_rows data (sort_keys data) = inr (toc_rows, data') ->
  key ∈ sort_keys data ->
  lookup_entry data' key = Some entry ->
  exists entry0,
    lookup_entry data key = Some entry0
    /\ well_formed entry0 = true
    /\ entry = settle key entry0.
Proof.
  intros (rows & Hrows & _)%format_toc_rows_inr Hkey Hl.
  destruct (toc_rows_of_inr _ _ _ _ Hrows) as (_ & Hin & _).
  destruct (Hin _ Hkey) as (entry0 & Hl0 & Hwf & Hl').
  exists entry0. rewrite Hl in Hl'. by injection Hl' as ->.
Qed.

Lemma main_reports w (P : report -> Prop) :
  (forall key entry r toc_rows,
      well_formed entry = true ->
      update_readme w key (settle key entry) toc_rows = inr r ->
      P r) ->
  Forall P (main w).1.
Proof.
  intros HP. unfold main.
  destruct (load_json w) as [e|data]; [constructor|]. simpl.
  destruct (format_toc_rows data (sort_keys data)) as [e|[toc_rows data']]
    eqn:Htoc; [constructor|].
  apply update_all_reports. intros key entry r Hkey Hl Hr.
  destruct (main_entries _ _ _ _ _ Htoc Hkey Hl) as (entry0 & _ & Hwf & ->).
  by apply (HP key entry0 r toc_rows).
Qed.

Lemma path_join_elem c a b :
  c ∈ path_join a b -> c ∈ a \/ c ∈ b \/ c = 47.
Proof.
  unfold path_join. destruct (startswith b [47]); [by right; left|].
  destruct (rev a) as [|x ?]; [by right; left|].
  destruct (x =? 47)%N; rewrite ?elem_of_app, ?list_elem_of_singleton; tauto.
Qed.

Lemma path_join_suffix a b : exists dir, path_join a b = dir ++ b.
Proof.
  unfold path_join. destruct (startswith b [47]); [by exists []|].
  destruct (rev a) as [|x ?]; [by exists []|].
  destruct (x =? 47)%N; [by exists a|].
  exists (a ++ [47]). by rewrite <- app_assoc.
Qed.

Lemma target_write_readme w key entry toc_rows source_rows target_readme :
  target (write_readme w key entry toc_rows source_rows target_readme)
  = target_readme.
Proof.
  unfold write_readme. destruct (template_file w); [|done].
  destruct (can_write w _); [|done].
  destruct (write_lines _ _ _ _) as [out [e|]]; [done|].
  by destruct (template_decodes w).
Qed.

(** X12: in [main], no call of [update_readme] logs an error of the
    data: [format_toc_rows] has checked the entries before, and changed
    them in place.  What is logged is an [OSError], when the template
    or the target could not be opened or the operating system refused a
    write; or a [UnicodeEncodeError], when a line holds a surrogate, or
    a [UnicodeDecodeError], when the template is not UTF-8 throughout,
    and then the target has been opened and holds the lines that were
    written before.  Without an error in the log the target has been
    written, and the template has been read to its end. *)
Theorem main_logs_no_data_error (w : world) :
  Forall
    (fun r =>
       match logged r with
       | None => is_Some (written r) /\ template_decodes w = true
       | Some e =>
           e = OSError
           \/ (e = UnicodeEncodeError /\ is_Some (written r))
           \/ (e = UnicodeDecodeError /\ is_Some (written r)
               /\ template_decodes w = false)
       end)
    (main w).1.
Proof.
  apply main_reports. intros key entry r toc_rows Hwf.
  intros (sourcesdata & source_rows & location & _ & _ & _ & _ & _ & ->)
         %update_readme_inr.
  unfold write_readme.
  destruct (template_file w) as [lines|]; [|by left].
  destruct (can_write w _); [|by left].
  destruct (write_lines_filled
              (fill_line w key (settle key entry) toc_rows source_rows)
              (write_raises w (path_join location (u "readme.md")))
              lines (u ""))
    as (out & [-> | [-> | ->]]).
  - intros line. apply fill_line_well_formed. by apply settle_well_formed.
  - destruct (template_decodes w); simpl; [done|]. right; right. done.
  - simpl. right; left. done.
  - simpl. by left.
Qed.

(** X13: every file that [main] writes, or tries to, is a [readme.md],
    and its path has no backslash. *)
Theorem main_targets (w : world) :
  Forall
    (fun r => (92 ∉ target r) /\ exists dir, target r = dir ++ u "readme.md")
    (main w).1.
Proof.
  apply main_reports. intros key entry r toc_rows Hwf.
  intros (sourcesdata & source_rows & location & _ & _ & Hl & _ & _ & ->)
         %update_readme_inr.
  rewrite target_write_readme. split; [|apply path_join_suffix].
  destruct (settle_location key entry Hwf) as (location' & Hl' & Hfree).
  rewrite Hl in Hl'. injection Hl' as <-.
  intros [?|[Hin| ?]]%path_join_elem; [done| |done].
  vm_compute in Hin. by repeat (apply elem_of_cons in Hin as [?|Hin]);
    try apply elem_of_nil in Hin.
Qed.

(** X14: if one entry of the data lacks a number of entries or a
    location that is a text, [format_toc_rows] raises, and [main] stops
    with its exception before it writes the first readme. *)
Theorem main_all_or_nothing (w : world) (data : readme_data)
    (key : pystr) (entry : gmap string pyval) :
  readme_data_file w = inr data ->
  lookup_entry data key = Some entry ->
  well_formed entry = false ->
  exists e,
    format_toc_rows data (sort_keys data) = inl e
    /\ main w = ([], Some e).
Proof.
  intros Hdata Hl Hwf. unfold main, load_json. rewrite Hdata.
  destruct (format_toc_rows data (sort_keys data)) as [e|[toc_rows data']]
    eqn:Htoc; [by exists e|].
  assert (Hkey : key ∈ sort_keys data).
  { rewrite sort_keys_Permutation.
    apply lookup_entry_Some. by exists entry. }
  apply format_toc_rows_inr in Htoc as (rows & Hrows & _).
  destruct (toc_rows_of_inr _ _ _ _ Hrows) as (_ & Hin & _).
  destruct (Hin _ Hkey) as (entry' & Hl' & Hwf' & _).
  rewrite Hl in Hl'. injection Hl' as <-. by rewrite Hwf in Hwf'.
Qed.

End ReadmeTheorems.

(* ================================================================== *)
(** * A run of [main] that completes *)
(* ================================================================== *)

Section MainCompletes.
Import Readme.
Local Open Scope string_scope.
Local Open Scope list_scope.

Lemma update_all_complete w data toc_rows keys :
  Forall
    (fun key =>
       exists entry r,
         lookup_entry data key = Some entry
         /\ update_readme w key entry toc_rows = inr r)
    keys ->
  (update_all w data toc_rows keys).2 = None
  /\ length (update_all w data toc_rows keys).1 = length keys.
Proof.
  induction 1 as [|key keys (entry & r & Hl & Hr) _ [IHe IHl]]; simpl;
    [done|].
  unfold getentry. rewrite Hl. simpl. rewrite Hr.
  destruct (update_all w data toc_rows keys) as [reports e]. simpl in *.
  by rewrite IHl.
Qed.

Lemma settle_ready w key entry toc_rows :
  ready w entry ->
  exists r, update_readme w key (settle key entry) toc_rows = inr r.
Proof.
  intros (Hwf & (sources & Hs & Hp) & location & Hl & Hne & Hmake).
  destruct (proj1 (toc_row_well_formed key entry) Hwf) as [row Hrow].
  apply toc_row_inr in Hrow
      as (entries & fmt & location' & _ & _ & Hl' & Hsettle & _).
  rewrite Hl in Hl'. injection Hl' as <-.
  eexists. apply update_readme_inr.
  eexists (VList (map VDict sources)), _,
    (str_replace location (u "\") (u "/")).
  split; [rewrite Hsettle; by lookups|].
  split; [by apply format_source_rows_fields|].
  split; [rewrite Hsettle; by lookups|].
  split; [|by split].
  change (u "\") with [92]. change (u "/") with [47].
  rewrite str_replace_char. by destruct location.
Qed.

(** X15: [main] makes a readme for every key, and ends without an
    exception, when the data file loads and every entry is ready: it has
    a number of entries and a location that is a text and not empty, its
    sources are dictionaries, and its directory can be made. *)
Theorem main_completes (w : world) (data : readme_data) :
  readme_data_file w = inr data ->
  (forall key entry, lookup_entry data key = Some entry -> ready w entry) ->
  (main w).2 = None /\ length (main w).1 = length data.
Proof.
  intros Hdata Hready. unfold main, load_json. rewrite Hdata.
  assert (Hkeys : forall key,
             key ∈ sort_keys data ->
             exists entry, lookup_entry data key = Some entry).
  { intros key. rewrite sort_keys_Permutation. apply lookup_entry_Some. }
  destruct (proj2 (toc_rows_of_well_formed data (sort_keys data)))
    as [[rows data'] Hrows].
  { apply Forall_forall. intros key [entry Hl]%Hkeys.
    exists entry. split; [done|]. by destruct (Hready _ _ Hl). }
  assert (Htoc : format_toc_rows data (sort_keys data)
                 = inr (str_join newline rows ++ newline, data'))
    by (apply format_toc_rows_inr; by exists rows).
  rewrite Htoc.
  destruct (toc_rows_of_inr _ _ _ _ Hrows) as (_ & Hin & _).
  rewrite <- (length_map fst data), <- (sort_keys_Permutation data).
  apply update_all_complete, Forall_forall. intros key Hkey.
  destruct (Hin _ Hkey) as (entry & Hl & _ & Hl').
  destruct (settle_ready w key entry (str_join newline rows ++ newline)
              (Hready _ _ Hl)) as [r Hr].
  by exists (settle key entry), r.
Qed.

End MainCompletes.

(* ================================================================== *)
(** * The keys of the options *)
(* ================================================================== *)

Section ArgparseKeys.
Import Argparse.

Variable p : list argument.

(** Every option that stores a value has a default. *)
Hypothesis has_default :
  forall a, a ∈ p -> act a <> help -> is_Some (defaults p !! dest a).

Lemma insert_dest_dom a v (ns : gmap string pyval) :
  a ∈ p -> act a <> help ->
  dom ns = dom (defaults p) ->
  dom (<[dest a := v]> ns) = dom (defaults p).
Proof.
  intros Ha Hact Hdom. rewrite dom_insert_lookup_L; [done|].
  apply elem_of_dom. rewrite Hdom. apply elem_of_dom. by apply has_default.
Qed.

Lemma open_option_dom a e ns ex st' :
  a ∈ p ->
  dom ns = dom (defaults p) ->
  open_option a e ns ex = inr st' ->
  waits_for_values p st' /\ dom (namespace st') = dom (defaults p).
Proof.
  intros Ha Hdom. unfold open_option, waits_for_values.
  destruct (act a) eqn:Hact, e as [v|]; intros Ho; simplify_eq/=;
    (split; [done|]); try done;
    apply insert_dest_dom; try done; by rewrite Hact.
Qed.

Lemma at_top_dom t ns ex st' :
  dom ns = dom (defaults p) ->
  at_top (classify p t) ns ex = inr st' ->
  waits_for_values p st' /\ dom (namespace st') = dom (defaults p).
Proof.
  intros Hdom. unfold at_top.
  destruct (classify p t) as [|a e| | |] eqn:Hc; try done.
  - by intros [= <-].
  - apply classify_in in Hc. by apply open_option_dom.
  - by intros [= <-].
Qed.

Lemma step_dom st t st' :
  waits_for_values p st ->
  dom (namespace st) = dom (defaults p) ->
  step p st t = inr st' ->
  waits_for_values p st' /\ dom (namespace st') = dom (defaults p).
Proof.
  unfold step. intros Hw Hdom.
  destruct (waiting st) as [|a|a vs] eqn:Hwait.
  - by apply at_top_dom.
  - unfold waits_for_values in Hw. rewrite Hwait in Hw.
    destruct Hw as [Ha Hact].
    destruct (classify p t) eqn:Hc; try done.
    intros [= <-]. split; [done|]. simpl.
    apply insert_dest_dom; try done. by rewrite Hact.
  - unfold waits_for_values in Hw. rewrite Hwait in Hw.
    destruct Hw as [Ha Hact].
    assert (Hins : dom (<[dest a := strs vs]> (namespace st))
                   = dom (defaults p))
      by (apply insert_dest_dom; try done; by rewrite Hact).
    destruct (classify p t) eqn:Hc.
    + intros [= <-]. unfold waits_for_values. simpl. by split.
    + rewrite <- Hc. by apply at_top_dom.
    + done.
    + rewrite <- Hc. by apply at_top_dom.
    + done.
Qed.

Lemma consume_dom st argv options :
  waits_for_values p st ->
  dom (namespace st) = dom (defaults p) ->
  consume p st argv = inr options ->
  dom options = dom (defaults p).
Proof.
  revert st. induction argv as [|t argv IH]; intros st Hw Hdom; simpl.
  - unfold finish. destruct (waiting st) as [|a|a vs] eqn:Hwait; try done.
    + destruct (extras st); [done|]. by intros [= <-].
    + destruct (extras st); [done|]. intros [= <-].
      unfold waits_for_values in Hw. rewrite Hwait in Hw.
      destruct Hw as [Ha Hact].
      apply insert_dest_dom; try done. by rewrite Hact.
  - destruct (step p st t) as [e|st'] eqn:Hs; [done|].
    apply step_dom in Hs as [Hw' Hdom']; try done. by apply IH.
Qed.

Lemma parse_args_dom argv options :
  parse_args p argv = inr options -> dom options = dom (defaults p).
Proof.
  unfold parse_args. destruct (has_token _ _ _); [done|].
  destruct (has_token _ _ _); [done|].
  by apply consume_dom.
Qed.

End ArgparseKeys.

Section OptionKeys.
Context `{Environment}.
Local Open Scope string_scope.
Local Open Scope list_scope.

Lemma parser_defaults a :
  a ∈ parser -> Argparse.act a <> Argparse.help ->
  is_Some (Argparse.defaults parser !! Argparse.dest a).
Proof.
  unfold parser. rewrite !elem_of_cons, elem_of_nil.
  intros Ha Hact. destruct Ha as [->|Ha]; [by destruct Hact|].
  repeat (destruct Ha as [->|Ha]); try (by destruct Ha);
    vm_compute; by eexists.
Qed.

Lemma defaults_undeclared (p : list Argparse.argument) key :
  Forall (fun a => Argparse.dest a <> key) p ->
  Argparse.defaults p !! key = None.
Proof.
  unfold Argparse.defaults.
  assert (Hgen : forall ns : gmap string pyval,
             Forall (fun a => Argparse.dest a <> key) p ->
             fold_left
               (fun ns a =>
                  match Argparse.default_value a with
                  | Some v =>
                      if bool_decide (is_Some (ns !! Argparse.dest a))
                      then ns else <[Argparse.dest a := v]> ns
                  | None => ns
                  end) p ns !! key = ns !! key).
  { induction p as [|a p IH]; intros ns Hp; simpl; [done|].
    apply Forall_cons in Hp as [Ha Hp]. rewrite IH by done.
    destruct (Argparse.default_value a); [|done].
    destruct (bool_decide _); [done|]. by rewrite lookup_insert_ne. }
  intros Hp. by rewrite Hgen.
Qed.

(** X16: whatever the command line, the options that [main] takes from
    the parser have exactly sixteen keys, one for each [add_argument];
    [outputsubfolder], [targetip] and [flushdnscache], which [main] and
    the defaults use, are not among them. *)
Theorem option_keys (argv : list pystr) (options : gmap string pyval) :
  Argparse.parse_args parser argv = inr options ->
  forall key,
    is_Some (options !! key)
    <-> key ∈ [ "auto"; "backup"; "extensions"; "nounifiedblackhole"; "ip";
                "keepdomaincomments"; "noupdate"; "skipstaticblackhole";
                "nogendata"; "output"; "replace"; "flush_dns_cache";
                "compress"; "minimise"; "whitelist"; "blacklist" ].
Proof.
  intros Hp key.
  rewrite <- elem_of_dom,
    (parse_args_dom parser parser_defaults argv options Hp), elem_of_dom.
  split.
  - intros Hkey.
    destruct (decide (Exists (fun a => Argparse.dest a = key) parser))
      as [Hex|Hno].
    + unfold parser in Hex. rewrite !Exists_cons, Exists_nil in Hex.
      destruct Hex as [<-|Hex].
      { vm_compute in Hkey. by destruct Hkey. }
      repeat (destruct Hex as [<-|Hex];
              [by apply (bool_decide_unpack _); vm_compute|]). done.
    + apply not_Exists_Forall in Hno; [|intros a; apply _].
      rewrite defaults_undeclared in Hkey; [by destruct Hkey|].
      eapply Forall_impl; [exact Hno|]. by intros a Ha.
  - rewrite !elem_of_cons, elem_of_nil. intros Hk.
    repeat (destruct Hk as [->|Hk]; [vm_compute; by eexists|]). done.
Qed.

End OptionKeys.

(* ================================================================== *)
(** * The flush of the DNS cache, and the names of the extensions *)
(* ================================================================== *)

Section Flush.
Context `{Environment}.
Local Open Scope string_scope.
Local Open Scope list_scope.

(** Computations that do not call the helper that flushes the cache. *)
Ltac calm :=
  repeat first
    [ apply always_ret
    | apply always_lift
    | apply always_invoke; by intros [=]
    | apply always_bind; [|intros ?]
    | match goal with
      | |- always _ (if ?b then _ else _) => destruct b
      end ].

Lemma run_with_without_flush settings :
  settings !! "flushdnscache" = None ->
  always (fun c => callee c <> "prompt_for_flush_dns_cache")
    (run_with settings).
Proof.
  intros Hf. unfold run_with, write_final_file.
  do 29 (apply always_bind; [by calm|intros ?]).
  match goal with
  | |- always _ (if ?b then _ else _) => destruct b
  end; [|by calm].
  apply always_getitem. intros flush_cache Hx. by rewrite Hf in Hx.
Qed.

(** X17: the helper that flushes the DNS cache is never called.  The
    option [-f] is stored under [flush_dns_cache], and line 194 reads
    [flushdnscache], which neither the parser nor the defaults give: with
    settings that take this key from them, as lines 108 and 109 do, the
    run makes no call of [prompt_for_flush_dns_cache], with [-f] or
    without. *)
Theorem flush_dns_cache_never_prompted (argv : list pystr)
    (options settings : gmap string pyval) :
  Argparse.parse_args parser argv = inr options ->
  settings !! "flushdnscache"
  = update get_defaults options !! "flushdnscache" ->
  always (fun c => callee c <> "prompt_for_flush_dns_cache")
    (run_with settings).
Proof.
  intros Hp Hs. apply run_with_without_flush. rewrite Hs.
  unfold update. rewrite lookup_union_r; [done|].
  rewrite (undeclared_key "flushdnscache" argv options); [done| |done].
  unfold parser. repeat constructor; by intros [=].
Qed.

Lemma basename_from_free pre p :
  47 ∉ pre -> 47 ∉ basename_from (pre ++ p) p.
Proof.
  revert pre. induction p as [|c p IH]; intros pre Hpre; simpl.
  - by rewrite app_nil_r.
  - unfold chr_is. change (N_of_ascii "/") with 47.
    destruct (N.eqb_spec c 47) as [->|Hc].
    + apply (IH []). apply not_elem_of_nil.
    + replace (pre ++ c :: p) with ((pre ++ [c]) ++ p)
        by (by rewrite <- app_assoc).
      apply IH. rewrite elem_of_app, list_elem_of_singleton.
      intros [?|?]; [done|]. by apply Hc.
Qed.

Lemma basename_free p : 47 ∉ basename p.
Proof. apply (basename_from_free [] p), not_elem_of_nil. Qed.

(** X18: no extension that the run goes on with has a slash in its
    name: the extensions are matched against base names, so that an
    extension asked for by a path is left out. *)
Theorem extensions_are_names (options settings settings' :
                                gmap string pyval) :
  find_sources options settings = inr settings' ->
  exists effective,
    settings' !! "extensions" = Some (strs effective)
    /\ Forall (fun name => 47 ∉ name) effective
    /\ forall requested,
         options !! "extensions" = Some requested ->
         forall name, name ∈ effective -> name ∈ as_strs requested.
Proof.
  unfold find_sources, getitem.
  destruct (settings !! "datapath") as [data_path|]; [|done].
  destruct (settings !! "extensionspath") as [extensions_path|]; [|done].
  destruct (options !! "extensions") as [requested|]; [|done].
  intros [= <-]. eexists. split; [by rewrite lookup_insert_eq|].
  destruct (sorted_intersection_spec (as_strs requested)
              (map basename (list_dir_no_hidden extensions_path)))
    as (_ & Hin & _).
  split.
  - apply Forall_forall. intros name [_ Hname]%Hin.
    apply list_elem_of_fmap in Hname as (path & -> & _).
    apply basename_free.
  - intros ? [= <-] name [Hname _]%Hin. done.
Qed.

End Flush.

(* ================================================================== *)
(** * The theorems at work *)
(* ================================================================== *)

Lemma subdomain_exclusion_witness :
  Core.isExcluded (example_exclusions []) (u "ads.example.com") = true
  /\ Core.isExcluded (example_exclusions []) (u "notexample.com") = false.
Proof.
  destruct (@subdomain_exclusion example_environment example_collaborators
              [Core.Literal (u "example.com")] [] [u "hulu.com"]
              (example_exclusions []))
    as (_ & Hads & _ & _ & _ & _ & Hnot).
  - apply list_elem_of_here.
  - vm_compute. reflexivity.
  - split; [apply Hads, not_elem_of_nil|].
    apply (Hnot []). vm_compute. reflexivity.
Defined.

(** A subdomain of [example.com] that the blacklist entry [example.com]
    does not exclude: the default exclusion pattern reads no underscore
    in a label. *)
Lemma subdomain_not_excluded :
  Core.Literal (u "example.com") ∈ [Core.Literal (u "example.com")]
  /\ @Core.build example_collaborators
        [Core.Literal (u "example.com")] [] [u "hulu.com"]
        (@default_exclusionpattern example_environment)
      = Some (example_exclusions [])
  /\ subdomain [u "_dmarc"] (u "example.com") = u "_dmarc.example.com"
  /\ Core.isExcluded (example_exclusions []) (u "_dmarc.example.com") = false.
Proof.
  split; [apply list_elem_of_here|].
  split; [vm_compute; reflexivity|].
  split; vm_compute; reflexivity.
Qed.

(** A run whose output names [localhost] three times: twice on the
    static lines, once on the line of the entry that a source
    contributes. *)
Lemma localhost_named_thrice :
  exists out,
    Core.run (H := example_collaborators) example_static_config
             example_localhost_inputs = inr out
    /\ omap line_domain (Core.stream out)
       = [u "localhost"; u "localhost"; u "localhost"; u "foo.com"].
Proof. eexists. split; vm_compute; reflexivity. Qed.

(** Two runs on the same configuration and the same inputs, a day
    apart: the header carries the timestamp, and the outputs differ in
    it. *)
Lemma timestamp_in_output :
  output (Core.run (H := at_time (C := example_collaborators)
                            (u "2024-01-01 00:00:00"))
                   example_config (example_inputs []))
  = [u "# Date: 2024-01-01 00:00:00"; u "0.0.0.0 foo.com"; u "0.0.0.0 bar.com"]
  /\ output (Core.run (H := at_time (C := example_collaborators)
                               (u "2024-01-02 00:00:00"))
                      example_config (example_inputs []))
     = [u "# Date: 2024-01-02 00:00:00"; u "0.0.0.0 foo.com";
        u "0.0.0.0 bar.com"].
Proof. split; vm_compute; reflexivity. Qed.

Lemma whitelist_precedence_witness :
  Core.isExcluded (example_exclusions [u "ads.example.com"])
                  (u "ads.example.com") = false
  /\ u "ads.example.com"
     ∈ Core.domains
         (Core.merge (example_exclusions [u "ads.example.com"])
            (@all_entries example_collaborators 0
               (Core.sources (example_inputs [u "ads.example.com"])))).
Proof.
  destruct (@whitelist_precedence example_collaborators
              [Core.Literal (u "example.com")] [u "ads.example.com"]
              [u "hulu.com"] (u "([a-zA-Z\d-]+\.){0,}")
              (example_exclusions [u "ads.example.com"])
              (u "ads.example.com"))
    as [Hex Hmerge].
  - vm_compute. reflexivity.
  - apply list_elem_of_here.
  - split; [exact Hex|]. apply Hmerge. vm_compute. apply list_elem_of_here.
Defined.

Lemma exclusionpattern_default_witness :
  pattern_matches (@default_exclusionpattern example_environment)
                  (u "ads.cdn-3.")
  = pattern_matches spec_exclusionpattern (u "ads.cdn-3.").
Proof.
  apply (proj1 (proj2 (@exclusionpattern_default example_environment))).
  reflexivity.
Defined.

Lemma input_errors_absorbed_witness :
  exists out,
    Core.run (H := example_collaborators) example_config (example_inputs [])
    = inr out
    /\ Core.skippedSources out = 1%nat
    /\ Core.malformedLines out = 1%nat
    /\ Core.entryCount out = 2%nat.
Proof.
  destruct (proj2 (proj2 (@input_errors_absorbed example_collaborators
                            example_config (example_inputs []))))
    as (es & out & Hb & Hrun & Hs & Hm & Hn & _).
  - reflexivity.
  - intros entry [Hin|Hin]%elem_of_app.
    + apply list_elem_of_singleton in Hin as ->. by vm_compute.
    + apply list_elem_of_fmap in Hin as (d & -> & Hd).
      apply list_elem_of_singleton in Hd as ->. by vm_compute.
  - reflexivity.
  - change (@Core.build example_collaborators
              [Core.Literal (u "example.com")] [] [u "hulu.com"]
              (u "([a-zA-Z\d-]+\.){0,}") = Some es) in Hb.
    assert (Hes : example_exclusions [] = es)
      by (unfold example_exclusions; by rewrite Hb).
    exists out. split; [exact Hrun|].
    rewrite Hs, Hm, Hn, <- Hes. vm_compute. repeat split; reflexivity.
Defined.

Lemma effective_extensions_witness :
  let options :=
    options_of [u "-e"; u "porn"; u "social"; u "fakenews"; u "porn"] in
  exists settings',
    @find_sources example_environment options
                  (update (@get_defaults example_environment) options)
    = inr settings'
    /\ settings' !! "extensions"%string = Some (strs [u "fakenews"; u "porn"]).
Proof.
  intros options.
  destruct (@effective_extensions example_environment options
              (update (@get_defaults example_environment) options)
              (strs [u "porn"; u "social"; u "fakenews"; u "porn"])
              (VStr (u "/opt/blackhole/data"))
              (VStr (u "/opt/blackhole/extensions")))
    as (settings' & Hf & He & _).
  - vm_compute. reflexivity.
  - vm_compute. reflexivity.
  - vm_compute. reflexivity.
  - exists settings'. split; [exact Hf|]. rewrite He.
    vm_compute. reflexivity.
Defined.

Lemma keepdomaincomments_flag_witness :
  update (@get_defaults example_environment) (options_of [u "-k"])
    !! "keepdomaincomments"%string = Some (VBool false)
  /\ update (@get_defaults example_environment) (options_of [])
       !! "keepdomaincomments"%string = Some (VBool true).
Proof.
  split.
  - apply (proj2 (@keepdomaincomments_flag example_environment
                    [u "-k"] (options_of [u "-k"]) eq_refl)).
  - apply (proj2 (@keepdomaincomments_flag example_environment
                    [] (options_of []) eq_refl)).
Defined.

Lemma ip_option_leaves_targetip_witness :
  update (@get_defaults example_environment)
         (options_of [u "--ip"; u "127.0.0.1"])
    !! "targetip"%string = Some (VStr (u "0.0.0.0"))
  /\ options_of [u "--ip"; u "127.0.0.1"] !! "ip"%string
     = Some (VStr (u "127.0.0.1")).
Proof.
  split.
  - apply (proj2 (@ip_option_leaves_targetip example_environment
                    [u "--ip"; u "127.0.0.1"]
                    (options_of [u "--ip"; u "127.0.0.1"]) eq_refl)).
  - vm_compute. reflexivity.
Defined.

Lemma format_toc_rows_returns_witness :
  exists out,
    Readme.format_toc_rows example_float_data
      (Readme.sort_keys example_float_data) = inr out.
Proof.
  apply format_toc_rows_returns.
  repeat constructor. exists (example_float_data !!! 0%nat).2.
  split; vm_compute; reflexivity.
Defined.

(** A number of entries that is a [float] is printed with its digits
    in groups. *)
Example float_entries_are_formatted :
  Readme.format_number (VFloat (u "1234.5")) = inr (u "1,234.5")
  /\ Readme.format_number (VFloat (u "1e+16")) = inr (u "1e+16").
Proof. split; vm_compute; reflexivity. Qed.

(** The second line of the template takes the location, which cannot
    be encoded: the readme is left with the first line, and the error
    is logged. *)
Example surrogate_stops_the_writing :
  Readme.update_readme (example_world example_data example_template)
    (u "alt") example_surrogate_entry (u "")
  = inr {| Readme.target := u "alt" ++ [55296] ++ u "/readme.md";
           Readme.written :=
             Some (u "# Hosts of November 04 2026" ++ Readme.newline);
           Readme.logged := Some Readme.UnicodeEncodeError |}.
Proof. vm_compute. reflexivity. Qed.

Lemma format_toc_rows_again_witness :
  Readme.format_toc_rows (toc_of example_data).2
    (Readme.sort_keys example_data)
  = inr ((toc_of example_data).1, (toc_of example_data).2)
  /\ (toc_of example_data).1 <> [].
Proof.
  assert (Hrows : Readme.format_toc_rows example_data
                    (Readme.sort_keys example_data)
                  = inr ((toc_of example_data).1, (toc_of example_data).2)).
  { assert (Hok : match Readme.format_toc_rows example_data
                          (Readme.sort_keys example_data) with
                  | inr _ => true
                  | inl _ => false
                  end = true) by (vm_compute; reflexivity).
    unfold toc_of.
    by destruct (Readme.format_toc_rows example_data
                   (Readme.sort_keys example_data)) as [e|[text data']]. }
  split.
  - exact (format_toc_rows_again example_data _ _ _ Hrows).
  - apply (bool_decide_unpack _). vm_compute. exact I.
Defined.

Lemma fmtentries_reads_back_witness :
  exists digits,
    settle (u "base") (example_entry "./" 1234567) !! "fmtentries"%string
    = Some (VStr (sign 1234567 ++ digits))
    /\ int_value (uncomma (sign 1234567 ++ digits)) = Some 1234567%Z
    /\ head digits <> Some 44
    /\ forall i c,
         rev digits !! i = Some c -> c = 44 <-> (i mod 4 = 3)%nat.
Proof.
  apply (fmtentries_reads_back (u "base") (example_entry "./" 1234567) _
           (row_of (u "base") (example_entry "./" 1234567))).
  - vm_compute. reflexivity.
  - assert (Hrow : match Readme.toc_row (u "base")
                           (example_entry "./" 1234567) with
                   | inr _ => true
                   | inl _ => false
                   end = true) by (vm_compute; reflexivity).
    unfold row_of, settle.
    by destruct (Readme.toc_row (u "base") (example_entry "./" 1234567))
      as [e|[row entry']].
Defined.

Lemma format_toc_rows_locations_witness :
  exists entry location,
    Readme.lookup_entry (toc_of example_data).2 (u "fakenews") = Some entry
    /\ entry !! "location"%string = Some (VStr location)
    /\ (92 ∉ location).
Proof.
  assert (Hrows : Readme.format_toc_rows example_data
                    (Readme.sort_keys example_data)
                  = inr ((toc_of example_data).1, (toc_of example_data).2)).
  { assert (Hok : match Readme.format_toc_rows example_data
                          (Readme.sort_keys example_data) with
                  | inr _ => true
                  | inl _ => false
                  end = true) by (vm_compute; reflexivity).
    unfold toc_of.
    by destruct (Readme.format_toc_rows example_data
                   (Readme.sort_keys example_data)) as [e|[text data']]. }
  exact (format_toc_rows_locations _ _ _ _ Hrows (u "fakenews")).
Defined.

Lemma source_rows_fields_witness :
  Readme.format_source_rows (VList [VDict example_source])
  = inr (u "Example hosts |[link]() | [raw](https://example.org/hosts)"
         ++ u " | MIT | [issues]()| " ++ Readme.newline).
Proof.
  change (VList [VDict example_source])
    with (VList (map VDict [example_source])).
  rewrite (source_rows_fields [example_source]).
  - vm_compute. reflexivity.
  - repeat constructor.
Defined.

Lemma update_readme_verbatim_witness :
  Readme.written
    (report_at (example_world example_data plain_template) (u "base")
       (example_entry "./" 1234567) (u ""))
  = Some (concat plain_template).
Proof.
  assert (Hr : match Readme.update_readme
                       (example_world example_data plain_template)
                       (u "base") (example_entry "./" 1234567) (u "") with
               | inr r => bool_decide (Readme.logged r = None)
               | inl _ => false
               end = true) by (vm_compute; reflexivity).
  apply (update_readme_verbatim (example_world example_data plain_template)
           (u "base") (example_entry "./" 1234567) (u "") _ plain_template).
  - unfold report_at.
    by destruct (Readme.update_readme _ _ _ _).
  - reflexivity.
  - repeat constructor; apply (bool_decide_unpack _); vm_compute; exact I.
  - unfold report_at.
    destruct (Readme.update_readme _ _ _ _) as [e|r]; [done|].
    by apply bool_decide_eq_true in Hr.
Defined.

Lemma update_readme_truncates_witness :
  Readme.written
    (report_at (example_world example_data example_template) (u "base")
       (delete "entries"%string (example_entry "./" 1234567)) (u ""))
  = Some [].
Proof.
  assert (Hr : match Readme.update_readme
                       (example_world example_data example_template)
                       (u "base")
                       (delete "entries"%string
                          (example_entry "./" 1234567)) (u "") with
               | inr r =>
                   match Readme.logged r with
                   | Some (Readme.KeyError key) =>
                       bool_decide (key = u "entries")
                   | _ => false
                   end
               | inl _ => false
               end = true) by (vm_compute; reflexivity).
  apply (update_readme_truncates
           (example_world example_data example_template) (u "base")
           (delete "entries"%string (example_entry "./" 1234567)) (u "")
           _ (Readme.KeyError (u "entries"))).
  - unfold report_at. by destruct (Readme.update_readme _ _ _ _).
  - unfold report_at.
    destruct (Readme.update_readme _ _ _ _) as [e|r]; [done|].
    destruct (Readme.logged r) as [[key| | | | | | |]|]; try done.
    by apply bool_decide_eq_true in Hr as ->.
  - discriminate.
  - discriminate.
  - discriminate.
Defined.

Lemma update_readme_empty_location_witness :
  exists e,
    Readme.update_readme (example_world example_data example_template)
      (u "base") (example_entry "" 1234567) (u "")
    = inl e.
Proof.
  apply update_readme_empty_location. vm_compute. reflexivity.
Defined.

Lemma main_all_or_nothing_witness :
  let data :=
    example_data
    ++ [(u "social", delete "location"%string (example_entry "" 7))] in
  exists e,
    Readme.format_toc_rows data (Readme.sort_keys data) = inl e
    /\ Readme.main (example_world data example_template) = ([], Some e).
Proof.
  intros data. subst data.
  apply (main_all_or_nothing _
           (example_data
            ++ [(u "social", delete "location"%string (example_entry "" 7))])
           (u "social") (delete "location"%string (example_entry "" 7))).
  - reflexivity.
  - reflexivity.
  - vm_compute. reflexivity.
Defined.

Lemma main_completes_witness :
  (Readme.main (example_world example_data example_template)).2 = None
  /\ length (Readme.main (example_world example_data example_template)).1
     = 3%nat.
Proof.
  apply (main_completes (example_world example_data example_template)
           example_data eq_refl).
  intros key entry Hl.
  assert (Hin : entry ∈ map snd example_data).
  { clear -Hl. revert Hl. generalize example_data as data.
    induction data as [|[k e] data IH]; simpl; [done|].
    destruct (pystr_eqb k key); [intros [= ->]; by left|].
    intros Hl. right. by apply IH. }
  simpl in Hin. rewrite !elem_of_cons, elem_of_nil in Hin.
  destruct Hin as [->|[->|[->|[]]]].
  all: split; [vm_compute; reflexivity|]; split.
  all: try (exists [example_source]; split;
            [reflexivity|repeat constructor]).
  all: eexists; split; [reflexivity|]; split; [discriminate|done].
Defined.

Lemma option_keys_witness :
  is_Some (options_of [u "-f"] !! "flush_dns_cache"%string)
  /\ (is_Some (options_of [u "-f"] !! "flushdnscache"%string) -> False).
Proof.
  pose proof (@option_keys example_environment [u "-f"]
                (options_of [u "-f"]) eq_refl) as Hkeys.
  split.
  - apply Hkeys, (bool_decide_unpack _). vm_compute. exact I.
  - intros Hk%Hkeys. revert Hk. apply (bool_decide_unpack _).
    vm_compute. exact I.
Defined.

Lemma flush_dns_cache_never_prompted_witness :
  let settings :=
    <["outputpath"%string := VStr (u "/opt/blackhole/")]>
      (update (@get_defaults eager_environment) (options_of [u "-f"])) in
  Forall (fun c => callee c <> "prompt_for_flush_dns_cache"%string)
    (@run_with eager_environment settings []).2
  /\ (@run_with eager_environment settings []).1
     = inl (KeyError "flushdnscache").
Proof.
  intros settings. split.
  - destruct (@flush_dns_cache_never_prompted eager_environment [u "-f"]
                (options_of [u "-f"]) settings eq_refl eq_refl [])
      as (new & -> & Hnew).
    exact Hnew.
  - vm_compute. reflexivity.
Defined.

Lemma extensions_are_names_witness :
  let options := options_of [u "-e"; u "extensions/porn"; u "porn"] in
  exists effective,
    match @find_sources example_environment options
            (update (@get_defaults example_environment) options) with
    | inr settings' => settings' !! "extensions"%string = Some (strs effective)
    | inl _ => False
    end
    /\ Forall (fun name => 47 ∉ name) effective.
Proof.
  intros options.
  assert (Hok : match @find_sources example_environment options
                        (update (@get_defaults example_environment) options)
                with
                | inr _ => true
                | inl _ => false
                end = true) by (vm_compute; reflexivity).
  destruct (@find_sources example_environment options
              (update (@get_defaults example_environment) options))
    as [e|settings'] eqn:Hf; [discriminate Hok|].
  destruct (@extensions_are_names example_environment _ _ _ Hf)
    as (effective & He & Hfree & _).
  exists effective. split; assumption.
Defined.
